(** * IntrusiveBTree: an order-statistics B-tree (btree_intrusive.h)

    A shallow embedding of [IntrusiveBTree<K, V, ORDER, Cmp>] for [K = int]
    and [Cmp = std::less<int>], and theorems about it.

    Representation.
    - A node is a value of the tagged type [node]: [BTreeLeaf] or
      [BTreeNode] (the C++ [isLeaf] flag is the constructor).
    - [keys[]] and [vals[]] are updated in lockstep by every function of
      the source, so they are kept as one list of slots [(key, value)];
      [len] is the length of that list.  Array slots at index [>= len] are
      not represented; the one place where the source reads such a slot
      ([removeFromLeaf], [node->keys[0]] of a leaf that became empty) is
      written out there.  The array capacity ([ORDER - 1] slots, [ORDER]
      children) is checked at every write that grows a node.
    - [unsigned size] is a [Z] in [0, 2^32); every update wraps.
    - Ownership is a tree, and every mutation of the source keeps
      [child->parent] equal to the owning node.  The parent chain of a node
      is therefore the list of frames [(parent, index)] above it
      ([chain]), and writing through a pointer is [plug].
    - [assert] failures, out-of-bounds accesses and thrown exceptions are
      results of type [outcome]. *)

From stdpp Require Import base list sorting.
From Stdlib Require Import ZArith Lia.

Local Open Scope Z_scope.

(** ** Results of running the code *)

Inductive runtime_error : Type :=
| FillViolation    (* "node length is less than ORDER / 2 - 1" *)
| ParentInvalid    (* "node parent is invalid, but not root" *)
| OrderViolation   (* "order violation" *)
| SizeMismatch.    (* "size mismatch: ..." *)

Inductive failure : Type :=
| AssertionFailed
| OutOfBounds
| Thrown (e : runtime_error)
| OutOfFuel.

Inductive outcome (A : Type) : Type :=
| Ok (a : A)
| Fail (e : failure).
Arguments Ok {A} a.
Arguments Fail {A} e.

#[global] Instance outcome_ret : MRet outcome := fun A a => Ok a.
#[global] Instance outcome_bind : MBind outcome :=
  fun A B f m => match m with Ok a => f a | Fail e => Fail e end.

Definition assert (b : bool) : outcome unit :=
  if b then Ok tt else Fail AssertionFailed.

Definition throw {A : Type} (e : runtime_error) : outcome A := Fail (Thrown e).

(** [a[i]] for an index that must be inside the live part of the array. *)
Definition at_index {A : Type} (l : list A) (i : nat) : outcome A :=
  match l !! i with Some x => Ok x | None => Fail OutOfBounds end.

(** [std::move_backward(a + i, a + len, a + len + 1); a[i] = x] *)
Definition insert_at {A : Type} (i : nat) (x : A) (l : list A) : list A :=
  take i l ++ x :: drop i l.

(** [unsigned] arithmetic *)
Definition wrap (z : Z) : Z := z mod 2 ^ 32.

(** ** [BTreeLeaf::locate] *)

Section Locate.
Context {K : Type} (Cmp : K -> K -> bool).

(** [std::find_if(first, last, p) - first] *)
Fixpoint find_if (p : K -> bool) (keys : list K) : nat :=
  match keys with
  | [] => 0%nat
  | k :: rest => if p k then 0%nat else S (find_if p rest)
  end.

Definition locate_keys (keys : list K) (key : K) : nat :=
  find_if (fun k => negb (Cmp k key)) keys.
End Locate.

(** ** Nodes *)

(** The key type: [K = int]. *)
Abbreviation K := Z (only parsing).
Definition Cmp (a b : K) : bool := a <? b.

#[local] Unset Elimination Schemes.
Inductive node (V : Type) : Type :=
| BTreeLeaf (slots : list (K * V)) (size : Z)
| BTreeNode (slots : list (K * V)) (size : Z) (children : list (node V)).
#[local] Set Elimination Schemes.
Arguments BTreeLeaf {V} slots size.
Arguments BTreeNode {V} slots size children.

Section Nodes.
Context {V : Type}.
Abbreviation node := (node V).

Definition isLeaf (n : node) : bool :=
  match n with BTreeLeaf _ _ => true | BTreeNode _ _ _ => false end.

Definition slots (n : node) : list (K * V) :=
  match n with BTreeLeaf s _ | BTreeNode s _ _ => s end.

Definition keys (n : node) : list K := (slots n).*1.

Definition len (n : node) : nat := length (slots n).

Definition size_of (n : node) : Z :=
  match n with BTreeLeaf _ z | BTreeNode _ z _ => z end.

Definition kids (n : node) : list node :=
  match n with BTreeLeaf _ _ => [] | BTreeNode _ _ c => c end.

(** [BTreeNodePtr::children()], with its [assert(!isLeaf())] *)
Definition children (n : node) : outcome (list node) :=
  match n with
  | BTreeLeaf _ _ => Fail AssertionFailed
  | BTreeNode _ _ c => Ok c
  end.

Definition child (n : node) (i : nat) : outcome node :=
  c ← children n; at_index c i.

Definition set_slots (n : node) (s : list (K * V)) : node :=
  match n with
  | BTreeLeaf _ z => BTreeLeaf s z
  | BTreeNode _ z c => BTreeNode s z c
  end.

Definition set_size (n : node) (z : Z) : node :=
  match n with
  | BTreeLeaf s _ => BTreeLeaf s z
  | BTreeNode s _ c => BTreeNode s z c
  end.

Definition set_kids (n : node) (c : list node) : node :=
  match n with
  | BTreeLeaf s z => BTreeLeaf s z
  | BTreeNode s z _ => BTreeNode s z c
  end.

Definition set_child (n : node) (i : nat) (c : node) : node :=
  set_kids n (<[i:=c]> (kids n)).

Definition locate (n : node) (key : K) : nat := locate_keys Cmp (keys n) key.

Fixpoint height (n : node) : nat :=
  match n with
  | BTreeLeaf _ _ => 0%nat
  | BTreeNode _ _ c => S (foldr (fun x h => Nat.max (height x) h) 0%nat c)
  end.

(** The in-order walk of the slots of a subtree. *)
Fixpoint interleave (subs : list (list (K * V))) (s : list (K * V)) : list (K * V) :=
  match subs, s with
  | [], _ => []
  | c :: _, [] => c
  | c :: subs', x :: s' => c ++ x :: interleave subs' s'
  end.

Fixpoint inorder (n : node) : list (K * V) :=
  match n with
  | BTreeLeaf s _ => s
  | BTreeNode s _ c => interleave (map inorder c) s
  end.
End Nodes.

(** ** The tree operations *)

Section BTree.
Context {V : Type}.
Variable ORDER : nat.
Abbreviation node := (node V).

(** A frame [(p, i)] of a parent chain: the node is [p->children[i]]. *)
Definition frame : Type := node * nat.

(** Write a node back through its parent chain; the result is the root. *)
Fixpoint plug (chain : list frame) (n : node) : node :=
  match chain with
  | [] => n
  | (p, i) :: up => plug up (set_child p i n)
  end.

(** *** splitChild *)

Definition splitChild (parent : node) (idx : nat) : outcome node :=
  c ← child parent idx;
  _ ← assert (len c =? ORDER - 1)%nat;
  let h := (ORDER / 2)%nat in
  (* upper half of the keys, values and children goes to newChild *)
  newChild ←
    match c with
    | BTreeLeaf s _ =>
        Ok (BTreeLeaf (drop h s) (wrap (Z.of_nat (ORDER - 1 - h))))
    | BTreeNode s _ cc =>
        if (length cc <? ORDER)%nat then Fail OutOfBounds
        else
          let moved := take (ORDER - h) (drop h cc) in
          let agg := foldl (fun a x => wrap (a + size_of x)) 0 moved in
          Ok (BTreeNode (drop h s) (wrap (Z.of_nat (ORDER - 1 - h) + agg)) moved)
    end;
  (* middle key and value go into the parent *)
  median ← at_index (slots c) (h - 1);
  if (ORDER - 1 <=? len parent)%nat then Fail OutOfBounds
  else
    let c' :=
      set_size (set_kids (set_slots c (take (h - 1) (slots c))) (take h (kids c)))
               (wrap (size_of c - wrap (size_of newChild + 1))) in
    Ok (set_kids (set_slots parent (insert_at idx median (slots parent)))
                 (insert_at (idx + 1) newChild (<[idx:=c']> (kids parent)))).

(** *** insertNonFull *)

Fixpoint insertNonFull (fuel : nat) (n : node) (key : K) (val : V) : outcome node :=
  match fuel with
  | O => Fail OutOfFuel
  | S fuel' =>
      let idx := locate n key in
      match n with
      | BTreeLeaf s z =>
          if (ORDER - 1 <=? length s)%nat then Fail OutOfBounds
          else Ok (BTreeLeaf (insert_at idx (key, val) s) (wrap (z + 1)))
      | BTreeNode _ _ _ =>
          c ← child n idx;
          '(n1, idx1) ←
            (if (len c =? ORDER - 1)%nat then
               n1 ← splitChild n idx;
               sep ← at_index (keys n1) idx;
               Ok (n1, if key >? sep then (idx + 1)%nat else idx)
             else Ok (n, idx));
          c1 ← child n1 idx1;
          c2 ← insertNonFull fuel' c1 key val;
          let n2 := set_child n1 idx1 c2 in
          Ok (set_size n2 (wrap (size_of n2 + 1)))
      end
  end.

(** *** insert *)

Definition insert (root : node) (key : K) (val : V) : outcome node :=
  if (len root =? ORDER - 1)%nat then
    let newRoot := BTreeNode [] (size_of root) [root] in
    newRoot1 ← splitChild newRoot 0;
    insertNonFull (height newRoot1 + 1) newRoot1 key val
  else insertNonFull (height root + 1) root key val.

(** *** doFind, find *)

(** A cursor: [None] is the invalid cursor; [Some (n, i)] stands at slot
    [i] of node [n]. *)
Definition BTreeCursor : Type := option (node * nat).

Definition found (n : node) (idx : nat) (key : K) : bool :=
  match keys n !! idx with
  | Some k => negb (Cmp key k)
  | None => false
  end.

Fixpoint doFind (fuel : nat) (n : node) (key : K) : outcome BTreeCursor :=
  match fuel with
  | O => Fail OutOfFuel
  | S fuel' =>
      let idx := locate n key in
      if found n idx key then Ok (Some (n, idx))
      else if negb (isLeaf n) then c ← child n idx; doFind fuel' c key
      else Ok None
  end.

Definition find (root : node) (key : K) : outcome BTreeCursor :=
  doFind (height root + 1) root key.

Definition valid (c : BTreeCursor) : bool := bool_decide (is_Some c).

Definition cursor_slot (c : BTreeCursor) : option (K * V) :=
  '(n, i) ← c; slots n !! i.

(** *** merge *)

(** [idx] is an [int] in the source; [fill] passes [idx - 1], which for
    [idx = 0] indexes [children[-1]]: see [fill]. *)
Definition merge (n : node) (idx : nat) : outcome node :=
  c ← child n idx;
  sibling ← child n (idx + 1);
  _ ← assert ((len c <=? ORDER / 2 - 1)%nat && (len sibling <=? ORDER / 2 - 1)%nat);
  (* key and value from the parent, then the sibling's, move to child *)
  sep ← at_index (slots n) idx;
  let s' := slots c ++ sep :: slots sibling in
  (* children move if child is not a leaf *)
  cc' ←
    (if negb (isLeaf c) then
       sc ← children sibling;
       Ok (take (S (len c)) (kids c) ++ take (S (len sibling)) sc)
     else Ok (kids c));
  let c' :=
    set_size (set_kids (set_slots c s') cc')
             (wrap (size_of c + wrap (size_of sibling + 1))) in
  (* the separator and the sibling leave the parent *)
  Ok (set_kids (set_slots n (delete idx (slots n)))
               (delete (idx + 1)%nat (<[idx:=c']> (kids n)))).

(** *** borrowFromPrev, borrowFromNext *)

Definition borrowFromPrev (n : node) (idx : nat) : outcome node :=
  c ← child n idx;
  sibling ← child n (idx - 1);
  if (ORDER - 1 <=? len c)%nat then Fail OutOfBounds
  else
    sep ← at_index (slots n) (idx - 1);
    if (len sibling =? 0)%nat then Fail OutOfBounds
    else
      up ← at_index (slots sibling) (len sibling - 1);
      r ←
        (if negb (isLeaf c) then
           _ ← assert (negb (isLeaf sibling));
           moved ← at_index (kids sibling) (len sibling);
           Ok (moved :: take (S (len c)) (kids c),
               wrap (size_of c + size_of moved),
               wrap (size_of sibling - size_of moved))
         else Ok (kids c, size_of c, size_of sibling));
      let '(cc', csz, ssz) := r in
      let c' := set_size (set_kids (set_slots c (sep :: slots c)) cc') (wrap (csz + 1)) in
      let sibling' :=
        set_size (set_kids (set_slots sibling (take (len sibling - 1) (slots sibling)))
                           (take (len sibling) (kids sibling)))
                 (wrap (ssz - 1)) in
      Ok (set_kids (set_slots n (<[(idx - 1)%nat:=up]> (slots n)))
                   (<[(idx - 1)%nat:=sibling']> (<[idx:=c']> (kids n)))).

Definition borrowFromNext (n : node) (idx : nat) : outcome node :=
  c ← child n idx;
  sibling ← child n (idx + 1);
  if (ORDER - 1 <=? len c)%nat then Fail OutOfBounds
  else
    sep ← at_index (slots n) idx;
    up ← at_index (slots sibling) 0;
    r ←
      (if negb (isLeaf c) then
         _ ← assert (negb (isLeaf sibling));
         moved ← at_index (kids sibling) 0;
         Ok (take (S (len c)) (kids c) ++ [moved],
             wrap (size_of c + size_of moved),
             wrap (size_of sibling - size_of moved))
       else Ok (kids c, size_of c, size_of sibling));
    let '(cc', csz, ssz) := r in
    let c' := set_size (set_kids (set_slots c (slots c ++ [sep])) cc') (wrap (csz + 1)) in
    let sibling' :=
      set_size (set_kids (set_slots sibling (drop 1 (slots sibling)))
                         (drop 1 (kids sibling)))
               (wrap (ssz - 1)) in
    Ok (set_kids (set_slots n (<[idx:=up]> (slots n)))
                 (<[(idx + 1)%nat:=sibling']> (<[idx:=c']> (kids n)))).

(** *** fill *)

Definition fill (n : node) (idx : nat) : outcome node :=
  _ ← child n idx;
  prev_spare ←
    (if (idx =? 0)%nat then Ok false
     else p ← child n (idx - 1); Ok (ORDER / 2 <=? len p)%nat);
  if (prev_spare : bool) then borrowFromPrev n idx
  else
    next_spare ←
      (if (idx =? len n)%nat then Ok false
       else x ← child n (idx + 1); Ok (ORDER / 2 <=? len x)%nat);
    if (next_spare : bool) then borrowFromNext n idx
    else if negb (idx =? len n)%nat then merge n idx
    else if (idx =? 0)%nat then Fail OutOfBounds   (* merge(node, -1) *)
    else merge n (idx - 1).

(** *** getPredecessor, getSuccessor *)

(** The cursor of the source is a pointer to a leaf and a slot index; here
    the leaf comes with the frames between [node] and it, nearest first. *)
Fixpoint descend (pick : node -> nat) (fuel : nat) (cur : node) (acc : list frame)
  : outcome (list frame * node) :=
  match fuel with
  | O => Fail OutOfFuel
  | S fuel' =>
      if isLeaf cur then Ok (acc, cur)
      else c ← child cur (pick cur); descend pick fuel' c ((cur, pick cur) :: acc)
  end.

Definition getPredecessor (n : node) (idx : nat) : outcome (list frame * node * nat) :=
  cur ← at_index (kids n) idx;
  '(below, leaf) ← descend len (height cur + 1) cur [];
  _ ← assert (0 <? len leaf)%nat;
  Ok (below, leaf, (len leaf - 1)%nat).

Definition getSuccessor (n : node) (idx : nat) : outcome (list frame * node * nat) :=
  cur ← at_index (kids n) (idx + 1);
  '(below, leaf) ← descend (fun _ => 0%nat) (height cur + 1) cur [];
  _ ← assert (0 <? len leaf)%nat;
  Ok (below, leaf, 0%nat).

(** *** removeFromLeaf *)

Definition decr_size (f : frame) : frame :=
  (set_size f.1 (wrap (size_of f.1 - 1)), f.2).

(** [chain] is the parent chain of [n]; the result is the root. *)
Definition removeFromLeaf (chain : list frame) (n : node) (idx : nat) : outcome node :=
  _ ← assert (idx <? len n)%nat;
  removed ← at_index (keys n) idx;
  let n1 := set_size (set_slots n (delete idx (slots n))) (wrap (size_of n - 1)) in
  (* size -= 1 up to the root *)
  let chain1 := decr_size <$> chain in
  match chain1 with
  | (parent, i) :: up =>
      if (len n1 <? ORDER / 2)%nat then
        (* node->keys[0]: when the leaf is now empty, slot 0 still holds
           the key that was removed *)
        let key0 := default removed (keys n1 !! 0%nat) in
        let parent1 := set_child parent i n1 in
        let nIdx := locate parent1 key0 in
        _ ← at_index (kids parent1) nIdx;
        _ ← assert (nIdx =? i)%nat;
        parent2 ← fill parent1 nIdx;
        Ok (plug up parent2)
      else Ok (plug chain1 n1)
  | [] => Ok n1
  end.

(** *** removeFromNonLeaf, doRemove *)

Fixpoint doRemove (fuel : nat) (chain : list frame) (n : node) (key : K)
  : outcome (node * bool) :=
  match fuel with
  | O => Fail OutOfFuel
  | S fuel' =>
      let idx := locate n key in
      if found n idx key then
        root ←
          (if isLeaf n then removeFromLeaf chain n idx
           else removeFromNonLeaf fuel' chain n idx);
        Ok (root, true)
      else if isLeaf n then Ok (plug chain n, false)
      else
        let flag := (idx =? len n)%nat in
        c ← child n idx;
        n1 ← (if (len c <? ORDER / 2)%nat then fill n idx else Ok n);
        let idx1 := if flag && (len n1 <? idx)%nat then (idx - 1)%nat else idx in
        c1 ← child n1 idx1;
        doRemove fuel' ((n1, idx1) :: chain) c1 key
  end
with removeFromNonLeaf (fuel : nat) (chain : list frame) (n : node) (idx : nat)
  : outcome node :=
  match fuel with
  | O => Fail OutOfFuel
  | S fuel' =>
      let replace_by (cursor : outcome (list frame * node * nat)) (at_child : nat) :=
        '(below, leaf, i) ← cursor;
        s ← at_index (slots leaf) i;
        let n1 := set_slots n (<[idx:=s]> (slots n)) in
        let chain1 := below ++ (n1, at_child) :: chain in
        if isLeaf leaf then removeFromLeaf chain1 leaf i
        else removeFromNonLeaf fuel' chain1 leaf i in
      left ← at_index (kids n) idx;
      if (ORDER / 2 <=? len left)%nat then
        replace_by (getPredecessor n idx) idx
      else
        right ← at_index (kids n) (idx + 1);
        if (ORDER / 2 <=? len right)%nat then
          replace_by (getSuccessor n idx) (idx + 1)%nat
        else
          key ← at_index (keys n) idx;
          n1 ← merge n idx;
          c ← at_index (kids n1) idx;
          r ← doRemove fuel' ((n1, idx) :: chain) c key;
          Ok r.1
  end.

(** *** remove *)

Definition remove (root : node) (key : K) : outcome (node * bool) :=
  '(root1, ret) ← doRemove (2 * height root + 2) [] root key;
  if negb (isLeaf root1) && (len root1 =? 0)%nat then
    c ← child root1 0;
    Ok (c, ret)
  else Ok (root1, ret).

(** *** doTraverse, traverse *)

(** The [print] flag and [counter] only feed [std::cout] and are left
    out.  [depth] is [0] exactly at the root, where [node->parent] is
    null. *)
Fixpoint walk (rec : node -> Z -> outcome Z) (cc : list node) (s : list (K * V))
    (i : nat) (last agg : Z) : outcome (Z * Z) :=
  match s with
  | [] => Ok (last, agg)
  | (k, _) :: s' =>
      c ← at_index cc i;
      last1 ← rec c last;
      if k <? last1 then throw OrderViolation
      else walk rec cc s' (S i) k (wrap (agg + size_of c))
  end.

(** One turn of the loop over the keys of a leaf. *)
Definition leaf_step (acc : outcome Z) (x : K * V) : outcome Z :=
  last ← acc; if x.1 <? last then throw OrderViolation else Ok x.1.

Fixpoint doTraverse (fuel : nat) (n : node) (depth : nat) (last : Z) : outcome Z :=
  match fuel with
  | O => Fail OutOfFuel
  | S fuel' =>
      if negb (depth =? 0)%nat && (len n <? ORDER / 2 - 1)%nat then throw FillViolation
      else
        match n with
        | BTreeLeaf s _ =>
            foldl leaf_step (Ok last) s
        | BTreeNode s z cc =>
            '(last1, agg) ← walk (fun c l => doTraverse fuel' c (S depth) l) cc s 0 last 0;
            c ← at_index cc (length s);
            last2 ← doTraverse fuel' c (S depth) last1;
            let agg1 := wrap (agg + size_of c) in
            if negb (wrap (agg1 + Z.of_nat (length s)) =? z) then throw SizeMismatch
            else Ok last2
        end
  end.

Definition traverse (root : node) (print : bool) : outcome unit :=
  _ ← doTraverse (height root + 1) root 0 (-1);
  Ok tt.

(** *** getRank, size *)

Fixpoint getRank_from (fuel : nat) (n : node) (key : K) (rank : Z) : outcome Z :=
  match fuel with
  | O => Fail OutOfFuel
  | S fuel' =>
      let idx := locate n key in
      let rank1 := wrap (rank + Z.of_nat idx) in
      let rank2 :=
        if negb (isLeaf n)
        then foldl (fun r c => wrap (r + size_of c)) rank1 (take idx (kids n))
        else rank1 in
      if found n idx key then
        if negb (isLeaf n) then c ← child n idx; Ok (wrap (rank2 + size_of c))
        else Ok rank2
      else if isLeaf n then Ok rank2
      else c ← child n idx; getRank_from fuel' c key rank2
  end.

Definition getRank (root : node) (key : K) : outcome Z :=
  getRank_from (height root + 1) root key 0.

Definition size (root : node) : Z := size_of root.

(** *** destruct, ~BTreeNode, ~IntrusiveBTree *)

(** [BTreeNodePtr::destruct] on a pointer to [n], by what it frees: the
    number of nodes that are [delete]d.  A leaf is deleted alone.
    [~BTreeNode] returns at once when [len == 0]; otherwise its loop
    calls [destruct] on the children [0 .. len], and [destruct] does
    nothing on a null pointer, which is what a missing child is.  The
    destructor of the tree is [root.destruct()]. *)
Fixpoint destruct (n : node) : nat :=
  match n with
  | BTreeLeaf _ _ => 1%nat
  | BTreeNode s _ c =>
      if (length s =? 0)%nat then 1%nat
      else S ((fix loop (i : nat) (c : list node) {struct c} : nat :=
                 match i, c with
                 | S i', x :: c' => (destruct x + loop i' c')%nat
                 | _, _ => 0%nat
                 end) (S (length s)) c)
  end.

(** The empty tree of the constructor: [root(new BTreeLeaf())]. *)
Definition empty : node := BTreeLeaf [] 0.
End BTree.

(** ** The public interface as a machine *)

Inductive op (V : Type) : Type :=
| Insert (key : K) (val : V)
| Find (key : K)
| Remove (key : K)
| Rank (key : K)
| Size
| Traverse (print : bool).
Arguments Insert {V} key val.
Arguments Find {V} key.
Arguments Remove {V} key.
Arguments Rank {V} key.
Arguments Size {V}.
Arguments Traverse {V} print.

Inductive reply (V : Type) : Type :=
| Done                              (* a [void] call returned *)
| Cursor (c : option (node V * nat))
| Removed (b : bool)
| Count (z : Z)
| Raised (e : runtime_error).       (* [traverse] threw *)
Arguments Done {V}.
Arguments Cursor {V} c.
Arguments Removed {V} b.
Arguments Count {V} z.
Arguments Raised {V} e.

Section Machine.
Context {V : Type}.
Variable ORDER : nat.

Definition step (o : op V) (root : node V) : outcome (node V * reply V) :=
  match o with
  | Insert key val => root' ← insert ORDER root key val; Ok (root', Done)
  | Find key => c ← find root key; Ok (root, Cursor c)
  | Remove key => r ← remove ORDER root key; Ok (r.1, Removed r.2)
  | Rank key => z ← getRank root key; Ok (root, Count z)
  | Size => Ok (root, Count (size root))
  | Traverse print =>
      match traverse ORDER root print with
      | Ok _ => Ok (root, Done)
      | Fail (Thrown e) => Ok (root, Raised e)
      | Fail e => Fail e
      end
  end.

Fixpoint run (ops : list (op V)) (root : node V) : outcome (node V * list (reply V)) :=
  match ops with
  | [] => Ok (root, [])
  | o :: rest =>
      r ← step o root;
      r' ← run rest r.1;
      Ok (r'.1, r.2 :: r'.2)
  end.

(** The trees a program can build: those some sequence of calls produces
    from the empty tree. *)
Definition reachable (t : node V) : Prop :=
  exists ops replies, run ops empty = Ok (t, replies).
End Machine.


(** ** Specification vocabulary *)

(** [m] returns a value satisfying [P]. *)
Definition returns {A : Type} (m : outcome A) (P : A -> Prop) : Prop :=
  exists a, m = Ok a /\ P a.

(** [m] either returns a value satisfying [P] or stops the program (a
    failed [assert], an out-of-bounds access, an exception); the bound on
    the recursion depth that the embedding adds is never what stops it. *)
Definition completes {A : Type} (m : outcome A) (P : A -> Prop) : Prop :=
  match m with
  | Ok a => P a
  | Fail OutOfFuel => False
  | Fail _ => True
  end.

(** Strictly increasing keys, all above [prev]. *)
Fixpoint ascending (prev : Z) (l : list Z) : bool :=
  match l with
  | [] => true
  | k :: l' => (prev <? k) && ascending k l'
  end.

Definition strictly_sorted (l : list Z) : bool :=
  match l with
  | [] => true
  | k :: l' => ascending k l'
  end.

(** No key is less than the one before it, starting from [prev]. *)
Fixpoint nondescending (prev : Z) (l : list Z) : bool :=
  match l with
  | [] => true
  | k :: l' => (prev <=? k) && nondescending k l'
  end.

(** Equality of [unsigned] values. *)
Inductive eqw (a b : Z) : Prop :=
| eqw_of (H : wrap a = wrap b).

(** The last key of a walk that starts with [prev]. *)
Definition last_of (prev : Z) (l : list Z) : Z := foldl (fun _ k => k) prev l.

Section Spec.
Context {V : Type}.
Variable ORDER : nat.

(** The largest height among the nodes of a list. *)
Definition hmax (c : list (node V)) : nat :=
  foldr (fun x h => Nat.max (height x) h) 0%nat c.

(** The in-order walk of children [c] and slots [s] up to the shorter of
    the two, each child followed by a slot. *)
Fixpoint weave (c : list (node V)) (s : list (K * V)) : list (K * V) :=
  match c, s with
  | x :: c', y :: s' => inorder x ++ y :: weave c' s'
  | _, _ => []
  end.

(** The same with each slot followed by a child. *)
Fixpoint weave_after (s : list (K * V)) (c : list (node V)) : list (K * V) :=
  match s, c with
  | y :: s', x :: c' => y :: inorder x ++ weave_after s' c'
  | _, _ => []
  end.

(** What the in-order walk of [n] visits before and after its child [i]. *)
Definition before (n : node V) (i : nat) : list (K * V) :=
  weave (take i (kids n)) (take i (slots n)).
Definition after (n : node V) (i : nat) : list (K * V) :=
  weave_after (drop i (slots n)) (drop (S i) (kids n)).

(** What the in-order walk of the tree visits before and after the node
    that has parent chain [chain]. *)
Fixpoint before_chain (chain : list (node V * nat)) : list (K * V) :=
  match chain with
  | [] => []
  | (p, i) :: up => before_chain up ++ before p i
  end.
Fixpoint after_chain (chain : list (node V * nat)) : list (K * V) :=
  match chain with
  | [] => []
  | (p, i) :: up => after p i ++ after_chain up
  end.

(** Every frame of a chain is an internal node and an index of one of
    its children. *)
Definition good_chain (chain : list (node V * nat)) : Prop :=
  Forall (fun f => isLeaf f.1 = false /\ (f.2 < length (kids f.1))%nat) chain.

(** [P] holds at every node of the subtree. *)
Fixpoint every (P : node V -> bool) (n : node V) : bool :=
  P n && match n with
         | BTreeLeaf _ _ => true
         | BTreeNode _ _ c => forallb (every P) c
         end.

(** [P] holds at every node except the root. *)
Definition every_below (P : node V -> bool) (root : node V) : bool :=
  forallb (every P) (kids root).

(** A tree the program can hold in memory: an internal node has one more
    child than it has keys. *)
Definition realizable (n : node V) : bool :=
  every (fun x => isLeaf x || (length (kids x) =? S (len x))%nat) n.

Definition sum_sizes (c : list (node V)) : Z :=
  foldr (fun x a => size_of x + a) 0 c.

(** [size == len + sum of children's size], in [unsigned] arithmetic;
    for a leaf, [size == len]. *)
Definition size_ok (n : node V) : bool :=
  size_of n =? wrap (Z.of_nat (len n) + sum_sizes (kids n)).

(** An internal node has [len + 1] children, all of the same height. *)
Definition shape_ok (n : node V) : bool :=
  isLeaf n ||
  ((length (kids n) =? S (len n))%nat &&
   forallb (fun c => (S (height c) =? height n)%nat) (kids n)).

(** The arrays hold at most [ORDER - 1] slots. *)
Definition cap_ok (n : node V) : bool := (len n <=? ORDER - 1)%nat.

(** The structural invariant of the representation. *)
Definition wf (n : node V) : bool :=
  every (fun x => cap_ok x && shape_ok x && size_ok x) n.

(** Minimum fill as the code has it: [len >= ORDER / 2 - 1] with integer
    division, for every node but the root. *)
Definition fill_ok (n : node V) : bool := (ORDER / 2 - 1 <=? len n)%nat.
Definition min_fill (root : node V) : bool := every_below fill_ok root.

(** Minimum fill with the ceiling: [len >= ceil(ORDER / 2) - 1]. *)
Definition ceil_fill_ok (n : node V) : bool := ((ORDER + 1) / 2 - 1 <=? len n)%nat.

Definition keys_of (n : node V) : list K := (inorder n).*1.

(** The number of stored keys strictly less than [key]. *)
Definition count_less (n : node V) (key : K) : Z :=
  Z.of_nat (length (filter (fun k => k < key) (keys_of n))).

(** The number of live keys. *)
Definition count (n : node V) : Z := Z.of_nat (length (inorder n)).

(** What [traverse] checks: order from the initial [last = -1], minimum
    fill below the root, and the size fields of internal nodes. *)
Definition order_checked (root : node V) : bool := nondescending (-1) (keys_of root).
Definition fill_checked (root : node V) : bool := min_fill root.
Definition size_checked (root : node V) : bool :=
  every (fun x => isLeaf x || size_ok x) root.

(** What [doTraverse] has established about the subtree [n] when it
    returns, and what has failed when it throws. *)
Definition checked (depth : nat) (last : Z) (n : node V) (r : outcome Z) : Prop :=
  match r with
  | Ok l =>
      nondescending last (keys_of n) = true /\ l = last_of last (keys_of n) /\
      ((depth =? 0)%nat || fill_ok n) && every_below fill_ok n = true /\
      size_checked n = true
  | Fail (Thrown OrderViolation) => nondescending last (keys_of n) = false
  | Fail (Thrown FillViolation) =>
      ((depth =? 0)%nat || fill_ok n) && every_below fill_ok n = false
  | Fail (Thrown SizeMismatch) => size_checked n = false
  | Fail _ => False
  end.

(** The number of keys in the subtrees of a list of nodes. *)
Definition counts (c : list (node V)) : Z := foldr (fun x a => count x + a) 0 c.

(** The size fields are right at every node. *)
Definition sized (n : node V) : bool := every size_ok n.

(** Slots in key order, without and with equal keys. *)
Definition slot_lt (a b : K * V) : Prop := a.1 < b.1.
Definition slot_le (a b : K * V) : Prop := a.1 <= b.1.

(** The cursor [c] answers [find(key)] on a tree with in-order walk [l]:
    it stands on a slot of the walk with that key, or it is invalid and
    the key is not stored. *)
Definition answers (l : list (K * V)) (key : K) (c : option (node V * nat)) : Prop :=
  match cursor_slot c with
  | Some s => s.1 = key /\ s ∈ l
  | None => c = None /\ key ∉ l.*1
  end.

(** [n'] is [n] after [insertNonFull(n, key, val)]: the entry is added to
    the in-order walk, nothing is taken away, and the invariant, the
    height, the size count and the minimum fill are kept. *)
Definition inserted (key : K) (val : V) (n n' : node V) : Prop :=
  wf n' = true /\ height n' = height n /\ isLeaf n' = isLeaf n /\
  eqw (size_of n') (size_of n + 1) /\
  (len n <= len n' <= len n + 1)%nat /\
  (every_below fill_ok n = true -> every_below fill_ok n' = true) /\
  exists l1 l2,
    inorder n = l1 ++ l2 /\ inorder n' = l1 ++ (key, val) :: l2 /\
    (StronglySorted slot_le (inorder n) ->
     Forall (fun x => x.1 < key) l1 /\ Forall (fun x => key <= x.1) l2).

(** [l'] is [l] without one entry that has the key [key]. *)
Definition took (key : K) (l l' : list (K * V)) : Prop :=
  exists l1 v l2, l = l1 ++ (key, v) :: l2 /\ l' = l1 ++ l2.

(** [r] is what [doRemove(n, key)] leaves, [n] being reached from the
    root along [chain]: the new root satisfies the invariant; and when the
    walk of [n] is in key order, the flag tells whether [key] was there,
    and the walk of the new root is the old one without one entry of that
    key, or the old one. *)
Definition removed_from (chain : list (node V * nat)) (n : node V) (key : K)
    (r : node V * bool) : Prop :=
  wf r.1 = true /\
  (StronglySorted slot_le (inorder n) ->
   if r.2 then
     exists l', took key (inorder n) l' /\
                inorder r.1 = before_chain chain ++ l' ++ after_chain chain
   else
     (key ∉ (inorder n).*1) /\
     inorder r.1 = before_chain chain ++ inorder n ++ after_chain chain).

(** [m] is not stopped by the bound on the recursion depth. *)
Definition fuelless {A : Type} (m : outcome A) : Prop := m <> Fail OutOfFuel.

(** No key is less than the one before it; equal keys may follow each
    other. *)
Definition in_order (l : list Z) : bool :=
  match l with
  | [] => true
  | k :: l' => nondescending k l'
  end.

(** The representation invariant together with the order of the keys:
    the in-order walk is non-decreasing. *)
Definition search_tree (n : node V) : bool := wf n && in_order (keys_of n).

(** The call is an [insert] of a key that is at least [lo]. *)
Definition insert_from (lo : Z) (o : op V) : bool :=
  match o with
  | Insert key _ => lo <=? key
  | _ => false
  end.

(** The number of nodes of a subtree: what the program has allocated for
    it. *)
Fixpoint nodes (n : node V) : nat :=
  match n with
  | BTreeLeaf _ _ => 1%nat
  | BTreeNode _ _ c => S (foldr (fun x a => (nodes x + a)%nat) 0%nat c)
  end.

(** An internal node holds at least one key. *)
Definition keyed (n : node V) : bool := isLeaf n || (0 <? len n)%nat.

Definition is_remove (o : op V) : bool :=
  match o with
  | Remove _ => true
  | _ => false
  end.

(** The calls that are [const] in the source. *)
Definition is_query (o : op V) : bool :=
  match o with
  | Find _ | Rank _ | Size => true
  | Insert _ _ | Remove _ | Traverse _ => false
  end.

(** The replies of the calls of [ops] that are not queries. *)
Fixpoint others (ops : list (op V)) (replies : list (reply V)) : list (reply V) :=
  match ops, replies with
  | o :: ops', r :: replies' =>
      if is_query o then others ops' replies' else r :: others ops' replies'
  | _, _ => []
  end.
End Spec.

(** ** Readings of the specification that the code does not meet

    Each is the sentence of the specification as it stands; the theorems
    below refute them and prove what holds instead. *)

Section Readings.
Variable ORDER : nat.

(** "insert(key, value) inserts or overwrites": inserting a key that is
    present leaves one entry for it, with the new value, and the same
    size. *)
Definition insert_overwrites : Prop :=
  forall (t : node Z) (k : K) (v v' : Z),
    reachable ORDER t -> (k, v) ∈ inorder t ->
    returns (insert ORDER t k v') (fun t' =>
      length (filter (fun s => s.1 = k) (inorder t')) = 1%nat /\
      returns (find t' k) (fun c => cursor_slot c = Some (k, v')) /\
      size t' = size t).

(** "rank(key) returns the number of keys strictly less than key". *)
Definition rank_counts_smaller_keys : Prop :=
  forall (t : node Z) (k : K),
    reachable ORDER t -> getRank t k = Ok (count_less t k).

(** "every node except the root has length >= ceil(ORDER / 2) - 1". *)
Definition ceil_min_fill : Prop :=
  forall t : node Z,
    reachable ORDER t -> every_below (ceil_fill_ok ORDER) t = true.

(** "after remove(k), find(k) is invalid and a second remove(k) returns
    false". *)
Definition removed_key_is_gone : Prop :=
  forall (t t' : node Z) (k : K) (b : bool),
    reachable ORDER t -> remove ORDER t k = Ok (t', b) ->
    find t' k = Ok None /\
    exists t'', remove ORDER t' k = Ok (t'', false).

(** "traverse(validate) raises exactly when validate is requested and an
    invariant is broken", the invariants being strictly increasing keys,
    minimum fill and size consistency. *)
Definition stated_invariants (t : node Z) : bool :=
  strictly_sorted (keys_of t) && every_below (ceil_fill_ok ORDER) t && size_checked t.

Definition traverse_raises_iff_broken : Prop :=
  forall (t : node Z) (validate : bool),
    reachable ORDER t ->
    (exists e, traverse ORDER t validate = Fail (Thrown e)) <->
    (validate = true /\ stated_invariants t = false).

End Readings.

(** ** Reasoning about [outcome] *)

Lemma bind_Ok {A B : Type} (m : outcome A) (f : A -> outcome B) (b : B) :
  m ≫= f = Ok b <-> exists a, m = Ok a /\ f a = Ok b.
Proof.
  destruct m as [a|e]; simpl.
  - split; [eauto|]. by intros (a' & [= <-] & ?).
  - split; [discriminate|]. by intros (a' & ? & ?).
Qed.

Lemma assert_Ok (b : bool) (u : unit) : assert b = Ok u <-> b = true.
Proof. destruct b, u; simpl; split; congruence. Qed.

Lemma at_index_Ok {A : Type} (l : list A) (i : nat) (x : A) :
  at_index l i = Ok x <-> l !! i = Some x.
Proof. unfold at_index. destruct (l !! i); split; congruence. Qed.

Lemma children_Ok {V : Type} (n : node V) (c : list (node V)) :
  children n = Ok c <-> isLeaf n = false /\ kids n = c.
Proof. destruct n; simpl; split; try intros [? ?]; try congruence; split; congruence. Qed.

Lemma child_Ok {V : Type} (n : node V) (i : nat) (c : node V) :
  child n i = Ok c <-> isLeaf n = false /\ kids n !! i = Some c.
Proof.
  unfold child. rewrite bind_Ok. split.
  - intros (cs & Hc & Hi). apply children_Ok in Hc as [? <-].
    by apply at_index_Ok in Hi.
  - intros [Hl Hi]. exists (kids n). split; [by apply children_Ok|by apply at_index_Ok].
Qed.

(** Take apart a hypothesis [m = Ok x] along the binds of [m]. *)
Ltac inv_ok H :=
  lazymatch type of H with
  | Ok _ = Ok _ => injection H as H; try subst
  | Fail _ = Ok _ => discriminate H
  | mbind _ _ = Ok _ =>
      let a := fresh "a" in
      let H1 := fresh H in
      apply bind_Ok in H as (a & H1 & H); inv_ok H1; inv_ok H
  | assert _ = Ok _ => apply assert_Ok in H
  | at_index _ _ = Ok _ => apply at_index_Ok in H
  | child _ _ = Ok _ => apply child_Ok in H as [? H]
  | children _ = Ok _ => apply children_Ok in H as [? H]
  | (if ?b then _ else _) = Ok _ =>
      let Hb := fresh "Hb" in destruct b eqn:Hb; inv_ok H
  | (let '(_, _) := ?p in _) = Ok _ => destruct p; inv_ok H
  | _ => idtac
  end.

Lemma find_if_spec {A : Type} (p : A -> bool) (l : list A) :
  (find_if p l <= length l)%nat /\
  (forall j x, (j < find_if p l)%nat -> l !! j = Some x -> p x = false) /\
  (forall x, l !! find_if p l = Some x -> p x = true).
Proof.
  induction l as [|a l (IH1 & IH2 & IH3)]; simpl.
  - split; [lia|]. split; intros; discriminate || lia.
  - destruct (p a) eqn:Hp.
    + split; [lia|]. split; [intros; lia|]. intros x [= <-]. done.
    + split; [lia|]. split.
      * intros [|j] x Hj Hx; simpl in Hx; [by inversion Hx; subst|].
        apply (IH2 j); [lia|done].
      * intros x Hx. simpl in Hx. auto.
Qed.

(** ** Claims about single calls and concrete scenarios *)

(** The position that [locate] returns, by the keys around it. *)
Lemma locate_bounds {V : Type} (n : node V) (key : K) :
  (locate n key <= len n)%nat /\
  (forall j k, (j < locate n key)%nat -> keys n !! j = Some k -> k < key) /\
  (forall k, keys n !! locate n key = Some k -> key <= k) /\
  (locate n key = len n -> forall k, k ∈ keys n -> k < key).
Proof.
  unfold locate, locate_keys.
  destruct (find_if_spec (fun k => negb (Cmp k key)) (keys n)) as (H1 & H2 & H3).
  assert (Hlen : length (keys n) = len n) by apply length_fmap.
  rewrite Hlen in H1.
  assert (Hlt : forall j k, (j < find_if (fun k => negb (Cmp k key)) (keys n))%nat ->
                            keys n !! j = Some k -> k < key).
  { intros j k Hj Hk. specialize (H2 j k Hj Hk). unfold Cmp in H2.
    apply negb_false_iff, Z.ltb_lt in H2. done. }
  repeat split; auto.
  - intros k Hk. specialize (H3 k Hk). unfold Cmp in H3.
    apply negb_true_iff, Z.ltb_ge in H3. done.
  - intros Heq k Hk. apply list_elem_of_lookup in Hk as [j Hj].
    apply (Hlt j); auto. rewrite Heq, <- Hlen. eapply lookup_lt_Some; eauto.
Qed.

(** C8. [locate(node, key)] is the lower-bound position: it is at most
    [len]; every key before it is less than [key]; the key at it, if there
    is one, is not less than [key].  So it is the smallest index [i] with
    [keys[i] >= key], and it is [len] when there is no such index. *)
Theorem locate_lower_bound {V : Type} (n : node V) (key : K) :
  (locate n key <= len n)%nat /\
  (forall j k, (j < locate n key)%nat -> keys n !! j = Some k -> k < key) /\
  (forall k, keys n !! locate n key = Some k -> key <= k) /\
  (locate n key = len n -> forall k, k ∈ keys n -> k < key).
Proof. exact (locate_bounds n key). Qed.

(** C7. ORDER = 3: after inserting 1, 2, 3, 4, 5 into the empty tree,
    [traverse] does not raise, [size()] is 5 and [rank(3)] is 2; then
    [remove(3)] returns true, [find(3)] is invalid and [size()] is 4. *)
Theorem order3_scenario :
  exists t,
    run (V:=Z) 3
      [Insert 1 10; Insert 2 20; Insert 3 30; Insert 4 40; Insert 5 50;
       Traverse false; Size; Rank 3; Remove 3; Find 3; Size] empty
    = Ok (t, [Done; Done; Done; Done; Done;
              Done; Count 5; Count 2; Removed true; Cursor None; Count 4]).
Proof. eexists. vm_compute. reflexivity. Qed.

(** *** Queries *)

Lemma step_query {V : Type} (ORDER : nat) (o : op V) (t t' : node V) (r : reply V) :
  is_query o = true -> step ORDER o t = Ok (t', r) -> t' = t.
Proof.
  destruct o; simpl; try discriminate; intros _ H; inv_ok H; done.
Qed.

(** C10. [find], [rank] and [size] are read-only: a run with such calls
    in it ends in the same tree, and gives the same replies to the other
    calls, as the run without them.  On the empty tree [find] is invalid,
    [rank] is 0 and [size] is 0. *)
Theorem queries_read_only {V : Type} (ORDER : nat) (ops : list (op V))
    (t t' : node V) (replies : list (reply V)) :
  run ORDER ops t = Ok (t', replies) ->
  run ORDER (filter (fun o => is_query o = false) ops) t = Ok (t', others ops replies) /\
  (Forall (fun o => is_query o = true) ops -> t' = t) /\
  (forall key, run (V:=V) ORDER [Find key; Rank key; Size] empty
               = Ok (empty, [Cursor None; Count 0; Count 0])).
Proof.
  intros Hrun. split; [|split].
  - revert t t' replies Hrun.
    induction ops as [|o ops IH]; intros t t' replies Hrun.
    + simpl in Hrun. inv_ok Hrun. done.
    + simpl in Hrun. inv_ok Hrun. destruct a as [t1 r], a0 as [t2 rs]; simpl in *.
      rewrite filter_cons. destruct (is_query o) eqn:Hq.
      * rewrite decide_False by done.
        apply (step_query _ _ _ _ _ Hq) in Hrun0 as ->. by apply IH.
      * rewrite decide_True by done. simpl. rewrite Hrun0. simpl.
        rewrite (IH _ _ _ Hrun1). done.
  - revert t t' replies Hrun.
    induction ops as [|o ops IH]; intros t t' replies Hrun Hall.
    + simpl in Hrun. by inv_ok Hrun.
    + simpl in Hrun. inv_ok Hrun. destruct a as [t1 r], a0 as [t2 rs]; simpl in *.
      apply Forall_cons in Hall as [Hq Hall].
      apply (step_query _ _ _ _ _ Hq) in Hrun0 as ->. eauto.
  - intros key. reflexivity.
Qed.

Lemma queries_read_only_witness :
  run (V:=Z) 4 (filter (fun o => is_query o = false)
                  [Insert 1 10; Find 1; Rank 7; Insert 2 20; Size; Remove 1]) empty
  = Ok (BTreeLeaf [(2, 20)] 1, [Done; Done; Removed true]).
Proof.
  apply (queries_read_only 4
           [Insert 1 10; Find 1; Rank 7; Insert 2 20; Size; Remove 1] empty
           (BTreeLeaf [(2, 20)] 1)
           [Done; Cursor (Some (BTreeLeaf [(1, 10)] 1, 0%nat)); Count 1;
            Done; Count 2; Removed true]).
  vm_compute. reflexivity.
Defined.

(** ** Where the code departs from the specification *)

Ltac by_run ops := exists ops; eexists; vm_compute; reflexivity.

(** C1, as stated, fails.  ORDER = 4, tree built by inserting 1, 2, 3, 4:
    [insert(2, 99)] adds a second entry for key 2, [find(2)] still shows
    the old value 20, and the size grows from 4 to 5. *)
Lemma insert_overwrites_fails : ~ insert_overwrites 4.
Proof.
  intros H.
  destruct (H (BTreeNode [(2, 20)] 4
                 [BTreeLeaf [(1, 10)] 1; BTreeLeaf [(3, 30); (4, 40)] 2])
              2 20 99) as (t' & Hins & Hone & _).
  - by_run [Insert 1 10; Insert 2 20; Insert 3 30; Insert (V:=Z) 4 40].
  - vm_compute. apply list_elem_of_In. simpl. tauto.
  - vm_compute in Hins. injection Hins as <-. vm_compute in Hone. discriminate.
Qed.

(** C2, as stated, fails.  ORDER = 4, after inserting 1, 2, 3, 4 and 2
    again: [rank(2)] is 2, but only one stored key is less than 2. *)
Lemma rank_counts_smaller_keys_fails : ~ rank_counts_smaller_keys 4.
Proof.
  intros H.
  specialize (H (BTreeNode [(2, 20)] 5
                   [BTreeLeaf [(1, 10); (2, 99)] 2; BTreeLeaf [(3, 30); (4, 40)] 2]) 2).
  assert (Hr : reachable (V:=Z) 4
                 (BTreeNode [(2, 20)] 5
                    [BTreeLeaf [(1, 10); (2, 99)] 2; BTreeLeaf [(3, 30); (4, 40)] 2])).
  { by_run [Insert 1 10; Insert 2 20; Insert 3 30; Insert 4 40; Insert (V:=Z) 2 99]. }
  specialize (H Hr). vm_compute in H. discriminate.
Qed.

(** C4, as stated, fails.  ORDER = 3, after inserting 1, 2, 3 the root has
    an empty leaf as a child, while ceil(3 / 2) - 1 = 1. *)
Lemma ceil_min_fill_fails : ~ ceil_min_fill 3.
Proof.
  intros H.
  specialize (H (BTreeNode [(1, 10)] 3 [BTreeLeaf [] 0; BTreeLeaf [(2, 20); (3, 30)] 2])).
  assert (Hr : reachable (V:=Z) 3
                 (BTreeNode [(1, 10)] 3 [BTreeLeaf [] 0; BTreeLeaf [(2, 20); (3, 30)] 2])).
  { by_run [Insert 1 10; Insert 2 20; Insert (V:=Z) 3 30]. }
  specialize (H Hr). vm_compute in H. discriminate.
Qed.

(** C5, as stated, fails.  ORDER = 4, after inserting key 1 twice:
    [remove(1)] returns true and [find(1)] is still valid. *)
Lemma removed_key_is_gone_fails : ~ removed_key_is_gone 4.
Proof.
  intros H.
  destruct (H (BTreeLeaf [(1, 11); (1, 10)] 2) (BTreeLeaf [(1, 10)] 1) 1 true) as [Hf _].
  - by_run [Insert 1 10; Insert (V:=Z) 1 11].
  - vm_compute. reflexivity.
  - vm_compute in Hf. discriminate.
Qed.

(** C6, as stated, fails.  ORDER = 4, after inserting key 5 twice the keys
    are not strictly increasing, and [traverse] returns normally. *)
Lemma traverse_raises_iff_broken_fails : ~ traverse_raises_iff_broken 4.
Proof.
  intros H.
  destruct (H (BTreeLeaf [(5, 11); (5, 10)] 2) true) as [_ H2].
  - by_run [Insert 5 10; Insert (V:=Z) 5 11].
  - destruct H2 as [e He].
    + split; vm_compute; reflexivity.
    + vm_compute in He. discriminate.
Qed.


(** The removal path that leaves a node under-filled, at an even ORDER:
    with ORDER = 4, after inserting 1 .. 21, [remove(8)] takes the
    successor from a leaf two levels down, and the merge that follows
    leaves that leaf's parent with no key; the validator raises. *)
Lemma remove_underfills_order4 :
  exists t,
    run (V:=Z) 4 (map (fun k => Insert k 0) (map Z.of_nat (seq 1 21)) ++ [Remove 8; Traverse false]) empty
    = Ok (t, replicate 21 Done ++ [Removed true; Raised FillViolation]) /\
    min_fill 4 t = false.
Proof. eexists. split; vm_compute; reflexivity. Qed.

(** A removal that stops the program, at ORDER = 3: after inserting 1, 20,
    17, 2 the root holds 1 and 17 over the leaves [], [2], [20];
    [remove(1)] puts the successor 2 in the root and empties its leaf,
    whose [keys[0]] still reads 2; [locate] then finds child 0, not the
    leaf, and the [assert] in [removeFromLeaf] fails. *)
Lemma remove_aborts_order3 :
  run (V:=Z) 3 [Insert 1 0; Insert 20 0; Insert 17 0; Insert 2 0; Remove 1] empty
  = Fail AssertionFailed.
Proof. vm_compute. reflexivity. Qed.

(** ** Trees: induction, heights, the invariant *)

#[global] Arguments Nat.div : simpl never.
#[global] Arguments Nat.modulo : simpl never.
#[global] Arguments wrap : simpl never.
#[global] Arguments Z.of_nat : simpl never.
#[global] Arguments Z.sub : simpl never.
#[global] Arguments Z.add : simpl never.

Lemma node_ind {V : Type} (P : node V -> Prop) :
  (forall s z, P (BTreeLeaf s z)) ->
  (forall s z c, Forall P c -> P (BTreeNode s z c)) ->
  forall n, P n.
Proof.
  intros Hleaf Hnode. fix IH 1. intros [s z|s z c].
  - apply Hleaf.
  - apply Hnode. induction c as [|x c IHc]; constructor; [apply IH|apply IHc].
Qed.

Lemma forallb_Forall {A : Type} (f : A -> bool) (l : list A) :
  forallb f l = true <-> Forall (fun x => f x = true) l.
Proof.
  induction l as [|a l IH]; simpl.
  - split; [constructor|done].
  - rewrite andb_true_iff, IH. split.
    + intros [? ?]. by constructor.
    + intros H. by inversion H.
Qed.

Lemma height_node {V : Type} (s : list (K * V)) z c :
  height (BTreeNode s z c) = S (hmax c).
Proof. reflexivity. Qed.

Lemma hmax_ge {V : Type} (c : list (node V)) x :
  x ∈ c -> (height x <= hmax c)%nat.
Proof.
  induction c as [|y c IH]; intros Hx.
  - by apply not_elem_of_nil in Hx.
  - simpl. apply elem_of_cons in Hx as [->|Hx]; [lia|]. specialize (IH Hx). lia.
Qed.

Lemma hmax_all {V : Type} (c : list (node V)) (h : nat) :
  c <> [] -> Forall (fun x => height x = h) c -> hmax c = h.
Proof.
  intros Hne Hall. induction Hall as [|x c Hx Hall IH]; [done|].
  simpl. destruct c as [|y c]; simpl in *; [lia|].
  rewrite IH by done. lia.
Qed.

Lemma height_child {V : Type} (n c : node V) (i : nat) :
  kids n !! i = Some c -> (height c < height n)%nat.
Proof.
  destruct n as [s z|s z cs]; simpl; [done|]. intros Hi.
  apply list_elem_of_lookup_2 in Hi. apply hmax_ge in Hi. unfold hmax in Hi. lia.
Qed.

(** *** Arithmetic modulo 2^32 *)

Lemma eqw_iff (a b : Z) : eqw a b <-> wrap a = wrap b.
Proof. split; [by intros []|by constructor]. Qed.

Lemma eqw_wrap_eq (a b : Z) : eqw a b -> wrap a = wrap b.
Proof. by intros []. Qed.

Lemma eq_eqw (a b : Z) : a = b -> eqw a b.
Proof. intros ->. by constructor. Qed.

#[global] Instance eqw_equiv : Equivalence eqw.
Proof.
  split.
  - by intros x.
  - intros x y []. by constructor.
  - intros x y z [] []. constructor. congruence.
Qed.

#[global] Instance eqw_add : Proper (eqw ==> eqw ==> eqw) Z.add.
Proof.
  intros a a' [Ha] b b' [Hb]. constructor. unfold wrap in *.
  rewrite (Z.add_mod a), (Z.add_mod a') by done. by rewrite Ha, Hb.
Qed.

#[global] Instance eqw_sub : Proper (eqw ==> eqw ==> eqw) Z.sub.
Proof.
  intros a a' [Ha] b b' [Hb]. constructor. unfold wrap in *.
  rewrite (Zminus_mod a), (Zminus_mod a'). by rewrite Ha, Hb.
Qed.

#[global] Instance eqw_wrap : Proper (eqw ==> eq) wrap.
Proof. by intros a b []. Qed.

Lemma wrap_eqw (a : Z) : eqw (wrap a) a.
Proof. constructor. unfold wrap. apply Z.mod_mod. done. Qed.

Lemma wrap_wrap (a : Z) : wrap (wrap a) = wrap a.
Proof. apply eqw_wrap_eq, wrap_eqw. Qed.

Lemma wrap_small (a : Z) : 0 <= a < 2 ^ 32 -> wrap a = a.
Proof. apply Z.mod_small. Qed.

Lemma wrap_range (a : Z) : 0 <= wrap a < 2 ^ 32.
Proof. apply Z.mod_pos_bound. done. Qed.

(** Prove [eqw a b] or [wrap a = wrap b]: drop the inner wraps, then
    linear arithmetic. *)
Ltac eqw_lia := rewrite ?wrap_eqw; apply eq_eqw; try lia.
Ltac wrap_solve := apply eqw_wrap_eq; eqw_lia.

(** *** The invariant, node by node *)

Section Wf.
Context {V : Type}.
Variable ORDER : nat.

Lemma sum_sizes_app (a b : list (node V)) :
  sum_sizes (a ++ b) = sum_sizes a + sum_sizes b.
Proof. induction a as [|x a IH]; simpl; [done|]. unfold sum_sizes in *. lia. Qed.

Lemma sum_sizes_cons (x : node V) (a : list (node V)) :
  sum_sizes (x :: a) = size_of x + sum_sizes a.
Proof. reflexivity. Qed.

Lemma foldl_wrap_sum (c : list (node V)) (a : Z) :
  eqw (foldl (fun r x => wrap (r + size_of x)) a c) (a + sum_sizes c).
Proof.
  revert a. induction c as [|x c IH]; intros a; simpl.
  - apply eq_eqw. unfold sum_sizes. simpl. lia.
  - rewrite IH. rewrite wrap_eqw. apply eq_eqw.
    unfold sum_sizes. simpl. lia.
Qed.

Lemma wf_leaf_iff (s : list (K * V)) (z : Z) :
  wf ORDER (BTreeLeaf s z) = true <->
  (length s <= ORDER - 1)%nat /\ z = wrap (Z.of_nat (length s)).
Proof.
  unfold wf, cap_ok, shape_ok, size_ok, sum_sizes. simpl.
  rewrite !andb_true_iff, Nat.leb_le, Z.eqb_eq, Z.add_0_r. tauto.
Qed.

Lemma wf_node_iff (s : list (K * V)) (z : Z) (c : list (node V)) :
  wf ORDER (BTreeNode s z c) = true <->
  (length s <= ORDER - 1)%nat /\
  length c = S (length s) /\
  Forall (fun x => height x = hmax c) c /\
  z = wrap (Z.of_nat (length s) + sum_sizes c) /\
  Forall (fun x => wf ORDER x = true) c.
Proof.
  unfold wf at 1. simpl. unfold cap_ok, shape_ok, size_ok. simpl.
  rewrite !andb_true_iff, Nat.leb_le, Z.eqb_eq, Nat.eqb_eq, !forallb_Forall.
  fold (hmax c).
  assert (Forall (fun x => (S (height x) =? S (hmax c))%nat = true) c <->
          Forall (fun x => height x = hmax c) c) as ->.
  { apply Forall_iff. intros x. rewrite Nat.eqb_eq. lia. }
  unfold len. simpl. tauto.
Qed.

Lemma wf_node_intro (s : list (K * V)) (z : Z) (c : list (node V)) (h : nat) :
  (length s <= ORDER - 1)%nat ->
  length c = S (length s) ->
  Forall (fun x => height x = h) c ->
  eqw z (Z.of_nat (length s) + sum_sizes c) ->
  0 <= z < 2 ^ 32 ->
  Forall (fun x => wf ORDER x = true) c ->
  wf ORDER (BTreeNode s z c) = true /\ height (BTreeNode s z c) = S h.
Proof.
  intros Hcap Hlen Hh Hz Hr Hwf.
  assert (Hm : hmax c = h).
  { apply hmax_all; [|done]. intros ->. simpl in Hlen. lia. }
  split.
  - apply wf_node_iff. rewrite Hm. repeat split; try done.
    apply eqw_iff in Hz. rewrite <- Hz. symmetry. by apply wrap_small.
  - rewrite height_node. by rewrite Hm.
Qed.

Lemma wf_size_range (n : node V) : wf ORDER n = true -> 0 <= size_of n < 2 ^ 32.
Proof.
  destruct n as [s z|s z c]; intros H.
  - apply wf_leaf_iff in H as [_ ->]. apply wrap_range.
  - apply wf_node_iff in H as (_ & _ & _ & -> & _). apply wrap_range.
Qed.

Lemma wf_child (n c : node V) (i : nat) :
  wf ORDER n = true -> kids n !! i = Some c ->
  wf ORDER c = true /\ height n = S (height c).
Proof.
  destruct n as [s z|s z cs]; [done|]. intros H Hi. simpl in Hi.
  apply wf_node_iff in H as (_ & _ & Hh & _ & Hwf).
  rewrite Forall_lookup in Hh, Hwf. rewrite height_node.
  split; [eauto|]. by rewrite (Hh _ _ Hi).
Qed.

Lemma wf_kids_length (n : node V) :
  wf ORDER n = true -> isLeaf n = false -> length (kids n) = S (len n).
Proof.
  destruct n as [s z|s z cs]; simpl; [done|]. intros H _.
  by apply wf_node_iff in H as (_ & ? & _).
Qed.

Lemma wf_cap (n : node V) : wf ORDER n = true -> (len n <= ORDER - 1)%nat.
Proof.
  destruct n as [s z|s z cs]; intros H.
  - by apply wf_leaf_iff in H as [? _].
  - by apply wf_node_iff in H as (? & _).
Qed.

Lemma wf_size (n : node V) :
  wf ORDER n = true -> size_of n = wrap (Z.of_nat (len n) + sum_sizes (kids n)).
Proof.
  destruct n as [s z|s z cs]; intros H.
  - apply wf_leaf_iff in H as [_ ->]. unfold sum_sizes. simpl. f_equal. unfold len. simpl. lia.
  - by apply wf_node_iff in H as (_ & _ & _ & ? & _).
Qed.

(** *** The in-order walk around a child *)

Lemma inorder_node (s1 s2 : list (K * V)) (z : Z) (a b : list (node V)) (x : node V) :
  length a = length s1 -> length b = length s2 ->
  inorder (BTreeNode (s1 ++ s2) z (a ++ x :: b))
  = weave a s1 ++ inorder x ++ weave_after s2 b.
Proof.
  simpl. revert s1. induction a as [|y a IH]; intros [|k s1] Ha Hb; simpl in *; try lia.
  - clear Ha. revert b Hb. generalize x.
    induction s2 as [|k s2 IH2]; intros x' [|y b] Hb; simpl in *; try lia.
    + by rewrite app_nil_r.
    + f_equal. f_equal. apply IH2. lia.
  - rewrite IH by lia. by rewrite <- app_assoc.
Qed.

Lemma weave_app (a a' : list (node V)) (s s' : list (K * V)) :
  length a = length s -> weave (a ++ a') (s ++ s') = weave a s ++ weave a' s'.
Proof.
  revert s. induction a as [|x a IH]; intros [|k s] H; simpl in *; try lia; [done|].
  rewrite IH by lia. by rewrite <- app_assoc.
Qed.

Lemma weave_after_app (a a' : list (node V)) (s s' : list (K * V)) :
  length a = length s ->
  weave_after (s ++ s') (a ++ a') = weave_after s a ++ weave_after s' a'.
Proof.
  revert s. induction a as [|x a IH]; intros [|k s] H; simpl in *; try lia; [done|].
  rewrite IH by lia. by rewrite <- app_assoc.
Qed.
End Wf.

(** ** The validator *)

Lemma nondescending_app (p : Z) (l1 l2 : list Z) :
  nondescending p (l1 ++ l2) = nondescending p l1 && nondescending (last_of p l1) l2.
Proof.
  revert p. induction l1 as [|k l1 IH]; intros p; simpl; [done|].
  rewrite IH. by rewrite andb_assoc.
Qed.

Lemma last_of_app (p : Z) (l1 l2 : list Z) :
  last_of p (l1 ++ l2) = last_of (last_of p l1) l2.
Proof. unfold last_of. by rewrite foldl_app. Qed.

Section Traverse.
Context {V : Type}.
Variable ORDER : nat.

Lemma leaf_walk_fail (s : list (K * V)) (e : failure) :
  foldl leaf_step (Fail e) s = Fail e.
Proof. induction s as [|[k v] s IH]; simpl; [done|apply IH]. Qed.

Lemma leaf_walk (s : list (K * V)) (last : Z) :
  foldl leaf_step (Ok last) s
  = if nondescending last s.*1 then Ok (last_of last s.*1) else throw OrderViolation.
Proof.
  revert last. induction s as [|[k v] s IH]; intros last; simpl; [done|].
  destruct (Z.ltb_spec k last) as [Hlt|Hge].
  - unfold throw. rewrite leaf_walk_fail.
    destruct (Z.leb_spec last k); [lia|done].
  - rewrite IH. destruct (Z.leb_spec last k); [done|lia].
Qed.

Lemma every_unfold (P : node V -> bool) (n : node V) :
  every P n = P n && forallb (every P) (kids n).
Proof. by destruct n. Qed.

Lemma checked_below (d : nat) (last : Z) (c : node V) (r : outcome Z) :
  d <> 0%nat -> checked ORDER d last c r ->
  match r with
  | Ok l =>
      nondescending last (keys_of c) = true /\ l = last_of last (keys_of c) /\
      every (fill_ok ORDER) c = true /\ size_checked c = true
  | Fail (Thrown OrderViolation) => nondescending last (keys_of c) = false
  | Fail (Thrown FillViolation) => every (fill_ok ORDER) c = false
  | Fail (Thrown SizeMismatch) => size_checked c = false
  | Fail _ => False
  end.
Proof.
  intros Hd. unfold checked. rewrite (every_unfold (fill_ok ORDER) c).
  unfold every_below. destruct (Nat.eqb_spec d 0) as [->|_]; [done|]. simpl. done.
Qed.

Lemma walk_checked (rec : node V -> Z -> outcome Z) (d : nat)
    (a b : list (node V)) (s : list (K * V)) (last agg : Z) :
  d <> 0%nat ->
  Forall (fun c => forall l, checked ORDER d l c (rec c l)) b ->
  (length s <= length b)%nat ->
  match walk rec (a ++ b) s (length a) last agg with
  | Ok (l, g) =>
      nondescending last (weave (take (length s) b) s).*1 = true /\
      l = last_of last (weave (take (length s) b) s).*1 /\
      forallb (every (fill_ok ORDER)) (take (length s) b) = true /\
      forallb size_checked (take (length s) b) = true /\
      eqw g (agg + sum_sizes (take (length s) b))
  | Fail (Thrown OrderViolation) =>
      nondescending last (weave (take (length s) b) s).*1 = false
  | Fail (Thrown FillViolation) =>
      forallb (every (fill_ok ORDER)) (take (length s) b) = false
  | Fail (Thrown SizeMismatch) => forallb size_checked (take (length s) b) = false
  | Fail _ => False
  end.
Proof.
  intros Hd. revert a b last agg.
  induction s as [|[k v] s IH]; intros a b last agg Hrec Hlen.
  - simpl. repeat split; try done.
    unfold sum_sizes. simpl. f_equal. lia.
  - destruct b as [|c b]; [simpl in Hlen; lia|].
    apply Forall_cons in Hrec as [Hc Hrec].
    simpl. unfold at_index. rewrite list_lookup_middle by done. simpl.
    specialize (Hc last). apply (checked_below _ _ _ _ Hd) in Hc.
    destruct (rec c last) as [l1|e]; simpl.
    + destruct Hc as (Hn & -> & Hf & Hs).
      rewrite fmap_app, fmap_cons, nondescending_app, last_of_app.
      change ((inorder c).*1) with (keys_of c). rewrite Hn, Hf, Hs. simpl.
      destruct (Z.ltb_spec k (last_of last (keys_of c))) as [Hlt|Hge].
      * unfold throw.
        destruct (Z.leb_spec (last_of last (keys_of c)) k); [lia|done].
      * specialize (IH (a ++ [c]) b k (wrap (agg + size_of c)) Hrec).
        rewrite <- app_assoc, length_app in IH. simpl in IH.
        rewrite Nat.add_1_r in IH. simpl in Hlen.
        specialize (IH ltac:(lia)).
        destruct (Z.leb_spec (last_of last (keys_of c)) k); [|lia]. simpl.
        destruct (walk rec (a ++ c :: b) s (S (length a)) k (wrap (agg + size_of c)))
          as [[l g]|[| |[]|]]; try done.
        destruct IH as (? & ? & ? & ? & Hg). repeat split; try done.
        apply eqw_wrap_eq. rewrite Hg, wrap_eqw. apply eq_eqw. lia.
    + destruct e as [| |[]|]; try done.
      * by rewrite Hc.
      * rewrite fmap_app, nondescending_app.
        change ((inorder c).*1) with (keys_of c). by rewrite Hc.
      * by rewrite Hc.
Qed.

Lemma realizable_node (s : list (K * V)) (z : Z) (cc : list (node V)) :
  realizable (BTreeNode s z cc) = true <->
  length cc = S (length s) /\ Forall (fun c => realizable c = true) cc.
Proof.
  unfold realizable at 1. rewrite every_unfold. simpl.
  rewrite andb_true_iff, Nat.eqb_eq, forallb_Forall. done.
Qed.

Lemma last_child (s : list (K * V)) (cc : list (node V)) :
  length cc = S (length s) ->
  exists cl, cc = take (length s) cc ++ [cl] /\ length (take (length s) cc) = length s.
Proof.
  intros Hlen. destruct (lookup_lt_is_Some_2 cc (length s)) as [cl Hcl]; [lia|].
  exists cl. split.
  - rewrite <- (take_drop_middle cc (length s) cl Hcl) at 1.
    by rewrite drop_ge by lia.
  - rewrite length_take. lia.
Qed.

Lemma inorder_node_last (s : list (K * V)) (z : Z) (front : list (node V)) (cl : node V) :
  length front = length s ->
  inorder (BTreeNode s z (front ++ [cl])) = weave front s ++ inorder cl.
Proof.
  intros Hlen. rewrite <- (app_nil_r s) at 1.
  rewrite inorder_node by done. simpl. by rewrite app_nil_r.
Qed.

Lemma size_checked_node (s : list (K * V)) (z : Z) (cc : list (node V)) :
  size_checked (BTreeNode s z cc)
  = (z =? wrap (Z.of_nat (length s) + sum_sizes cc)) && forallb size_checked cc.
Proof. unfold size_checked at 1. by rewrite every_unfold. Qed.

Lemma keys_of_node_last (s : list (K * V)) (z : Z) (front : list (node V)) (cl : node V) :
  length front = length s ->
  keys_of (BTreeNode s z (front ++ [cl])) = (weave front s).*1 ++ keys_of cl.
Proof. intros H. unfold keys_of. by rewrite inorder_node_last, fmap_app. Qed.

Lemma doTraverse_S (fuel : nat) (n : node V) (depth : nat) (last : Z) :
  doTraverse ORDER (S fuel) n depth last
  = if negb (depth =? 0)%nat && (len n <? ORDER / 2 - 1)%nat then throw FillViolation
    else
      match n with
      | BTreeLeaf s _ => foldl leaf_step (Ok last) s
      | BTreeNode s z cc =>
          r ← walk (fun c l => doTraverse ORDER fuel c (S depth) l) cc s 0 last 0;
          c ← at_index cc (length s);
          last2 ← doTraverse ORDER fuel c (S depth) r.1;
          if negb (wrap (wrap (r.2 + size_of c) + Z.of_nat (length s)) =? z)
          then throw SizeMismatch
          else Ok last2
      end.
Proof.
  simpl. destruct (negb (depth =? 0)%nat && (len n <? ORDER / 2 - 1)%nat); [done|].
  destruct n as [s z|s z cc]; [done|].
  by destruct (walk (fun c l => doTraverse ORDER fuel c (S depth) l) cc s 0 last 0) as [[? ?]|?].
Qed.

Lemma doTraverse_checked (fuel : nat) (n : node V) (depth : nat) (last : Z) :
  (height n < fuel)%nat -> realizable n = true ->
  checked ORDER depth last n (doTraverse ORDER fuel n depth last).
Proof.
  revert n depth last.
  induction fuel as [|f IH]; intros n depth last Hh Hr; [lia|].
  rewrite doTraverse_S.
  destruct (negb (depth =? 0)%nat && (len n <? ORDER / 2 - 1)%nat) eqn:Hfill.
  { apply andb_true_iff in Hfill as [Hd Hl].
    apply negb_true_iff in Hd. apply Nat.ltb_lt in Hl.
    unfold throw, checked, fill_ok. rewrite Hd. simpl.
    destruct (Nat.leb_spec (ORDER / 2 - 1) (len n)); [lia|done]. }
  assert (Hown : (depth =? 0)%nat || fill_ok ORDER n = true).
  { unfold fill_ok. destruct (depth =? 0)%nat; [done|]. simpl in *.
    apply Nat.ltb_ge in Hfill. by apply Nat.leb_le. }
  destruct n as [s z|s z cc].
  - rewrite leaf_walk. unfold checked, keys_of. simpl.
    destruct (nondescending last s.*1) eqn:Hn; simpl; [|done].
    rewrite Hown. done.
  - apply realizable_node in Hr as [Hlen Hrc].
    assert (Hrec : Forall (fun c => forall l,
               checked ORDER (S depth) l c (doTraverse ORDER f c (S depth) l)) cc).
    { rewrite Forall_forall in Hrc. apply Forall_forall. intros c Hc l.
      apply IH; [|by apply Hrc].
      apply hmax_ge in Hc. rewrite height_node in Hh. lia. }
    pose proof (walk_checked (fun c l => doTraverse ORDER f c (S depth) l) (S depth)
                  [] cc s last 0 ltac:(done) Hrec ltac:(lia)) as W.
    simpl in W.
    destruct (last_child s cc Hlen) as (cl & Hcc & Hfront).
    remember (take (length s) cc) as front eqn:Efront in *. clear Efront. subst cc.
    rewrite Forall_app, Forall_singleton in Hrec. destruct Hrec as [_ Hcl].
    unfold checked, every_below.
    rewrite size_checked_node, keys_of_node_last, nondescending_app, last_of_app by done.
    simpl kids. rewrite !forallb_app. simpl forallb. rewrite !andb_true_r.
    rewrite sum_sizes_app, sum_sizes_cons.
    rewrite Hown. simpl orb.
    destruct (walk (fun c l => doTraverse ORDER f c (S depth) l) (front ++ [cl]) s 0 last 0)
      as [[l1 agg]|e]; simpl.
    + destruct W as (Hn & -> & Hf & Hs & Hagg).
      unfold at_index. rewrite list_lookup_middle by done. simpl.
      specialize (Hcl (last_of last (weave front s).*1)).
      apply checked_below in Hcl; [|done].
      destruct (doTraverse ORDER f cl (S depth) (last_of last (weave front s).*1))
        as [l2|e]; simpl.
      * destruct Hcl as (Hn2 & -> & Hf2 & Hs2).
        rewrite Hn, Hn2, Hf, Hf2, Hs, Hs2. simpl.
        assert (Hz : wrap (wrap (agg + size_of cl) + Z.of_nat (length s))
                     = wrap (Z.of_nat (length s) + (sum_sizes front + (size_of cl + 0)))).
        { apply eqw_wrap_eq.
          change (eqw (wrap (agg + size_of cl) + Z.of_nat (length s))
                      (Z.of_nat (length s) + (sum_sizes front + (size_of cl + 0)))).
          rewrite wrap_eqw, Hagg. apply eq_eqw. unfold sum_sizes. simpl. lia. }
        rewrite Hz. rewrite Z.eqb_sym.
        destruct (Z.eqb_spec z (wrap (Z.of_nat (length s) + (sum_sizes front + (size_of cl + 0))))) as [->|Hne]; simpl.
        -- done.
        -- done.
      * destruct e as [| |[]|]; try done.
        -- rewrite Hcl. apply andb_false_r.
        -- rewrite Hcl. apply andb_false_r.
        -- rewrite Hcl. rewrite !andb_false_r. done.
    + destruct e as [| |[]|]; try done.
      * by rewrite W.
      * by rewrite W.
      * rewrite W. simpl. apply andb_false_r.
Qed.
End Traverse.

(** C6, as the code has it.  [traverse] validates on every call, whatever
    its flag (which only enables printing).  It returns normally exactly
    when the three checks pass, and each exception names a check that
    fails: an order violation when some key is less than the key before it
    in the in-order walk, started at -1 (equal keys pass); a fill
    violation when a node other than the root has fewer than
    [ORDER / 2 - 1] keys (integer division); a size mismatch when an
    internal node's [size] is not its [len] plus its children's sizes. *)
Theorem traverse_validates {V : Type} (ORDER : nat) (t : node V) (print : bool) :
  realizable t = true ->
  match traverse ORDER t print with
  | Ok _ =>
      order_checked t = true /\ fill_checked ORDER t = true /\ size_checked t = true
  | Fail (Thrown OrderViolation) => order_checked t = false
  | Fail (Thrown FillViolation) => fill_checked ORDER t = false
  | Fail (Thrown SizeMismatch) => size_checked t = false
  | Fail _ => False
  end /\
  traverse ORDER t true = traverse ORDER t false.
Proof.
  intros Hr. split; [|done].
  unfold traverse.
  pose proof (doTraverse_checked ORDER (height t + 1) t 0 (-1) ltac:(lia) Hr) as H.
  unfold checked in H. simpl in H.
  destruct (doTraverse ORDER (height t + 1) t 0 (-1)) as [l|e]; simpl.
  - destruct H as (? & _ & ? & ?). done.
  - done.
Qed.

Lemma traverse_validates_witness :
  traverse (V:=Z) 4 (BTreeLeaf [(5, 11); (5, 10)] 2) true = Ok tt /\
  traverse (V:=Z) 4 (BTreeLeaf [(-5, 0)] 1) false = Fail (Thrown OrderViolation).
Proof.
  split.
  - pose proof (traverse_validates (V:=Z) 4 (BTreeLeaf [(5, 11); (5, 10)] 2) true
                  ltac:(reflexivity)) as [H _].
    destruct (traverse 4 (BTreeLeaf [(5, 11); (5, 10)] 2) true) as [[]|e]; [done|].
    vm_compute in H. destruct e as [| |[]|]; done.
  - pose proof (traverse_validates (V:=Z) 4 (BTreeLeaf [(-5, 0)] 1) false
                  ltac:(reflexivity)) as [H _].
    destruct (traverse 4 (BTreeLeaf [(-5, 0)] 1) false) as [[]|e].
    + vm_compute in H. destruct H as [? _]. done.
    + vm_compute in H. destruct e as [| |[]|]; done.
Defined.

(** ** Sorted walks *)

Lemma inorder_leaf {V : Type} (s : list (K * V)) (z : Z) : inorder (BTreeLeaf s z) = s.
Proof. reflexivity. Qed.

Lemma height_leaf {V : Type} (s : list (K * V)) (z : Z) : height (BTreeLeaf s z) = 0%nat.
Proof. reflexivity. Qed.

#[global] Arguments inorder : simpl never.
#[global] Arguments height : simpl never.

Section Sorted.
Context {V : Type}.
Implicit Types (l : list (K * V)) (x y : K * V).

#[global] Instance slot_lt_trans : Transitive (@slot_lt V).
Proof. unfold slot_lt. intros x y z. lia. Qed.

#[global] Instance slot_le_trans : Transitive (@slot_le V).
Proof. unfold slot_le. intros x y z. lia. Qed.

Lemma ascending_iff (p : Z) l :
  ascending p l.*1 = true <->
  Forall (fun x => p < x.1) l /\ StronglySorted slot_lt l.
Proof.
  revert p. induction l as [|x l IH]; intros p; simpl.
  - split; [|done]. intros _. split; constructor.
  - rewrite andb_true_iff, Z.ltb_lt, IH. split.
    + intros (Hp & Hall & Hs). split.
      * constructor; [done|]. eapply Forall_impl; [exact Hall|]. simpl. intros; lia.
      * constructor; [done|]. exact Hall.
    + intros (Hall & Hs). apply Forall_cons in Hall as [Hp Hall].
      apply StronglySorted_inv in Hs as [Hs Hx]. done.
Qed.

Lemma strictly_sorted_iff l :
  strictly_sorted l.*1 = true <-> StronglySorted slot_lt l.
Proof.
  destruct l as [|x l]; simpl.
  - split; [constructor|done].
  - rewrite ascending_iff. split.
    + intros [Hall Hs]. by constructor.
    + intros Hs. apply StronglySorted_inv in Hs as [Hs Hx]. done.
Qed.

Lemma nondescending_iff (p : Z) l :
  nondescending p l.*1 = true <->
  Forall (fun x => p <= x.1) l /\ StronglySorted slot_le l.
Proof.
  revert p. induction l as [|x l IH]; intros p; simpl.
  - split; [|done]. intros _. split; constructor.
  - rewrite andb_true_iff, Z.leb_le, IH. split.
    + intros (Hp & Hall & Hs). split.
      * constructor; [done|]. eapply Forall_impl; [exact Hall|]. simpl. intros; lia.
      * constructor; [done|]. exact Hall.
    + intros (Hall & Hs). apply Forall_cons in Hall as [Hp Hall].
      apply StronglySorted_inv in Hs as [Hs Hx]. done.
Qed.

Lemma sorted_lt_le l : StronglySorted slot_lt l -> StronglySorted slot_le l.
Proof.
  induction 1 as [|x l Hs IH Hx]; constructor; [done|].
  eapply Forall_impl; [exact Hx|]. unfold slot_lt, slot_le. intros; lia.
Qed.

Lemma filter_none (key : K) (ks : list K) :
  Forall (fun k => key <= k) ks -> filter (fun k => k < key) ks = [].
Proof.
  induction 1 as [|k ks Hk Hall IH]; [done|].
  rewrite filter_cons, decide_False by lia. done.
Qed.

Lemma filter_all (key : K) (ks : list K) :
  Forall (fun k => k < key) ks -> filter (fun k => k < key) ks = ks.
Proof.
  induction 1 as [|k ks Hk Hall IH]; [done|].
  rewrite filter_cons, decide_True by lia. by f_equal.
Qed.

(** In a sorted list the keys less than [key] are those before the
    lower-bound position. *)
Lemma filter_lt_sorted (key : K) l :
  StronglySorted slot_le l ->
  length (filter (fun k => k < key) l.*1) = locate_keys Cmp l.*1 key.
Proof.
  unfold locate_keys, Cmp.
  induction 1 as [|x l Hs IH Hx]; simpl; [done|].
  rewrite filter_cons. destruct (Z.ltb_spec x.1 key) as [Hlt|Hge]; simpl.
  - rewrite decide_True by done. simpl. f_equal. exact IH.
  - rewrite decide_False by lia.
    rewrite filter_none; [done|].
    apply Forall_fmap. eapply Forall_impl; [exact Hx|].
    unfold slot_le. simpl. intros; lia.
Qed.
End Sorted.

(** ** A node seen around one of its children *)

Section Around.
Context {V : Type}.
Implicit Types (n c : node V) (s : list (K * V)) (a b : list (node V)).

Lemma node_split n i c :
  isLeaf n = false -> length (kids n) = S (len n) -> kids n !! i = Some c ->
  exists s1 s2 a b z,
    n = BTreeNode (s1 ++ s2) z (a ++ c :: b) /\
    length s1 = i /\ length a = i /\ length b = length s2.
Proof.
  destruct n as [s z|s z cc]; [done|]. simpl. unfold len. simpl.
  intros _ Hlen Hi.
  exists (take i s), (drop i s), (take i cc), (drop (S i) cc), z.
  pose proof (lookup_lt_Some _ _ _ Hi) as Hlt.
  rewrite take_drop, (take_drop_middle _ _ _ Hi).
  rewrite !length_take, !length_drop. repeat split; lia.
Qed.

Lemma before_split s1 s2 z a c b :
  length a = length s1 ->
  before (BTreeNode (s1 ++ s2) z (a ++ c :: b)) (length s1) = weave a s1.
Proof.
  intros H. unfold before. simpl.
  by rewrite take_app_length, take_app_length' by done.
Qed.

Lemma after_split s1 s2 z a c b :
  length a = length s1 ->
  after (BTreeNode (s1 ++ s2) z (a ++ c :: b)) (length s1) = weave_after s2 b.
Proof.
  intros H. unfold after. simpl. rewrite drop_app_length.
  replace (S (length s1)) with (length (a ++ [c])) by (rewrite length_app; simpl; lia).
  by rewrite (cons_middle c a b), app_assoc, drop_app_length.
Qed.

Lemma inorder_split n i c :
  isLeaf n = false -> length (kids n) = S (len n) -> kids n !! i = Some c ->
  inorder n = before n i ++ inorder c ++ after n i.
Proof.
  intros Hl Hlen Hi.
  destruct (node_split n i c Hl Hlen Hi) as (s1 & s2 & a & b & z & -> & <- & Ha & Hb).
  rewrite before_split, after_split by done. by apply inorder_node.
Qed.

Lemma counts_cons c a : counts (c :: a) = count c + counts a.
Proof. reflexivity. Qed.

Lemma counts_app a b : counts (a ++ b) = counts a + counts b.
Proof.
  induction a as [|x a IH]; [unfold counts; simpl; lia|].
  rewrite <- app_comm_cons, !counts_cons, IH. lia.
Qed.

Lemma length_weave a s :
  length a = length s ->
  Z.of_nat (length (weave a s)) = Z.of_nat (length s) + counts a.
Proof.
  revert s. induction a as [|x a IH]; intros [|y s] H; simpl in H; try lia.
  - unfold counts. simpl. lia.
  - rewrite counts_cons. unfold count at 1. simpl weave.
    rewrite length_app. simpl length. rewrite Nat2Z.inj_add, !Nat2Z.inj_succ.
    rewrite IH by lia. lia.
Qed.

Lemma length_weave_after s b :
  length b = length s ->
  Z.of_nat (length (weave_after s b)) = Z.of_nat (length s) + counts b.
Proof.
  revert s. induction b as [|x b IH]; intros [|y s] H; simpl in H; try lia.
  - unfold counts. simpl. lia.
  - rewrite counts_cons. unfold count at 1. simpl weave_after.
    simpl length. rewrite length_app, Nat2Z.inj_succ, Nat2Z.inj_add, !Nat2Z.inj_succ.
    rewrite IH by lia. lia.
Qed.

Lemma weave_below (key : K) a s :
  StronglySorted slot_le (weave a s) ->
  Forall (fun x => x.1 < key) s ->
  Forall (fun x => x.1 < key) (weave a s).
Proof.
  revert s. induction a as [|x a IH]; intros [|y s] Hs Hall; simpl in *; try done.
  apply Forall_cons in Hall as [Hy Hall].
  apply StronglySorted_app in Hs as (Hle & _ & Hs2).
  apply StronglySorted_inv in Hs2 as [Hs2 _].
  apply Forall_app. split.
  - apply Forall_forall. intros u Hu.
    specialize (Hle u y Hu ltac:(left)). unfold slot_le in Hle. simpl in *. lia.
  - constructor; [done|]. by apply IH.
Qed.

Lemma weave_after_above (y : K * V) s a :
  StronglySorted slot_le (weave_after (y :: s) a) ->
  Forall (fun x => y.1 <= x.1) (weave_after (y :: s) a).
Proof.
  destruct a as [|x a]; simpl; [done|]. intros Hs.
  apply StronglySorted_inv in Hs as [_ Hall].
  constructor; [simpl; lia|]. exact Hall.
Qed.

Lemma slots_below (key : K) s1 s2 z a c b :
  locate (BTreeNode (s1 ++ s2) z (a ++ c :: b)) key = length s1 ->
  Forall (fun x => x.1 < key) s1.
Proof.
  intros Hloc. apply Forall_lookup. intros j x Hj.
  destruct (locate_bounds (BTreeNode (s1 ++ s2) z (a ++ c :: b)) key) as (_ & H & _).
  apply (H j). { rewrite Hloc. by eapply lookup_lt_Some. }
  unfold keys. simpl. rewrite list_lookup_fmap, lookup_app_l by (by eapply lookup_lt_Some).
  by rewrite Hj.
Qed.

Lemma slot_at_above (key : K) n y :
  slots n !! locate n key = Some y -> key <= y.1.
Proof.
  intros Hy. destruct (locate_bounds n key) as (_ & _ & H & _).
  apply H. unfold keys. by rewrite list_lookup_fmap, Hy.
Qed.

Lemma found_true n (key : K) :
  found n (locate n key) key = true ->
  exists v, slots n !! locate n key = Some (key, v).
Proof.
  unfold found, keys. rewrite list_lookup_fmap.
  destruct (slots n !! locate n key) as [[k v]|] eqn:Hs; simpl; [|done].
  intros Hc. exists v. f_equal. f_equal.
  apply slot_at_above in Hs. simpl in Hs.
  unfold Cmp in Hc. apply negb_true_iff, Z.ltb_ge in Hc. lia.
Qed.

Lemma found_false n (key : K) y :
  found n (locate n key) key = false ->
  slots n !! locate n key = Some y -> key < y.1.
Proof.
  unfold found, keys. rewrite list_lookup_fmap. intros Hf Hy. rewrite Hy in Hf.
  simpl in Hf. unfold Cmp in Hf. apply negb_false_iff, Z.ltb_lt in Hf. done.
Qed.

(** The keys around the child that [locate] selects. *)
Lemma bracket (key : K) s1 s2 z a c b :
  length a = length s1 -> length b = length s2 ->
  locate (BTreeNode (s1 ++ s2) z (a ++ c :: b)) key = length s1 ->
  StronglySorted slot_le (inorder (BTreeNode (s1 ++ s2) z (a ++ c :: b))) ->
  Forall (fun x => x.1 < key) (weave a s1) /\
  Forall (fun x => key <= x.1) (weave_after s2 b) /\
  (found (BTreeNode (s1 ++ s2) z (a ++ c :: b)) (length s1) key = false ->
   Forall (fun x => key < x.1) (weave_after s2 b)).
Proof.
  intros Ha Hb Hloc Hs. rewrite inorder_node in Hs by done.
  apply StronglySorted_app in Hs as (_ & Hs1 & Hs2).
  apply StronglySorted_app in Hs2 as (_ & _ & Hs2).
  split; [|split].
  - apply weave_below; [done|]. by eapply slots_below.
  - destruct s2 as [|y s2]; [done|].
    assert (Hy : slots (BTreeNode (s1 ++ y :: s2) z (a ++ c :: b))
                 !! locate (BTreeNode (s1 ++ y :: s2) z (a ++ c :: b)) key = Some y).
    { rewrite Hloc. simpl. by apply list_lookup_middle. }
    apply slot_at_above in Hy.
    eapply Forall_impl; [by apply weave_after_above|]. simpl. intros; lia.
  - intros Hf. destruct s2 as [|y s2]; [done|].
    assert (Hy : slots (BTreeNode (s1 ++ y :: s2) z (a ++ c :: b))
                 !! locate (BTreeNode (s1 ++ y :: s2) z (a ++ c :: b)) key = Some y).
    { rewrite Hloc. simpl. by apply list_lookup_middle. }
    rewrite <- Hloc in Hf. apply (found_false _ _ _ Hf) in Hy.
    eapply Forall_impl; [by apply weave_after_above|]. simpl. intros; lia.
Qed.
End Around.

(** ** find and rank *)

Section Queries.
Context {V : Type}.
Implicit Types (n c : node V) (s : list (K * V)) (a b : list (node V)).

Lemma every_node_iff (P : node V -> bool) s z cc :
  every P (BTreeNode s z cc) = true <->
  P (BTreeNode s z cc) = true /\ Forall (fun c => every P c = true) cc.
Proof. rewrite every_unfold, andb_true_iff, forallb_Forall. done. Qed.

Lemma sized_node s z cc :
  sized (BTreeNode s z cc) = true <->
  z = wrap (Z.of_nat (length s) + sum_sizes cc) /\ Forall (fun c => sized c = true) cc.
Proof.
  unfold sized at 1. rewrite every_node_iff. unfold size_ok. simpl.
  rewrite Z.eqb_eq. done.
Qed.

Lemma sized_leaf s z : sized (BTreeLeaf s z) = true <-> z = wrap (Z.of_nat (length s)).
Proof.
  unfold sized, size_ok, sum_sizes. simpl. rewrite andb_true_r, Z.eqb_eq, Z.add_0_r. done.
Qed.

Lemma count_node s z cc :
  length cc = S (length s) ->
  count (BTreeNode s z cc) = Z.of_nat (length s) + counts cc.
Proof.
  intros Hlen. destruct (last_child s cc Hlen) as (cl & Hcc & Hfront).
  rewrite Hcc at 1 2. unfold count at 1. rewrite inorder_node_last by done.
  rewrite length_app, Nat2Z.inj_add, length_weave by done.
  rewrite counts_app, counts_cons. unfold counts at 3, count. simpl. lia.
Qed.

Lemma sum_sizes_counts a :
  Forall (fun c => eqw (size_of c) (count c)) a -> eqw (sum_sizes a) (counts a).
Proof.
  induction 1 as [|x a Hx Ha IH]; [done|].
  rewrite sum_sizes_cons, counts_cons. by rewrite Hx, IH.
Qed.

Lemma sized_count n :
  realizable n = true -> sized n = true -> eqw (size_of n) (count n).
Proof.
  induction n as [s z|s z cc IH] using node_ind; intros Hr Hs.
  - apply sized_leaf in Hs as ->. simpl. apply wrap_eqw.
  - apply realizable_node in Hr as [Hlen Hr]. apply sized_node in Hs as [-> Hs].
    simpl. rewrite count_node by done. etransitivity; [apply wrap_eqw|].
    apply eqw_add; [done|]. apply sum_sizes_counts.
    rewrite Forall_forall in IH, Hr, Hs. apply Forall_forall. intros c Hc.
    apply IH; auto.
Qed.

Lemma slot_in_inorder n i x :
  realizable n = true -> slots n !! i = Some x -> x ∈ inorder n.
Proof.
  destruct n as [s z|s z cc]; intros Hr Hx; simpl in Hx.
  - simpl. by eapply list_elem_of_lookup_2.
  - apply realizable_node in Hr as [Hlen _].
    destruct (lookup_lt_is_Some_2 cc (S i)) as [c Hc].
    { apply lookup_lt_Some in Hx. lia. }
    destruct (node_split (BTreeNode s z cc) (S i) c eq_refl Hlen Hc)
      as (s1 & s2 & a & b & z' & Heq & Hs1 & Ha & Hb).
    injection Heq as -> -> ->.
    rewrite inorder_node by lia.
    destruct s1 as [|y s1 _] using rev_ind; [simpl in Hs1; lia|].
    rewrite length_app in Hs1. simpl in Hs1.
    rewrite <- app_assoc in Hx. simpl in Hx.
    rewrite list_lookup_middle in Hx by lia. injection Hx as ->.
    destruct a as [|c0 a _] using rev_ind; [simpl in Ha; lia|].
    rewrite length_app in Ha. simpl in Ha.
    rewrite weave_app by lia. simpl.
    rewrite !elem_of_app, !elem_of_cons. tauto.
Qed.

Lemma sorted_lookup (R : relation (K * V)) (l : list (K * V)) i j x y :
  StronglySorted R l -> (i < j)%nat -> l !! i = Some x -> l !! j = Some y -> R x y.
Proof.
  intros Hs Hij Hx Hy.
  rewrite <- (take_drop_middle l j y Hy) in Hs.
  eapply StronglySorted_app_1_elem_of; [exact Hs| |left].
  apply list_elem_of_lookup. exists i. rewrite lookup_take_lt by done. done.
Qed.

Lemma not_among_smaller (key : K) (l : list (K * V)) :
  Forall (fun x => x.1 < key) l -> key ∉ l.*1.
Proof.
  intros Hall Hin. apply list_elem_of_fmap in Hin as (x & -> & Hx).
  rewrite Forall_forall in Hall. specialize (Hall x Hx). simpl in Hall. lia.
Qed.

Lemma not_among_larger (key : K) (l : list (K * V)) :
  Forall (fun x => key < x.1) l -> key ∉ l.*1.
Proof.
  intros Hall Hin. apply list_elem_of_fmap in Hin as (x & -> & Hx).
  rewrite Forall_forall in Hall. specialize (Hall x Hx). simpl in Hall. lia.
Qed.

Lemma own_slots_miss n (key : K) :
  StronglySorted slot_le (slots n) ->
  found n (locate n key) key = false -> key ∉ keys n.
Proof.
  intros Hs Hf Hin. unfold keys in Hin.
  apply list_elem_of_fmap in Hin as (x & Hk & Hx).
  apply list_elem_of_lookup in Hx as [j Hj].
  destruct (locate_bounds n key) as (Hle & Hlt & _).
  destruct (decide (j < locate n key)%nat) as [Hlt'|Hge].
  - specialize (Hlt j x.1 Hlt'). unfold keys in Hlt.
    rewrite list_lookup_fmap, Hj in Hlt. specialize (Hlt eq_refl). lia.
  - destruct (lookup_lt_is_Some_2 (slots n) (locate n key)) as [y Hy].
    { apply lookup_lt_Some in Hj. lia. }
    pose proof (found_false n key y Hf Hy) as Hky.
    destruct (decide (j = locate n key)) as [->|Hne].
    + rewrite Hy in Hj. injection Hj as ->. lia.
    + pose proof (sorted_lookup slot_le (slots n) (locate n key) j y x Hs ltac:(lia) Hy Hj) as H.
      unfold slot_le in H. lia.
Qed.

Lemma doFind_S (fuel : nat) n (key : K) :
  doFind (S fuel) n key
  = if found n (locate n key) key then Ok (Some (n, locate n key))
    else if negb (isLeaf n) then c ← child n (locate n key); doFind fuel c key
    else Ok None.
Proof. reflexivity. Qed.

Lemma answers_inside (key : K) (l1 l l2 : list (K * V)) (cur : option (node V * nat)) :
  answers l key cur -> key ∉ l1.*1 -> key ∉ l2.*1 -> answers (l1 ++ l ++ l2) key cur.
Proof.
  unfold answers. destruct (cursor_slot cur) as [x|].
  - intros [? ?] _ _. split; [done|]. rewrite !elem_of_app. tauto.
  - intros [? ?] ? ?. split; [done|]. rewrite !fmap_app, !elem_of_app. tauto.
Qed.

Lemma doFind_answers (fuel : nat) n (key : K) :
  (height n < fuel)%nat -> realizable n = true ->
  StronglySorted slot_le (inorder n) ->
  returns (doFind fuel n key) (answers (inorder n) key).
Proof.
  revert n. induction fuel as [|f IH]; intros n Hh Hr Hs; [lia|].
  rewrite doFind_S. destruct (found n (locate n key) key) eqn:Hf.
  { eexists. split; [done|]. unfold answers, cursor_slot. simpl.
    destruct (found_true n key Hf) as [v Hv]. rewrite Hv. split; [done|].
    by eapply slot_in_inorder. }
  destruct n as [s z|s z cc]; simpl negb; cbv iota.
  - eexists. split; [done|]. unfold answers, cursor_slot. simpl. split; [done|].
    by apply (own_slots_miss (BTreeLeaf s z) key).
  - pose proof Hr as Hr'. apply realizable_node in Hr' as [Hlen Hrc].
    destruct (lookup_lt_is_Some_2 cc (locate (BTreeNode s z cc) key)) as [c Hc].
    { pose proof (locate_bounds (BTreeNode s z cc) key) as [Hle _].
      unfold len in Hle. simpl in Hle. lia. }
    destruct (node_split (BTreeNode s z cc) _ c eq_refl Hlen Hc)
      as (s1 & s2 & a & b & z' & Heq & Hs1 & Ha & Hb).
    injection Heq as -> -> ->.
    unfold child. simpl. unfold at_index. rewrite Hc. simpl.
    rewrite <- Hs1 in Hf.
    destruct (bracket key s1 s2 z' a c b ltac:(lia) Hb ltac:(done) Hs) as (Hbelow & _ & Habove).
    specialize (Habove Hf).
    rewrite inorder_node in * by lia.
    destruct (IH c) as (cur & Hcur & Hans).
    + pose proof (height_child (BTreeNode (s1 ++ s2) z' (a ++ c :: b)) c _ Hc). lia.
    + rewrite Forall_forall in Hrc. apply Hrc. by eapply list_elem_of_lookup_2.
    + apply StronglySorted_app_1_r, StronglySorted_app_1_l in Hs. done.
    + exists cur. split; [done|].
      apply answers_inside; [done|by apply not_among_smaller|by apply not_among_larger].
Qed.

Lemma getRank_from_S (fuel : nat) n (key : K) (rank : Z) :
  getRank_from (S fuel) n key rank
  = let idx := locate n key in
    let rank1 := wrap (rank + Z.of_nat idx) in
    let rank2 :=
      if negb (isLeaf n)
      then foldl (fun r c => wrap (r + size_of c)) rank1 (take idx (kids n))
      else rank1 in
    if found n idx key then
      if negb (isLeaf n) then c ← child n idx; Ok (wrap (rank2 + size_of c))
      else Ok rank2
    else if isLeaf n then Ok rank2
    else c ← child n idx; getRank_from fuel c key rank2.
Proof. reflexivity. Qed.

Lemma count_less_around (key : K) s1 s2 z a c b :
  length a = length s1 -> length b = length s2 ->
  Forall (fun x => x.1 < key) (weave a s1) ->
  Forall (fun x => key <= x.1) (weave_after s2 b) ->
  count_less (BTreeNode (s1 ++ s2) z (a ++ c :: b)) key
  = Z.of_nat (length s1) + counts a + count_less c key.
Proof.
  intros Ha Hb Hlt Hge. unfold count_less, keys_of.
  rewrite inorder_node, !fmap_app, !filter_app, !length_app by done.
  rewrite filter_all by (by apply Forall_fmap).
  rewrite (filter_none key (weave_after s2 b).*1).
  2:{ apply Forall_fmap. eapply Forall_impl; [exact Hge|]. simpl. intros; lia. }
  rewrite length_fmap. simpl length.
  rewrite Nat.add_0_r, Nat2Z.inj_add, length_weave by done. done.
Qed.

Lemma getRank_from_counts (fuel : nat) n (key : K) (rank : Z) :
  (height n < fuel)%nat -> realizable n = true -> sized n = true ->
  StronglySorted slot_lt (inorder n) ->
  returns (getRank_from fuel n key rank) (fun r => eqw r (rank + count_less n key)).
Proof.
  revert n rank. induction fuel as [|f IH]; intros n rank Hh Hr Hz Hs; [lia|].
  rewrite getRank_from_S. cbv zeta.
  destruct n as [s z|s z cc].
  - simpl negb. cbv iota. simpl isLeaf. cbv iota.
    assert (Hc : count_less (BTreeLeaf s z) key
                 = Z.of_nat (locate (BTreeLeaf s z) key)).
    { unfold count_less, keys_of, locate, keys. rewrite inorder_leaf. simpl slots.
      f_equal. apply filter_lt_sorted. rewrite inorder_leaf in Hs.
      by apply sorted_lt_le. }
    rewrite Hc.
    destruct (found (BTreeLeaf s z) (locate (BTreeLeaf s z) key) key);
      (eexists; split; [done|apply wrap_eqw]).
  - pose proof Hr as Hr'. apply realizable_node in Hr' as [Hlen Hrc].
    pose proof Hz as Hz'. apply sized_node in Hz' as [_ Hzc].
    destruct (lookup_lt_is_Some_2 cc (locate (BTreeNode s z cc) key)) as [c Hc].
    { pose proof (locate_bounds (BTreeNode s z cc) key) as [Hle _].
      unfold len in Hle. simpl in Hle. lia. }
    destruct (node_split (BTreeNode s z cc) _ c eq_refl Hlen Hc)
      as (s1 & s2 & a & b & z' & Heq & Hs1 & Ha & Hb).
    injection Heq as -> -> ->.
    assert (Hrc' : realizable c = true).
    { rewrite Forall_forall in Hrc. apply Hrc. by eapply list_elem_of_lookup_2. }
    assert (Hzc' : sized c = true).
    { rewrite Forall_forall in Hzc. apply Hzc. by eapply list_elem_of_lookup_2. }
    destruct (bracket key s1 s2 z' a c b ltac:(lia) Hb ltac:(done) (sorted_lt_le _ Hs))
      as (Hbelow & Habove & _).
    rewrite (count_less_around key s1 s2 z' a c b) by (done || lia).
    set (n := BTreeNode (s1 ++ s2) z' (a ++ c :: b)) in *.
    simpl negb. cbv iota. simpl isLeaf. cbv iota.
    unfold child. simpl children. simpl mbind. unfold at_index. simpl kids.
    rewrite Hc. simpl.
    assert (Htake : take (locate n key) (a ++ c :: b) = a).
    { rewrite <- Ha. apply take_app_length. }
    rewrite Htake.
    assert (Hsum : eqw (sum_sizes a) (counts a)).
    { apply sum_sizes_counts. apply Forall_forall. intros x Hx.
      rewrite Forall_forall in Hrc, Hzc.
      apply sized_count; [apply Hrc|apply Hzc]; rewrite elem_of_app; by left. }
    assert (Hr2 : eqw (foldl (fun r x => wrap (r + size_of x))
                         (wrap (rank + Z.of_nat (locate n key))) a)
                      (rank + Z.of_nat (length s1) + counts a)).
    { rewrite foldl_wrap_sum, Hsum. rewrite <- Hs1.
      apply eqw_add; [apply wrap_eqw|done]. }
    destruct (found n (locate n key) key) eqn:Hf.
    + eexists. split; [done|].
      rewrite wrap_eqw, Hr2.
      rewrite (sized_count c Hrc' Hzc').
      assert (Hall : count_less c key = count c).
      { unfold count_less, count, keys_of. f_equal.
        rewrite filter_all; [by rewrite length_fmap|].
        destruct (found_true n key Hf) as [v Hv].
        subst n. simpl slots in Hv. rewrite <- Hs1 in Hv.
        destruct s2 as [|y s2]; [by rewrite lookup_ge_None_2 in Hv by (rewrite length_app; simpl; lia)|].
        rewrite list_lookup_middle in Hv by done. injection Hv as ->.
        rewrite inorder_node in Hs by lia.
        apply StronglySorted_app_1_r in Hs. apply Forall_fmap, Forall_forall.
        intros x Hx. simpl.
        destruct b as [|b0 b]; [simpl in Hb; lia|]. simpl in Hs.
        apply (StronglySorted_app_1_elem_of _ _ _ x (key, v)) in Hs; [done|done|left]. }
      rewrite Hall. apply eq_eqw. lia.
    + destruct (IH c (foldl (fun r x => wrap (r + size_of x))
                        (wrap (rank + Z.of_nat (locate n key))) a))
        as (r & Hr0 & Hreq).
      * pose proof (height_child n c _ Hc). lia.
      * done.
      * done.
      * unfold n in Hs. rewrite inorder_node in Hs by lia.
        apply StronglySorted_app_1_r, StronglySorted_app_1_l in Hs. done.
      * exists r. split; [done|]. rewrite Hreq, Hr2. apply eq_eqw. lia.
Qed.
End Queries.

Lemma getRank_from_range {V : Type} (fuel : nat) (n : node V) (key : K) (rank r : Z) :
  getRank_from fuel n key rank = Ok r -> 0 <= r < 2 ^ 32.
Proof.
  revert n rank. induction fuel as [|f IH]; intros n rank H; [done|].
  rewrite getRank_from_S in H. cbv zeta in H.
  assert (Hfold : forall a r0, 0 <= r0 < 2 ^ 32 ->
            0 <= foldl (fun r (c : node V) => wrap (r + size_of c)) r0 a < 2 ^ 32).
  { induction a as [|x a IHa]; intros r0 Hr0; simpl; [done|].
    apply IHa. apply wrap_range. }
  assert (Hr2 : 0 <= (if negb (isLeaf n)
                      then foldl (fun r c => wrap (r + size_of c))
                             (wrap (rank + Z.of_nat (locate n key)))
                             (take (locate n key) (kids n))
                      else wrap (rank + Z.of_nat (locate n key))) < 2 ^ 32).
  { destruct (negb (isLeaf n)); [apply Hfold|]; apply wrap_range. }
  destruct (found n (locate n key) key).
  - destruct (negb (isLeaf n)).
    + inv_ok H. apply wrap_range.
    + inv_ok H. done.
  - destruct (isLeaf n).
    + inv_ok H. done.
    + inv_ok H. eauto.
Qed.

Lemma count_less_mono (a b : K) (l : list K) :
  a ∈ l -> a < b ->
  (length (filter (fun k => (k < a)%Z) l) < length (filter (fun k => (k < b)%Z) l))%nat.
Proof.
  intros Hin Hab.
  assert (Hle : forall l' : list K,
            (length (filter (fun k => (k < a)%Z) l')
             <= length (filter (fun k => (k < b)%Z) l'))%nat).
  { induction l' as [|k l' IH]; [done|]. rewrite !filter_cons.
    destruct (decide (k < a)), (decide (k < b)); simpl; lia. }
  induction l as [|k l IH]; [by apply not_elem_of_nil in Hin|].
  rewrite !filter_cons. apply elem_of_cons in Hin as [<-|Hin].
  - rewrite decide_False by lia. rewrite decide_True by lia. simpl.
    specialize (Hle l). lia.
  - specialize (IH Hin).
    destruct (decide (k < a)), (decide (k < b)); simpl; lia.
Qed.

(** C2, as the code has it.  On a tree whose keys are pairwise distinct
    (the in-order walk is strictly increasing) and whose size fields are
    consistent, [rank(key)] is the number of stored keys strictly less
    than [key], as an [unsigned]; with fewer than 2^32 keys that is the
    number itself, and then [rank(a) < rank(b)] for stored keys
    [a < b]. *)
Theorem rank_of_distinct_keys {V : Type} (t : node V) :
  realizable t = true -> sized t = true -> strictly_sorted (keys_of t) = true ->
  (forall key, getRank t key = Ok (wrap (count_less t key))) /\
  (count t < 2 ^ 32 ->
   (forall key, getRank t key = Ok (count_less t key)) /\
   (forall a b ra rb, a ∈ keys_of t -> a < b ->
      getRank t a = Ok ra -> getRank t b = Ok rb -> ra < rb)).
Proof.
  intros Hr Hz Hs. apply strictly_sorted_iff in Hs.
  assert (H1 : forall key, getRank t key = Ok (wrap (count_less t key))).
  { intros key. unfold getRank.
    destruct (getRank_from_counts (height t + 1) t key 0 ltac:(lia) Hr Hz Hs)
      as (r & Hr0 & Hreq).
    rewrite Hr0. f_equal. apply getRank_from_range in Hr0.
    rewrite <- (wrap_small r Hr0). apply eqw_iff in Hreq. rewrite Hreq. done. }
  split; [done|]. intros Hcount.
  assert (H2 : forall key, getRank t key = Ok (count_less t key)).
  { intros key. rewrite H1. f_equal. apply wrap_small.
    unfold count_less, count, keys_of in *.
    pose proof (length_filter (fun k => k < key) (inorder t).*1) as Hle.
    rewrite length_fmap in Hle. lia. }
  split; [done|].
  intros a b ra rb Ha Hab Hra Hrb. rewrite H2 in Hra, Hrb.
  injection Hra as <-. injection Hrb as <-.
  unfold count_less. apply inj_lt. by apply count_less_mono.
Qed.

Lemma rank_of_distinct_keys_witness :
  getRank (V:=Z) (BTreeNode [(2, 20)] 4
                    [BTreeLeaf [(1, 10)] 1; BTreeLeaf [(3, 30); (4, 40)] 2]) 3
  = Ok 2.
Proof.
  pose proof (rank_of_distinct_keys (V:=Z)
                (BTreeNode [(2, 20)] 4
                   [BTreeLeaf [(1, 10)] 1; BTreeLeaf [(3, 30); (4, 40)] 2])
                ltac:(reflexivity) ltac:(reflexivity) ltac:(reflexivity)) as [_ H].
  destruct (H ltac:(vm_compute; reflexivity)) as [H2 _].
  exact (H2 3).
Defined.

(** ** Insertion *)

Lemma half_bounds (ORDER : nat) :
  (3 <= ORDER)%nat ->
  (1 <= ORDER / 2)%nat /\ (2 * (ORDER / 2) <= ORDER)%nat /\ (ORDER <= 2 * (ORDER / 2) + 1)%nat.
Proof.
  intros H. pose proof (Nat.div_mod_eq ORDER 2) as E.
  pose proof (Nat.mod_upper_bound ORDER 2 ltac:(lia)). lia.
Qed.

(** Make [ORDER / 2] a variable [h] with its bounds, for [lia]. *)
Ltac halve ORDER H :=
  let h := fresh "h" in
  pose proof (half_bounds ORDER H) as (? & ? & ?);
  set (h := (ORDER / 2)%nat) in *; clearbody h.

Lemma insert_at_middle {A : Type} (s1 s2 : list A) (x : A) (i : nat) :
  i = length s1 -> insert_at i x (s1 ++ s2) = s1 ++ x :: s2.
Proof. intros ->. unfold insert_at. by rewrite take_app_length, drop_app_length. Qed.

Lemma list_insert_middle {A : Type} (a b : list A) (x y : A) (i : nat) :
  i = length a -> <[i:=y]> (a ++ x :: b) = a ++ y :: b.
Proof. intros ->. rewrite insert_app_r_alt by lia. by rewrite Nat.sub_diag. Qed.

Lemma at_index_middle {A : Type} (a b : list A) (x : A) (i : nat) :
  i = length a -> at_index (a ++ x :: b) i = Ok x.
Proof. intros ->. unfold at_index. by rewrite list_lookup_middle. Qed.

Lemma child_middle {V : Type} (s : list (K * V)) z (a b : list (node V)) (x : node V) (i : nat) :
  i = length a -> child (BTreeNode s z (a ++ x :: b)) i = Ok x.
Proof. intros ->. unfold child. simpl. by apply at_index_middle. Qed.

(** Run the first call of a sequence, given its result [H]. *)
Ltac run_with H := rewrite H; cbn [mbind outcome_bind].

Section Insert.
Context {V : Type}.
Variable ORDER : nat.
Hypothesis ORDER_ge_3 : (3 <= ORDER)%nat.
Implicit Types (n c : node V) (s : list (K * V)) (a b : list (node V)).

Lemma inorder_cut s1 (m : K * V) s2 z z1 z2 a b :
  length a = S (length s1) -> length b = S (length s2) ->
  inorder (BTreeNode (s1 ++ m :: s2) z (a ++ b))
  = inorder (BTreeNode s1 z1 a) ++ m :: inorder (BTreeNode s2 z2 b).
Proof.
  intros Ha Hb. destruct (last_child s1 a Ha) as (al & Hal & Hfront).
  rewrite Hal. set (a0 := take (length s1) a) in *. clearbody a0.
  rewrite <- app_assoc. simpl app.
  rewrite inorder_node by (done || (simpl; lia)).
  rewrite inorder_node_last by done.
  destruct b as [|b0 b]; [simpl in Hb; lia|]. simpl in Hb.
  simpl weave_after.
  rewrite <- (app_nil_l s2) at 2. rewrite <- (app_nil_l (b0 :: b)).
  rewrite inorder_node by (simpl; lia). simpl.
  by rewrite <- app_assoc.
Qed.

Lemma wf_every_child (P : node V -> bool) s z cc :
  every P (BTreeNode s z cc) = true -> Forall (fun c => every P c = true) cc.
Proof. intros H. by apply every_node_iff in H as [_ ?]. Qed.

(** What [splitChild] does to a full child [c] between [a] and [b]. *)
Lemma splitChild_spec s1 s2 z a c b :
  length a = length s1 -> wf ORDER c = true -> len c = (ORDER - 1)%nat ->
  (length (s1 ++ s2) < ORDER - 1)%nat ->
  exists c' m nc,
    splitChild ORDER (BTreeNode (s1 ++ s2) z (a ++ c :: b)) (length s1)
    = Ok (BTreeNode (s1 ++ m :: s2) z (a ++ c' :: nc :: b)) /\
    wf ORDER c' = true /\ wf ORDER nc = true /\
    height c' = height c /\ height nc = height c /\
    inorder c = inorder c' ++ m :: inorder nc /\
    eqw (size_of c' + size_of nc + 1) (size_of c) /\
    len c' = (ORDER / 2 - 1)%nat /\ len nc = (ORDER - 1 - ORDER / 2)%nat /\
    (every_below (fill_ok ORDER) c = true ->
     every (fill_ok ORDER) c' = true /\ every (fill_ok ORDER) nc = true).
Proof.
  intros Ha Hwf Hlen Hcap.
  unfold splitChild. rewrite child_middle by done. cbn [mbind outcome_bind].
  rewrite Hlen, Nat.eqb_refl. cbn [assert mbind outcome_bind].
  destruct (lookup_lt_is_Some_2 (slots c) (ORDER / 2 - 1)) as [m Hm].
  { fold (len c). rewrite Hlen. halve ORDER ORDER_ge_3. lia. }
  assert (Hslots : slots c = take (ORDER / 2 - 1) (slots c) ++ m :: drop (ORDER / 2) (slots c)).
  { rewrite <- (take_drop_middle _ _ _ Hm) at 1. do 3 f_equal.
    halve ORDER ORDER_ge_3. lia. }
  assert (Hcapb : (ORDER - 1 <=? len (BTreeNode (s1 ++ s2) z (a ++ c :: b)))%nat = false).
  { apply Nat.leb_gt. unfold len. simpl. done. }
  destruct c as [sc zc|sc zc ccc].
  - (* a leaf *)
    apply wf_leaf_iff in Hwf as [_ ->]. unfold len in Hlen. simpl in Hlen, Hm, Hslots.
    cbn [mbind outcome_bind slots]. unfold at_index. rewrite Hm.
    cbn [mbind outcome_bind]. rewrite Hcapb.
    eexists _, m, _. split.
    { simpl. rewrite insert_at_middle by done. rewrite list_insert_middle by done.
      rewrite (cons_middle _ a), app_assoc, insert_at_middle
        by (rewrite length_app; simpl; lia).
      rewrite <- app_assoc. simpl. reflexivity. }
    assert (Hl1 : length (take (ORDER / 2 - 1) sc) = (ORDER / 2 - 1)%nat).
    { rewrite length_take. halve ORDER ORDER_ge_3. lia. }
    assert (Hl2 : length (drop (ORDER / 2) sc) = (ORDER - 1 - ORDER / 2)%nat).
    { rewrite length_drop. lia. }
    repeat split.
    + apply wf_leaf_iff. rewrite Hl1. split; [halve ORDER ORDER_ge_3; lia|].
      simpl. wrap_solve. rewrite Hlen. halve ORDER ORDER_ge_3. lia.
    + apply wf_leaf_iff. rewrite Hl2. split; [lia|done].
    + rewrite !inorder_leaf. done.
    + cbn [size_of]. apply eqw_wrap_eq. rewrite !wrap_eqw. apply eq_eqw.
      rewrite Hlen. halve ORDER ORDER_ge_3. lia.
    + unfold len. simpl. done.
    + unfold len. simpl. done.
    + unfold every, fill_ok, len. simpl. rewrite Hl1. rewrite andb_true_r.
      apply Nat.leb_le. lia.
    + unfold every, fill_ok, len. simpl. rewrite Hl2. rewrite andb_true_r.
      apply Nat.leb_le. halve ORDER ORDER_ge_3. lia.
  - (* an internal node *)
    apply wf_node_iff in Hwf as (_ & Hkids & Hh & Hz & Hwfc).
    unfold len in Hlen. simpl in Hlen, Hm, Hslots. rewrite Hlen in Hkids.
    assert (HO : S (ORDER - 1) = ORDER) by lia. rewrite HO in Hkids. clear HO.
    rewrite Hkids, Nat.ltb_irrefl. cbn [mbind outcome_bind slots].
    unfold at_index. rewrite Hm. cbn [mbind outcome_bind]. rewrite Hcapb.
    assert (Hmoved : take (ORDER - ORDER / 2) (drop (ORDER / 2) ccc) = drop (ORDER / 2) ccc).
    { apply take_ge. rewrite length_drop. lia. }
    rewrite Hmoved.
    assert (Hl1 : length (take (ORDER / 2 - 1) sc) = (ORDER / 2 - 1)%nat).
    { rewrite length_take. halve ORDER ORDER_ge_3. lia. }
    assert (Hl2 : length (drop (ORDER / 2) sc) = (ORDER - 1 - ORDER / 2)%nat).
    { rewrite length_drop. lia. }
    assert (Hk1 : length (take (ORDER / 2) ccc) = S (ORDER / 2 - 1)).
    { rewrite length_take. halve ORDER ORDER_ge_3. lia. }
    assert (Hk2 : length (drop (ORDER / 2) ccc) = S (ORDER - 1 - ORDER / 2)).
    { rewrite length_drop. halve ORDER ORDER_ge_3. lia. }
    assert (Hsum : sum_sizes ccc
                   = sum_sizes (take (ORDER / 2) ccc) + sum_sizes (drop (ORDER / 2) ccc)).
    { rewrite <- sum_sizes_app. by rewrite take_drop. }
    destruct (wf_node_intro ORDER (drop (ORDER / 2) sc)
                (wrap (Z.of_nat (ORDER - 1 - ORDER / 2)
                       + foldl (fun r x => wrap (r + size_of x)) 0 (drop (ORDER / 2) ccc)))
                (drop (ORDER / 2) ccc) (hmax ccc)) as [Hwf2 Hh2].
    { rewrite Hl2. lia. }
    { by rewrite Hl2. }
    { by apply Forall_drop. }
    { rewrite Hl2. etransitivity; [apply wrap_eqw|].
      apply eqw_add; [done|]. apply (foldl_wrap_sum _ 0). }
    { apply wrap_range. }
    { by apply Forall_drop. }
    set (nc := BTreeNode (drop (ORDER / 2) sc)
                 (wrap (Z.of_nat (ORDER - 1 - ORDER / 2)
                        + foldl (fun r x => wrap (r + size_of x)) 0 (drop (ORDER / 2) ccc)))
                 (drop (ORDER / 2) ccc)) in *.
    exists (BTreeNode (take (ORDER / 2 - 1) sc) (wrap (zc - wrap (size_of nc + 1)))
              (take (ORDER / 2) ccc)), m, nc.
    split.
    { simpl. rewrite insert_at_middle by done. rewrite list_insert_middle by done.
      rewrite (cons_middle _ a), app_assoc, insert_at_middle
        by (rewrite length_app; simpl; lia).
      rewrite <- app_assoc. simpl. reflexivity. }
    assert (Hncz : eqw (size_of nc)
                     (Z.of_nat (ORDER - 1 - ORDER / 2) + sum_sizes (drop (ORDER / 2) ccc))).
    { unfold nc. cbn [size_of]. etransitivity; [apply wrap_eqw|].
      apply eqw_add; [done|]. apply (foldl_wrap_sum _ 0). }
    assert (Hcz : eqw (wrap (zc - wrap (size_of nc + 1)))
                    (Z.of_nat (ORDER / 2 - 1) + sum_sizes (take (ORDER / 2) ccc))).
    { rewrite !wrap_eqw, Hncz, Hz, wrap_eqw. apply eq_eqw.
      rewrite Hsum, Hlen. halve ORDER ORDER_ge_3. lia. }
    destruct (wf_node_intro ORDER (take (ORDER / 2 - 1) sc)
                (wrap (zc - wrap (size_of nc + 1)))
                (take (ORDER / 2) ccc) (hmax ccc)) as [Hwf1 Hh1].
    { rewrite Hl1. halve ORDER ORDER_ge_3. lia. }
    { by rewrite Hl1. }
    { by apply Forall_take. }
    { by rewrite Hl1. }
    { apply wrap_range. }
    { by apply Forall_take. }
    repeat split.
    + exact Hwf1.
    + exact Hwf2.
    + by rewrite height_node.
    + by rewrite height_node.
    + rewrite Hslots at 1. rewrite <- (take_drop (ORDER / 2) ccc) at 1.
      apply inorder_cut; [by rewrite Hl1|by rewrite Hl2].
    + cbn [size_of]. apply eqw_wrap_eq. rewrite Hcz, Hncz, Hz, wrap_eqw.
      apply eq_eqw. rewrite Hsum, Hlen. halve ORDER ORDER_ge_3. lia.
    + unfold len. cbn [slots]. done.
    + unfold len. cbn [slots]. done.
    + rewrite every_unfold. apply andb_true_iff. split.
      * unfold fill_ok, len. cbn [slots].
        rewrite Hl1. by apply Nat.leb_le.
      * cbn [kids]. apply forallb_Forall, Forall_take.
        by apply forallb_Forall.
    + rewrite every_unfold. apply andb_true_iff. split.
      * unfold fill_ok, len. cbn [slots nc].
        rewrite Hl2. apply Nat.leb_le. halve ORDER ORDER_ge_3. lia.
      * cbn [kids nc]. apply forallb_Forall, Forall_drop.
        by apply forallb_Forall.
Qed.


Lemma locate_unique n (key : K) (i : nat) :
  (i <= len n)%nat ->
  Forall (fun x => x.1 < key) (take i (slots n)) ->
  (forall y, slots n !! i = Some y -> key <= y.1) ->
  locate n key = i.
Proof.
  intros Hi Hlt Hge.
  destruct (locate_bounds n key) as (Hle & Hbelow & _).
  destruct (lt_eq_lt_dec (locate n key) i) as [[Hlt'|Heq]|Hgt]; [|done|].
  - destruct (lookup_lt_is_Some_2 (slots n) (locate n key)) as [y Hy].
    { fold (len n). lia. }
    pose proof (slot_at_above key n y Hy) as Hky.
    rewrite Forall_lookup in Hlt. specialize (Hlt (locate n key) y).
    rewrite lookup_take_lt in Hlt by done. specialize (Hlt Hy). simpl in Hlt. lia.
  - destruct (lookup_lt_is_Some_2 (slots n) i) as [y Hy].
    { fold (len n). lia. }
    specialize (Hge y Hy). specialize (Hbelow i y.1 Hgt).
    unfold keys in Hbelow. rewrite list_lookup_fmap, Hy in Hbelow.
    specialize (Hbelow eq_refl). lia.
Qed.

Lemma own_slots_below n (key : K) :
  Forall (fun x => x.1 < key) (take (locate n key) (slots n)).
Proof.
  apply Forall_lookup. intros j x Hj.
  destruct (locate_bounds n key) as (_ & H & _).
  apply lookup_take_Some in Hj as [Hj Hlt].
  apply (H j); [done|]. unfold keys. by rewrite list_lookup_fmap, Hj.
Qed.

Lemma own_slots_above n (key : K) :
  StronglySorted slot_le (slots n) ->
  Forall (fun x => key <= x.1) (drop (locate n key) (slots n)).
Proof.
  intros Hs. rewrite <- (take_drop (locate n key) (slots n)) in Hs.
  apply StronglySorted_app_1_r in Hs.
  destruct (drop (locate n key) (slots n)) as [|y l] eqn:Hd; [done|].
  assert (Hy : slots n !! locate n key = Some y).
  { rewrite <- (Nat.add_0_r (locate n key)), <- lookup_drop, Hd. done. }
  apply slot_at_above in Hy. apply StronglySorted_inv in Hs as [_ Hall].
  constructor; [done|]. eapply Forall_impl; [exact Hall|].
  unfold slot_le. simpl. intros; lia.
Qed.

Lemma every_below_node (P : node V -> bool) s z cc :
  every_below P (BTreeNode s z cc) = forallb (every P) cc.
Proof. reflexivity. Qed.

Lemma insert_leaf (key : K) (val : V) s z :
  wf ORDER (BTreeLeaf s z) = true -> (length s < ORDER - 1)%nat ->
  inserted ORDER key val (BTreeLeaf s z)
    (BTreeLeaf (insert_at (locate (BTreeLeaf s z) key) (key, val) s) (wrap (z + 1))).
Proof.
  intros Hwf Hcap. apply wf_leaf_iff in Hwf as [_ Hz].
  set (idx := locate (BTreeLeaf s z) key).
  assert (Hidx : (idx <= length s)%nat).
  { apply (locate_bounds (BTreeLeaf s z) key). }
  assert (Hlen : length (insert_at idx (key, val) s) = S (length s)).
  { unfold insert_at. rewrite length_app. simpl. rewrite length_take, length_drop. lia. }
  unfold inserted. repeat split.
  - apply wf_leaf_iff. rewrite Hlen. split; [lia|]. rewrite Hz. wrap_solve.
  - apply wrap_eqw.
  - unfold len. simpl. lia.
  - unfold len. simpl. lia.
  - exists (take idx s), (drop idx s). rewrite !inorder_leaf. split; [|split].
    + by rewrite take_drop.
    + done.
    + intros Hs. split.
      * apply (own_slots_below (BTreeLeaf s z) key).
      * by apply (own_slots_above (BTreeLeaf s z) key).
Qed.

Lemma descend_inserted (key : K) (val : V) s1 s2 z a c1 b c2 :
  wf ORDER (BTreeNode (s1 ++ s2) z (a ++ c1 :: b)) = true ->
  length a = length s1 ->
  locate (BTreeNode (s1 ++ s2) z (a ++ c1 :: b)) key = length s1 ->
  inserted ORDER key val c1 c2 ->
  inserted ORDER key val (BTreeNode (s1 ++ s2) z (a ++ c1 :: b))
    (BTreeNode (s1 ++ s2) (wrap (z + 1)) (a ++ c2 :: b)).
Proof.
  intros Hwf Ha Hloc (Hwf2 & Hh2 & Hl2 & Hz2 & Hlen2 & Hfill2 & l1 & l2 & Hin1 & Hin2 & Hsorted).
  apply wf_node_iff in Hwf as (Hcap & Hkids & Hh & Hz & Hwfc).
  assert (Hb : length b = length s2).
  { rewrite !length_app in Hkids. simpl in Hkids. lia. }
  destruct (wf_node_intro ORDER (s1 ++ s2) (wrap (z + 1)) (a ++ c2 :: b)
              (hmax (a ++ c1 :: b))) as [Hwf' Hh'].
  { done. }
  { rewrite !length_app in *. simpl in *. lia. }
  { rewrite Forall_app, Forall_cons in Hh |- *. destruct Hh as (? & ? & ?).
    repeat split; try done. congruence. }
  { rewrite wrap_eqw, Hz, wrap_eqw, !sum_sizes_app, !sum_sizes_cons, Hz2.
    apply eq_eqw. lia. }
  { apply wrap_range. }
  { rewrite Forall_app, Forall_cons in Hwfc |- *. destruct Hwfc as (? & ? & ?). done. }
  unfold inserted. repeat split.
  - done.
  - by rewrite Hh', height_node.
  - apply wrap_eqw.
  - unfold len. simpl. lia.
  - unfold len. simpl. lia.
  - rewrite !every_below_node, !forallb_app. simpl forallb.
    rewrite !andb_true_iff. intros (Hfa & Hfc & Hfb). repeat split; try done.
    rewrite every_unfold in Hfc |- *. apply andb_true_iff in Hfc as [Hfc1 Hfc2].
    apply andb_true_iff. split.
    + unfold fill_ok in *. apply Nat.leb_le in Hfc1. apply Nat.leb_le. lia.
    + by apply Hfill2.
  - exists (weave a s1 ++ l1), (l2 ++ weave_after s2 b).
    rewrite !inorder_node by done. rewrite Hin1, Hin2. split; [|split].
    + by rewrite <- !app_assoc.
    + rewrite <- !app_assoc. done.
    + intros Hs.
      destruct (bracket key s1 s2 z a c1 b Ha Hb Hloc) as (Hbelow & Habove & _).
      { by rewrite inorder_node, Hin1. }
      destruct Hsorted as [Hl1 Hl2'].
      { rewrite Hin1.
        apply StronglySorted_app_1_r, StronglySorted_app_1_l in Hs. done. }
      rewrite !Forall_app. done.
Qed.

(** The node after [splitChild] on its full child [c]. *)
Lemma split_step (key : K) s1 s2 z a c b :
  wf ORDER (BTreeNode (s1 ++ s2) z (a ++ c :: b)) = true ->
  length a = length s1 -> len c = (ORDER - 1)%nat ->
  (length (s1 ++ s2) < ORDER - 1)%nat ->
  locate (BTreeNode (s1 ++ s2) z (a ++ c :: b)) key = length s1 ->
  exists c' m nc,
    splitChild ORDER (BTreeNode (s1 ++ s2) z (a ++ c :: b)) (length s1)
    = Ok (BTreeNode (s1 ++ m :: s2) z (a ++ c' :: nc :: b)) /\
    wf ORDER (BTreeNode (s1 ++ m :: s2) z (a ++ c' :: nc :: b)) = true /\
    inorder (BTreeNode (s1 ++ m :: s2) z (a ++ c' :: nc :: b))
    = inorder (BTreeNode (s1 ++ s2) z (a ++ c :: b)) /\
    height (BTreeNode (s1 ++ m :: s2) z (a ++ c' :: nc :: b))
    = height (BTreeNode (s1 ++ s2) z (a ++ c :: b)) /\
    (every_below (fill_ok ORDER) (BTreeNode (s1 ++ s2) z (a ++ c :: b)) = true ->
     every_below (fill_ok ORDER) (BTreeNode (s1 ++ m :: s2) z (a ++ c' :: nc :: b)) = true) /\
    (len c' < ORDER - 1)%nat /\ (len nc < ORDER - 1)%nat /\
    height c' = height c /\ height nc = height c /\
    locate (BTreeNode (s1 ++ m :: s2) z (a ++ c' :: nc :: b)) key
    = (if key >? m.1 then S (length s1) else length s1).
Proof.
  intros Hwf Ha Hlen Hcap Hloc.
  pose proof Hwf as Hwf0.
  apply wf_node_iff in Hwf as (_ & Hkids & Hh & Hz & Hwfc).
  assert (Hb : length b = length s2).
  { rewrite !length_app in Hkids. simpl in Hkids. lia. }
  assert (Hwc : wf ORDER c = true).
  { rewrite Forall_app, Forall_cons in Hwfc. by destruct Hwfc as (_ & ? & _). }
  destruct (splitChild_spec s1 s2 z a c b Ha Hwc Hlen Hcap)
    as (c' & m & nc & Hsplit & Hwf1 & Hwf2 & Hh1 & Hh2 & Hin & Hsz & Hl1 & Hl2 & Hfill).
  exists c', m, nc.
  destruct (wf_node_intro ORDER (s1 ++ m :: s2) z (a ++ c' :: nc :: b)
              (hmax (a ++ c :: b))) as [Hwf' Hh'].
  { rewrite length_app in *. simpl. lia. }
  { rewrite !length_app in *. simpl in *. lia. }
  { rewrite Forall_app, Forall_cons in Hh. destruct Hh as (? & Hc & ?).
    rewrite Forall_app, !Forall_cons. repeat split; try done; congruence. }
  { rewrite Hz, wrap_eqw, !sum_sizes_app, !sum_sizes_cons, <- Hsz.
    apply eq_eqw. rewrite !length_app. simpl length. lia. }
  { rewrite Hz. apply wrap_range. }
  { rewrite Forall_app, Forall_cons in Hwfc. destruct Hwfc as (? & ? & ?).
    rewrite Forall_app, !Forall_cons. done. }
  split; [done|]. split; [done|]. split; [|split; [|split; [|split; [|split; [|split; [|split]]]]]].
  - rewrite !inorder_node by (done || (simpl; lia)). simpl weave_after.
    rewrite Hin. by rewrite <- !app_assoc.
  - by rewrite Hh', height_node.
  - rewrite !every_below_node, !forallb_app. simpl forallb.
    rewrite !andb_true_iff. intros (Hfa & Hfc & Hfb).
    rewrite every_unfold in Hfc. apply andb_true_iff in Hfc as [_ Hfc].
    destruct (Hfill Hfc) as [? ?]. done.
  - rewrite Hl1. halve ORDER ORDER_ge_3. lia.
  - rewrite Hl2. halve ORDER ORDER_ge_3. lia.
  - done.
  - done.
  - pose proof (slots_below key s1 s2 z a c b Hloc) as Hbelow.
    destruct (Z.gtb_spec key m.1) as [Hgt|Hle].
    + apply locate_unique.
      * unfold len. simpl. rewrite length_app. simpl. lia.
      * simpl slots. rewrite (cons_middle m s1 s2), app_assoc.
        rewrite take_app_length' by (rewrite length_app; simpl; lia).
        rewrite Forall_app, Forall_singleton. split; [done|lia].
      * intros y Hy. simpl slots in Hy.
        rewrite (cons_middle m s1 s2), app_assoc in Hy.
        rewrite lookup_app_r in Hy by (rewrite length_app; simpl; lia).
        rewrite length_app in Hy. simpl in Hy.
        replace (S (length s1) - (length s1 + 1))%nat with 0%nat in Hy by lia.
        apply (slot_at_above key (BTreeNode (s1 ++ s2) z (a ++ c :: b))).
        rewrite Hloc. simpl slots.
        rewrite lookup_app_r by lia. by rewrite Nat.sub_diag.
    + apply locate_unique.
      * unfold len. simpl. rewrite length_app. simpl. lia.
      * simpl slots. by rewrite take_app_length.
      * intros y Hy. simpl slots in Hy.
        rewrite list_lookup_middle in Hy by done. injection Hy as <-. lia.
Qed.

Lemma insertNonFull_leaf (f : nat) s z (key : K) (val : V) :
  insertNonFull ORDER (S f) (BTreeLeaf s z) key val
  = if (ORDER - 1 <=? length s)%nat then Fail OutOfBounds
    else Ok (BTreeLeaf (insert_at (locate (BTreeLeaf s z) key) (key, val) s) (wrap (z + 1))).
Proof. reflexivity. Qed.

Lemma insertNonFull_node (f : nat) s z cc (key : K) (val : V) :
  insertNonFull ORDER (S f) (BTreeNode s z cc) key val
  = let n := BTreeNode s z cc in
    let idx := locate n key in
    c ← child n idx;
    p ← (if (len c =? ORDER - 1)%nat then
           n1 ← splitChild ORDER n idx;
           sep ← at_index (keys n1) idx;
           Ok (n1, if key >? sep then (idx + 1)%nat else idx)
         else Ok (n, idx));
    c1 ← child p.1 p.2;
    c2 ← insertNonFull ORDER f c1 key val;
    Ok (set_size (set_child p.1 p.2 c2) (wrap (size_of (set_child p.1 p.2 c2) + 1))).
Proof.
  cbn [insertNonFull]. cbv zeta.
  destruct (child (BTreeNode s z cc) (locate (BTreeNode s z cc) key)) as [c|e];
    cbn [mbind outcome_bind]; [|done].
  destruct (len c =? ORDER - 1)%nat; cbn [mbind outcome_bind]; [|done].
  destruct (splitChild ORDER (BTreeNode s z cc) (locate (BTreeNode s z cc) key)) as [n1|e];
    cbn [mbind outcome_bind]; [|done].
  destruct (at_index (keys n1) (locate (BTreeNode s z cc) key)) as [sep|e];
    cbn [mbind outcome_bind]; done.
Qed.

Lemma inserted_after_split (key : K) (val : V) n n1 n2 :
  inserted ORDER key val n1 n2 ->
  inorder n1 = inorder n -> height n1 = height n -> isLeaf n1 = isLeaf n ->
  size_of n1 = size_of n -> (len n <= len n2 <= len n + 1)%nat ->
  (every_below (fill_ok ORDER) n = true -> every_below (fill_ok ORDER) n1 = true) ->
  inserted ORDER key val n n2.
Proof.
  intros (Hwf & Hh & Hl & Hz & _ & Hfill & l1 & l2 & Hin1 & Hin2 & Hsorted)
         Hin Hh1 Hl1 Hz1 Hlen Hfill1.
  unfold inserted. rewrite <- Hin, <- Hh1, <- Hl1, <- Hz1.
  repeat split; try done; try lia.
  - by destruct Hz.
  - auto.
  - exists l1, l2. done.
Qed.

Lemma insertNonFull_spec (fuel : nat) n (key : K) (val : V) :
  wf ORDER n = true -> (len n < ORDER - 1)%nat -> (height n < fuel)%nat ->
  returns (insertNonFull ORDER fuel n key val) (inserted ORDER key val n).
Proof.
  revert n. induction fuel as [|f IH]; intros n Hwf Hcap Hfuel; [lia|].
  destruct n as [s z|s z cc].
  - rewrite insertNonFull_leaf. unfold len in Hcap. simpl in Hcap.
    destruct (Nat.leb_spec (ORDER - 1) (length s)); [lia|].
    eexists. split; [done|]. by apply insert_leaf.
  - rewrite insertNonFull_node. cbv zeta.
    pose proof (wf_kids_length ORDER _ Hwf eq_refl) as Hkids.
    destruct (lookup_lt_is_Some_2 cc (locate (BTreeNode s z cc) key)) as [c Hc].
    { pose proof (locate_bounds (BTreeNode s z cc) key) as [Hle _].
      simpl in Hkids. lia. }
    destruct (node_split (BTreeNode s z cc) _ c eq_refl Hkids Hc)
      as (s1 & s2 & a & b & z' & Heq & Hs1 & Ha & Hb).
    injection Heq as -> -> ->. clear Hc Hkids.
    assert (Hloc : locate (BTreeNode (s1 ++ s2) z' (a ++ c :: b)) key = length s1) by done.
    rewrite Hloc. rewrite child_middle by lia. cbn [mbind outcome_bind].
    pose proof Hwf as Hwf0.
    apply wf_node_iff in Hwf0 as (_ & _ & Hh & _ & Hwfc).
    assert (Hwc : wf ORDER c = true).
    { rewrite Forall_app, Forall_cons in Hwfc. by destruct Hwfc as (_ & ? & _). }
    assert (Hhc : (height c < f)%nat).
    { pose proof (height_child (BTreeNode (s1 ++ s2) z' (a ++ c :: b)) c (length a)) as H.
      simpl kids in H. rewrite list_lookup_middle in H by done. specialize (H eq_refl). lia. }
    destruct (Nat.eqb_spec (len c) (ORDER - 1)) as [Hfull|Hfree].
    + destruct (split_step key s1 s2 z' a c b Hwf ltac:(lia) Hfull Hcap Hloc)
        as (c' & m & nc & Hsplit & Hwf1 & Hin1 & Hh1 & Hfill1 & Hl1 & Hl2 & Hhc1 & Hhc2 & Hloc1).
      run_with Hsplit.
      unfold keys at 1. cbn [slots]. rewrite fmap_app, fmap_cons.
      rewrite at_index_middle by (by rewrite length_fmap).
      cbn [mbind outcome_bind fst snd].
      destruct (key >? m.1) eqn:Hgt.
      * rewrite (cons_middle c' a), (cons_middle m s1), !app_assoc in *.
        rewrite child_middle by (rewrite length_app; simpl; lia).
        cbn [mbind outcome_bind].
        destruct (IH nc) as (c2 & Hc2 & Hins); [|done|lia|].
        { pose proof Hwf1 as Hw. apply wf_node_iff in Hw as (_ & _ & _ & _ & Hw).
          rewrite Forall_app, Forall_cons in Hw. by destruct Hw as (_ & ? & _). }
        run_with Hc2. eexists. split; [reflexivity|].
        unfold set_child. cbn [kids set_kids set_size size_of].
        rewrite list_insert_middle by (rewrite length_app; simpl; lia).
        eapply inserted_after_split.
        -- apply descend_inserted; [done| |rewrite Hloc1|exact Hins];
             rewrite !length_app; simpl; lia.
        -- rewrite Hin1. done.
        -- done.
        -- done.
        -- done.
        -- unfold len. simpl. rewrite !length_app. simpl. lia.
        -- done.
      * rewrite child_middle by lia. cbn [mbind outcome_bind].
        destruct (IH c') as (c2 & Hc2 & Hins); [|done|lia|].
        { pose proof Hwf1 as Hw. apply wf_node_iff in Hw as (_ & _ & _ & _ & Hw).
          rewrite Forall_app, Forall_cons in Hw. by destruct Hw as (_ & ? & _). }
        run_with Hc2. eexists. split; [reflexivity|].
        unfold set_child. cbn [kids set_kids set_size size_of].
        rewrite list_insert_middle by lia.
        eapply inserted_after_split.
        -- apply descend_inserted; [done|lia|by rewrite Hloc1|exact Hins].
        -- done.
        -- done.
        -- done.
        -- done.
        -- unfold len. simpl. rewrite !length_app. simpl. lia.
        -- done.
    + cbn [mbind outcome_bind fst snd]. rewrite child_middle by lia.
      cbn [mbind outcome_bind].
      destruct (IH c) as (c2 & Hc2 & Hins); [done| |lia|].
      { pose proof (wf_cap ORDER c Hwc). lia. }
      run_with Hc2. eexists. split; [reflexivity|].
      unfold set_child. cbn [kids set_kids set_size size_of].
      rewrite list_insert_middle by lia.
      apply descend_inserted; [done|lia|done|done].
Qed.

Lemma insert_spec (t : node V) (key : K) (val : V) :
  wf ORDER t = true ->
  returns (insert ORDER t key val) (fun t' =>
    wf ORDER t' = true /\
    eqw (size_of t') (size_of t + 1) /\
    (min_fill ORDER t = true -> min_fill ORDER t' = true) /\
    (height t <= height t' <= height t + 1)%nat /\
    exists l1 l2,
      inorder t = l1 ++ l2 /\ inorder t' = l1 ++ (key, val) :: l2 /\
      (StronglySorted slot_le (inorder t) ->
       Forall (fun x => x.1 < key) l1 /\ Forall (fun x => key <= x.1) l2)).
Proof.
  intros Hwf. unfold insert.
  destruct (Nat.eqb_spec (len t) (ORDER - 1)) as [Hfull|Hfree].
  - assert (Hroot : wf ORDER (BTreeNode ([] ++ []) (size_of t) ([] ++ t :: [])) = true
                    /\ height (BTreeNode ([] ++ []) (size_of t) ([] ++ t :: [])) = S (height t)).
    { apply wf_node_intro; simpl; try done.
      - lia.
      - by constructor.
      - unfold sum_sizes. simpl. apply eq_eqw. lia.
      - by apply (wf_size_range ORDER).
      - by constructor. }
    destruct Hroot as [Hwr Hhr].
    destruct (split_step key [] [] (size_of t) [] t [] Hwr eq_refl Hfull
                ltac:(simpl; lia) eq_refl)
      as (c' & m & nc & Hsplit & Hwf1 & Hin1 & Hh1 & Hfill1 & _).
    simpl app in *. simpl length in Hsplit. run_with Hsplit.
    destruct (insertNonFull_spec (height (BTreeNode [m] (size_of t) [c'; nc]) + 1)
                (BTreeNode [m] (size_of t) [c'; nc]) key val Hwf1)
      as (t' & Ht' & Hwf' & Hh' & _ & Hz' & _ & Hfill' & l1 & l2 & Hl1 & Hl2 & Hsorted).
    { unfold len. simpl. lia. }
    { lia. }
    exists t'. split; [done|]. repeat split.
    + done.
    + by destruct Hz'.
    + intros Hmin. apply Hfill', Hfill1.
      rewrite every_below_node. simpl. rewrite andb_true_r.
      rewrite every_unfold. apply andb_true_iff. split; [|done].
      unfold fill_ok. apply Nat.leb_le. rewrite Hfull. halve ORDER ORDER_ge_3. lia.
    + rewrite Hh', Hh1, Hhr. lia.
    + rewrite Hh', Hh1, Hhr. lia.
    + exists l1, l2. rewrite Hin1 in Hl1, Hsorted. done.
  - destruct (insertNonFull_spec (height t + 1) t key val Hwf)
      as (t' & Ht' & Hwf' & Hh' & _ & Hz' & _ & Hfill' & l1 & l2 & Hl1 & Hl2 & Hsorted).
    { pose proof (wf_cap ORDER t Hwf). lia. }
    { lia. }
    exists t'. split; [done|]. repeat split; try done; try lia.
    + by destruct Hz'.
    + exists l1, l2. done.
Qed.

Lemma wf_empty : wf (V:=V) ORDER empty = true.
Proof. apply wf_leaf_iff. simpl. split; [lia|done]. Qed.
End Insert.

(** C1, as the code has it.  [insert(key, value)] never overwrites and
    never fails: on every tree that satisfies the representation
    invariant it returns, the result satisfies the invariant again, its
    in-order walk is the old walk with [(key, value)] put in at one place
    (every old entry is kept, also one with the same key), and [size()]
    grows by one (as an [unsigned]). *)
Theorem insert_adds_entry {V : Type} (ORDER : nat) (t : node V) (key : K) (val : V) :
  (3 <= ORDER)%nat -> wf ORDER t = true ->
  returns (insert ORDER t key val) (fun t' =>
    wf ORDER t' = true /\
    size t' = wrap (size t + 1) /\
    (exists l1 l2, inorder t = l1 ++ l2 /\ inorder t' = l1 ++ (key, val) :: l2) /\
    length (filter (fun x => x.1 = key) (inorder t'))
    = S (length (filter (fun x => x.1 = key) (inorder t)))).
Proof.
  intros HO Hwf.
  destruct (insert_spec ORDER HO t key val Hwf)
    as (t' & Ht' & Hwf' & Hz & _ & _ & l1 & l2 & Hl1 & Hl2 & _).
  exists t'. split; [done|]. split; [done|]. split; [|split].
  - unfold size. apply eqw_wrap_eq in Hz.
    rewrite <- Hz. symmetry. apply wrap_small. by apply (wf_size_range ORDER).
  - eauto.
  - rewrite Hl1, Hl2, !filter_app, filter_cons, decide_True by done.
    rewrite !length_app. simpl. lia.
Qed.

Lemma insert_adds_entry_witness :
  returns (insert (V:=Z) 4
             (BTreeNode [(2, 20)] 4 [BTreeLeaf [(1, 10)] 1; BTreeLeaf [(3, 30); (4, 40)] 2])
             2 99)
    (fun t' => length (filter (fun x => x.1 = 2) (inorder t')) = 2%nat).
Proof.
  destruct (insert_adds_entry (V:=Z) 4
              (BTreeNode [(2, 20)] 4 [BTreeLeaf [(1, 10)] 1; BTreeLeaf [(3, 30); (4, 40)] 2])
              2 99 ltac:(lia) ltac:(reflexivity)) as (t' & Ht' & _ & _ & _ & Hcount).
  exists t'. split; [exact Ht'|]. rewrite Hcount. reflexivity.
Defined.

(** C4, as the code has it.  The minimum fill that [insert] maintains and
    the validator checks is [ORDER / 2 - 1] with integer division, that is
    floor(ORDER / 2) - 1: if every node but the root has at least that many
    keys, the same holds after [insert], which always returns.  The empty
    tree has the property.  (Nothing is said here about [remove].) *)
Theorem insert_keeps_min_fill {V : Type} (ORDER : nat) (t : node V) (key : K) (val : V) :
  (3 <= ORDER)%nat -> wf ORDER t = true -> min_fill ORDER t = true ->
  returns (insert ORDER t key val) (fun t' =>
    wf ORDER t' = true /\ min_fill ORDER t' = true) /\
  wf (V:=V) ORDER empty = true /\ min_fill (V:=V) ORDER empty = true.
Proof.
  intros HO Hwf Hmin. split; [|split].
  - destruct (insert_spec ORDER HO t key val Hwf) as (t' & Ht' & Hwf' & _ & Hfill & _).
    exists t'. auto.
  - by apply wf_empty.
  - reflexivity.
Qed.

Lemma insert_keeps_min_fill_witness :
  returns (insert (V:=Z) 3 (BTreeLeaf [(1, 10); (2, 20)] 2) 3 30)
    (fun t' => wf 3 t' = true /\ min_fill 3 t' = true).
Proof.
  apply (insert_keeps_min_fill (V:=Z) 3 (BTreeLeaf [(1, 10); (2, 20)] 2) 3 30);
    [lia|reflexivity|reflexivity].
Defined.

(** ** Merging and borrowing *)

Lemma isLeaf_height {V : Type} (n : node V) : isLeaf n = true <-> height n = 0%nat.
Proof. destruct n as [s z|s z cc]; [done|]. rewrite height_node. simpl. split; [done|lia]. Qed.

Lemma same_height_leaf {V : Type} (n m : node V) :
  height n = height m -> isLeaf n = isLeaf m.
Proof.
  intros H. destruct (isLeaf n) eqn:Hn, (isLeaf m) eqn:Hm; try done.
  - apply isLeaf_height in Hn. rewrite Hn in H. symmetry in H.
    apply isLeaf_height in H. congruence.
  - apply isLeaf_height in Hm. rewrite Hm in H.
    apply isLeaf_height in H. congruence.
Qed.

Lemma delete_at {A : Type} (l1 l2 : list A) (x : A) (i : nat) :
  i = length l1 -> delete i (l1 ++ x :: l2) = l1 ++ l2.
Proof. intros ->. by rewrite delete_middle. Qed.

Lemma merge_kids {A : Type} (a b : list A) (c c' d : A) (i : nat) :
  i = length a -> delete (i + 1)%nat (<[i:=c']> (a ++ c :: d :: b)) = a ++ c' :: b.
Proof.
  intros ->. rewrite list_insert_middle by done.
  rewrite (cons_middle c' a), app_assoc.
  rewrite delete_at by (rewrite length_app; simpl; lia).
  by rewrite <- app_assoc.
Qed.

Lemma child_middle2 {V : Type} (s : list (K * V)) z (a b : list (node V))
    (x y : node V) (i : nat) :
  i = S (length a) -> child (BTreeNode s z (a ++ x :: y :: b)) i = Ok y.
Proof.
  intros ->. rewrite (cons_middle x a), app_assoc.
  apply child_middle. rewrite length_app. simpl. lia.
Qed.

Lemma insert2_middle {A : Type} (a b : list A) (x y x' y' : A) (i j : nat) :
  i = length a -> j = S (length a) ->
  <[i:=x']> (<[j:=y']> (a ++ x :: y :: b)) = a ++ x' :: y' :: b /\
  <[j:=y']> (<[i:=x']> (a ++ x :: y :: b)) = a ++ x' :: y' :: b.
Proof.
  intros -> ->. split.
  - rewrite (cons_middle x a), app_assoc.
    rewrite (list_insert_middle (a ++ [x])) by (rewrite length_app; simpl; lia).
    rewrite <- app_assoc. simpl app. by rewrite list_insert_middle.
  - rewrite list_insert_middle by done.
    rewrite (cons_middle x' a), app_assoc.
    rewrite (list_insert_middle (a ++ [x'])) by (rewrite length_app; simpl; lia).
    by rewrite <- app_assoc.
Qed.

Lemma inorder_single {V : Type} (z : Z) (x : node V) :
  inorder (BTreeNode [] z [x]) = inorder x.
Proof. exact (inorder_node_last [] z [] x eq_refl). Qed.

Lemma and_pair (A B C : Prop) : A /\ B -> C -> A /\ B /\ C.
Proof. tauto. Qed.

Lemma last_split {A : Type} (l : list A) (x : A) (i : nat) :
  l !! i = Some x -> length l = S i -> l = take i l ++ [x].
Proof.
  intros Hx Hl. rewrite <- (take_drop_middle l i x Hx) at 1.
  by rewrite drop_ge by lia.
Qed.

Section Neighbours.
Context {V : Type}.
Implicit Types (n : node V) (s : list (K * V)) (a b : list (node V)).

(** *** The walk around two neighbouring children *)

Lemma node_split2 n i x y :
  isLeaf n = false -> length (kids n) = S (len n) ->
  kids n !! i = Some x -> kids n !! S i = Some y ->
  exists s1 sep s2 a b z,
    n = BTreeNode (s1 ++ sep :: s2) z (a ++ x :: y :: b) /\
    length s1 = i /\ length a = i /\ length b = length s2.
Proof.
  intros Hleaf Hlen Hx Hy.
  destruct (node_split n i x Hleaf Hlen Hx) as (s1 & s2 & a & b & z & -> & Hs1 & Ha & Hb).
  cbn [kids] in Hy. rewrite lookup_app_r in Hy by lia.
  replace (S i - length a)%nat with 1%nat in Hy by lia.
  destruct b as [|y' b]; [done|]. injection Hy as ->.
  destruct s2 as [|sep s2]; [done|].
  exists s1, sep, s2, a, b, z. simpl in Hb. repeat split; try done. lia.
Qed.

Lemma before_first s1 (sep : K * V) s2 z a x y b :
  length a = length s1 ->
  before (BTreeNode (s1 ++ sep :: s2) z (a ++ x :: y :: b)) (length s1) = weave a s1.
Proof. apply before_split. Qed.

Lemma after_first s1 (sep : K * V) s2 z a x y b :
  length a = length s1 ->
  after (BTreeNode (s1 ++ sep :: s2) z (a ++ x :: y :: b)) (length s1)
  = sep :: inorder y ++ weave_after s2 b.
Proof. intros Ha. by rewrite after_split. Qed.

Lemma before_second s1 (sep : K * V) s2 z a x y b :
  length a = length s1 ->
  before (BTreeNode (s1 ++ sep :: s2) z (a ++ x :: y :: b)) (S (length s1))
  = weave a s1 ++ inorder x ++ [sep].
Proof.
  intros Ha. rewrite (cons_middle sep s1), (cons_middle x a), !app_assoc.
  replace (S (length s1)) with (length (s1 ++ [sep])) by (rewrite length_app; simpl; lia).
  rewrite before_split by (rewrite !length_app; simpl; lia).
  rewrite weave_app by done. cbn [weave]. by rewrite <- app_assoc.
Qed.

Lemma after_second s1 (sep : K * V) s2 z a x y b :
  length a = length s1 ->
  after (BTreeNode (s1 ++ sep :: s2) z (a ++ x :: y :: b)) (S (length s1))
  = weave_after s2 b.
Proof.
  intros Ha. rewrite (cons_middle sep s1), (cons_middle x a), !app_assoc.
  replace (S (length s1)) with (length (s1 ++ [sep])) by (rewrite length_app; simpl; lia).
  by rewrite after_split by (rewrite !length_app; simpl; lia).
Qed.

Lemma inorder_two s1 (sep : K * V) s2 z a x y b :
  length a = length s1 -> length b = length s2 ->
  inorder (BTreeNode (s1 ++ sep :: s2) z (a ++ x :: y :: b))
  = weave a s1 ++ inorder x ++ sep :: inorder y ++ weave_after s2 b.
Proof. intros Ha Hb. rewrite inorder_node by (done || (simpl; lia)). done. Qed.
End Neighbours.

Ltac len_solve := unfold len; cbn [slots]; rewrite ?length_app; cbn [length]; lia.

Section Rebalance.
Context {V : Type}.
Variable ORDER : nat.
Hypothesis ORDER_ge_3 : (3 <= ORDER)%nat.
Implicit Types (n c sib : node V) (s : list (K * V)) (a b : list (node V)).

(** The parts of a well-formed node around two neighbouring children. *)
Lemma wf_around2 s1 (sep : K * V) s2 z a c sib b :
  wf ORDER (BTreeNode (s1 ++ sep :: s2) z (a ++ c :: sib :: b)) = true ->
  length a = length s1 ->
  length b = length s2 /\ wf ORDER c = true /\ wf ORDER sib = true /\
  height c = hmax (a ++ c :: sib :: b) /\ height sib = hmax (a ++ c :: sib :: b) /\
  Forall (fun x => height x = hmax (a ++ c :: sib :: b)) a /\
  Forall (fun x => height x = hmax (a ++ c :: sib :: b)) b /\
  Forall (fun x => wf ORDER x = true) a /\ Forall (fun x => wf ORDER x = true) b /\
  z = wrap (Z.of_nat (length s1 + S (length s2))
            + (sum_sizes a + (size_of c + (size_of sib + sum_sizes b)))) /\
  (length s1 + S (length s2) <= ORDER - 1)%nat.
Proof.
  intros Hwf Ha. apply wf_node_iff in Hwf as (Hcap & Hkids & Hh & Hz & Hwfc).
  rewrite !length_app in *. simpl length in *.
  rewrite !Forall_app, !Forall_cons in Hh, Hwfc.
  destruct Hh as (? & ? & ? & ?), Hwfc as (? & ? & ? & ?).
  rewrite !sum_sizes_app, !sum_sizes_cons in Hz.
  repeat split; try done. lia.
Qed.

Lemma merge_spec s1 (sep : K * V) s2 z a c sib b n' :
  wf ORDER (BTreeNode (s1 ++ sep :: s2) z (a ++ c :: sib :: b)) = true ->
  length a = length s1 ->
  merge ORDER (BTreeNode (s1 ++ sep :: s2) z (a ++ c :: sib :: b)) (length s1) = Ok n' ->
  exists c',
    n' = BTreeNode (s1 ++ s2) z (a ++ c' :: b) /\
    wf ORDER n' = true /\
    height n' = height (BTreeNode (s1 ++ sep :: s2) z (a ++ c :: sib :: b)) /\
    inorder c' = inorder c ++ sep :: inorder sib /\
    len c' = (len c + len sib + 1)%nat.
Proof.
  intros Hwf Ha H.
  destruct (wf_around2 _ _ _ _ _ _ _ _ Hwf Ha)
    as (Hb & Hwc & Hws & Hhc & Hhs & Hha & Hhb & Hwa & Hwb & Hz & Hcap).
  unfold merge in H.
  rewrite (child_middle _ _ a _ c (length s1)) in H by lia.
  cbn [mbind outcome_bind] in H.
  rewrite (cons_middle c a), app_assoc in H.
  rewrite (child_middle _ _ (a ++ [c]) _ sib) in H by (rewrite length_app; simpl; lia).
  cbn [mbind outcome_bind] in H. rewrite <- app_assoc in H. simpl app in H.
  cbn [slots kids] in H. rewrite at_index_middle in H by lia.
  destruct (assert ((len c <=? ORDER / 2 - 1)%nat && (len sib <=? ORDER / 2 - 1)%nat))
    as [[]|e] eqn:Hassert; cbn [mbind outcome_bind] in H; [|done].
  apply assert_Ok, andb_true_iff in Hassert as [Hlc Hls].
  apply Nat.leb_le in Hlc, Hls.
  assert (Hleaf : isLeaf c = isLeaf sib) by (apply same_height_leaf; congruence).
  destruct c as [sc zc|sc zc cc]; destruct sib as [ss zs|ss zs sk]; try done.
  - (* two leaves *)
    cbn [isLeaf negb mbind outcome_bind kids slots size_of set_slots set_kids set_size] in H.
    injection H as <-. rewrite delete_at, merge_kids by lia.
    eexists. split; [reflexivity|].
    apply wf_leaf_iff in Hwc as [_ Hzc]. apply wf_leaf_iff in Hws as [_ Hzs].
    unfold len in Hlc, Hls. simpl in Hlc, Hls.
    assert (Hwc' : wf ORDER (BTreeLeaf (sc ++ sep :: ss) (wrap (zc + wrap (zs + 1)))) = true).
    { apply wf_leaf_iff. rewrite length_app. simpl length. split.
      - halve ORDER ORDER_ge_3. lia.
      - rewrite Hzc, Hzs. wrap_solve. }
    destruct (wf_node_intro ORDER (s1 ++ s2) z
                (a ++ BTreeLeaf (sc ++ sep :: ss) (wrap (zc + wrap (zs + 1))) :: b)
                (hmax (a ++ BTreeLeaf sc zc :: BTreeLeaf ss zs :: b))) as [Hwf' Hh'].
    { rewrite length_app in *. lia. }
    { rewrite !length_app. simpl. lia. }
    { rewrite Forall_app, Forall_cons. by repeat split. }
    { rewrite Hz, wrap_eqw, !sum_sizes_app, !sum_sizes_cons. cbn [size_of].
      rewrite !wrap_eqw. apply eq_eqw. rewrite !length_app. simpl length. lia. }
    { rewrite Hz. apply wrap_range. }
    { rewrite Forall_app, Forall_cons. done. }
    split; [done|]. split; [by rewrite Hh', height_node|].
    split; [by rewrite !inorder_leaf|]. len_solve.
  - (* two internal nodes *)
    cbn [isLeaf negb children mbind outcome_bind kids slots size_of
         set_slots set_kids set_size] in H.
    injection H as <-. rewrite delete_at, merge_kids by lia.
    pose proof Hwc as Hwc0. pose proof Hws as Hws0.
    apply wf_node_iff in Hwc0 as (_ & Hkc & Hhcc & Hzc & Hwcc).
    apply wf_node_iff in Hws0 as (_ & Hks & Hhsk & Hzs & Hwsk).
    unfold len in *. cbn [slots] in *.
    rewrite (take_ge cc), (take_ge sk) by lia.
    eexists. split; [reflexivity|].
    rewrite !height_node in Hhc, Hhs.
    assert (Hsame : hmax sk = hmax cc) by lia.
    destruct (wf_node_intro ORDER (sc ++ sep :: ss) (wrap (zc + wrap (zs + 1)))
                (cc ++ sk) (hmax cc)) as [Hwc' Hhc'].
    { rewrite length_app. simpl length. halve ORDER ORDER_ge_3. lia. }
    { rewrite !length_app. simpl length. lia. }
    { rewrite Forall_app. split; [done|]. by rewrite <- Hsame. }
    { rewrite Hzc, Hzs, !wrap_eqw, sum_sizes_app. apply eq_eqw.
      rewrite length_app. simpl length. lia. }
    { apply wrap_range. }
    { rewrite Forall_app. done. }
    destruct (wf_node_intro ORDER (s1 ++ s2) z
                (a ++ BTreeNode (sc ++ sep :: ss) (wrap (zc + wrap (zs + 1))) (cc ++ sk) :: b)
                (hmax (a ++ BTreeNode sc zc cc :: BTreeNode ss zs sk :: b))) as [Hwf' Hh'].
    { rewrite length_app in *. lia. }
    { rewrite !length_app. simpl. lia. }
    { rewrite Forall_app, Forall_cons. repeat split; try done.
      rewrite Hhc'. symmetry. by rewrite <- Hhc. }
    { rewrite Hz, wrap_eqw, !sum_sizes_app, !sum_sizes_cons. cbn [size_of].
      rewrite !wrap_eqw. apply eq_eqw. rewrite !length_app. simpl length. lia. }
    { rewrite Hz. apply wrap_range. }
    { rewrite Forall_app, Forall_cons. done. }
    split; [done|]. split; [by rewrite Hh', height_node|].
    split; [apply (inorder_cut ORDER); lia|]. len_solve.
Qed.

(** Two neighbouring children and their separator replaced by others of the
    same heights and the same total size. *)
Lemma wf_swap2 s1 (sep up : K * V) s2 z a c sib c' sib' b :
  wf ORDER (BTreeNode (s1 ++ sep :: s2) z (a ++ c :: sib :: b)) = true ->
  length a = length s1 ->
  wf ORDER c' = true -> wf ORDER sib' = true ->
  height c' = height c -> height sib' = height sib ->
  eqw (size_of c' + size_of sib') (size_of c + size_of sib) ->
  wf ORDER (BTreeNode (s1 ++ up :: s2) z (a ++ c' :: sib' :: b)) = true /\
  height (BTreeNode (s1 ++ up :: s2) z (a ++ c' :: sib' :: b))
  = height (BTreeNode (s1 ++ sep :: s2) z (a ++ c :: sib :: b)).
Proof.
  intros Hwf Ha Hwc' Hws' Hhc' Hhs' Hsz.
  destruct (wf_around2 _ _ _ _ _ _ _ _ Hwf Ha)
    as (Hb & Hwc & Hws & Hhc & Hhs & Hha & Hhb & Hwa & Hwb & Hz & Hcap).
  destruct (wf_node_intro ORDER (s1 ++ up :: s2) z (a ++ c' :: sib' :: b)
              (hmax (a ++ c :: sib :: b))) as [Hwf' Hh'].
  - rewrite length_app. simpl. lia.
  - rewrite !length_app. simpl. lia.
  - rewrite Forall_app, !Forall_cons. repeat split; try done; congruence.
  - rewrite Hz, wrap_eqw, !sum_sizes_app, !sum_sizes_cons.
    rewrite !length_app. simpl length.
    transitivity (Z.of_nat (length s1 + S (length s2))
                  + (sum_sizes a + ((size_of c' + size_of sib') + sum_sizes b))).
    + rewrite Hsz. apply eq_eqw. lia.
    + apply eq_eqw. lia.
  - rewrite Hz. apply wrap_range.
  - rewrite Forall_app, !Forall_cons. done.
  - split; [done|]. by rewrite Hh', height_node.
Qed.

Lemma borrowFromPrev_spec s1 (sep : K * V) s2 z a c sib b idx n' :
  wf ORDER (BTreeNode (s1 ++ sep :: s2) z (a ++ sib :: c :: b)) = true ->
  length a = length s1 -> idx = S (length s1) ->
  borrowFromPrev ORDER (BTreeNode (s1 ++ sep :: s2) z (a ++ sib :: c :: b)) idx = Ok n' ->
  exists c' sib' up mv,
    n' = BTreeNode (s1 ++ up :: s2) z (a ++ sib' :: c' :: b) /\
    wf ORDER n' = true /\
    height n' = height (BTreeNode (s1 ++ sep :: s2) z (a ++ sib :: c :: b)) /\
    inorder sib = inorder sib' ++ up :: mv /\
    inorder c' = mv ++ sep :: inorder c /\
    len c' = S (len c) /\ S (len sib') = len sib.
Proof.
  intros Hwf Ha -> H.
  destruct (wf_around2 _ _ _ _ _ _ _ _ Hwf Ha)
    as (Hb & Hws & Hwc & Hhs & Hhc & _).
  assert (Hleaf : isLeaf c = isLeaf sib) by (apply same_height_leaf; congruence).
  unfold borrowFromPrev in H.
  rewrite (child_middle2 _ _ a _ sib c (S (length s1))) in H by lia.
  cbn [mbind outcome_bind] in H.
  replace (S (length s1) - 1)%nat with (length s1) in H by lia.
  rewrite (child_middle _ _ a _ sib (length s1)) in H by lia.
  cbn [mbind outcome_bind slots kids] in H.
  destruct (ORDER - 1 <=? len c)%nat eqn:Hfull; [done|].
  apply Nat.leb_gt in Hfull.
  rewrite at_index_middle in H by lia. cbn [mbind outcome_bind] in H.
  destruct (len sib =? 0)%nat eqn:Hempty; [done|].
  apply Nat.eqb_neq in Hempty.
  unfold len in *.
  destruct c as [sc zc|sc zc cc]; destruct sib as [ss zs|ss zs sk]; try done;
    cbn [isLeaf negb assert slots kids size_of set_slots set_kids set_size] in *.
  - (* leaves: the last slot of the sibling goes up *)
    destruct (at_index ss (length ss - 1)) as [up|] eqn:Hup; [|done].
    cbn [mbind outcome_bind] in H. injection H as <-.
    apply at_index_Ok in Hup. apply last_split in Hup; [|lia].
    set (front := take (length ss - 1) ss) in *.
    assert (Hfront : S (length front) = length ss).
    { unfold front. rewrite length_take. lia. }
    clearbody front.
    rewrite list_insert_middle by lia.
    rewrite <- Ha, (proj1 (insert2_middle a b _ _ _ _ _ _ eq_refl eq_refl)).
    exists (BTreeLeaf (sep :: sc) (wrap (zc + 1))),
           (BTreeLeaf front (wrap (zs - 1))), up, [].
    split; [done|].
    apply wf_leaf_iff in Hwc as [Hcc Hzc]. apply wf_leaf_iff in Hws as [Hcs Hzs].
    apply and_pair.
    + apply wf_swap2 with (sep := sep) (c := BTreeLeaf ss zs) (sib := BTreeLeaf sc zc);
        try done.
      * apply wf_leaf_iff. split; [lia|]. rewrite Hzs. wrap_solve.
      * apply wf_leaf_iff. simpl length. split; [lia|]. rewrite Hzc. wrap_solve.
      * cbn [size_of]. eqw_lia.
    + rewrite !inorder_leaf. rewrite Hup at 1. repeat split; try done; len_solve.
  - (* internal nodes: the sibling's last child comes along *)
    destruct (at_index ss (length ss - 1)) as [up|] eqn:Hup; [|done].
    cbn [mbind outcome_bind] in H.
    destruct (at_index sk (length ss)) as [moved|] eqn:Hmv; [|done].
    cbn [mbind outcome_bind] in H. injection H as <-.
    apply at_index_Ok in Hup, Hmv.
    pose proof Hwc as Hwc0. pose proof Hws as Hws0.
    apply wf_node_iff in Hwc0 as (Hcc & Hkc & Hhcc & Hzc & Hwcc).
    apply wf_node_iff in Hws0 as (Hcs & Hks & Hhsk & Hzs & Hwsk).
    apply last_split in Hup; [|lia]. apply last_split in Hmv; [|lia].
    set (front := take (length ss - 1) ss) in *.
    set (fk := take (length ss) sk) in *.
    assert (Hfront : S (length front) = length ss).
    { unfold front. rewrite length_take. lia. }
    assert (Hfk : length fk = length ss).
    { unfold fk. rewrite length_take. lia. }
    clearbody front fk.
    rewrite (take_ge cc) by lia.
    rewrite list_insert_middle by lia.
    rewrite <- Ha, (proj1 (insert2_middle a b _ _ _ _ _ _ eq_refl eq_refl)).
    rewrite Hmv, Forall_app, Forall_singleton in Hhsk, Hwsk.
    destruct Hhsk as [Hhfk Hhm], Hwsk as [Hwfk Hwm].
    rewrite !height_node in Hhs, Hhc.
    assert (Hsame : hmax sk = hmax cc) by lia.
    rewrite <- Hmv in Hhfk, Hhm.
    destruct (wf_node_intro ORDER (sep :: sc)
                (wrap (wrap (zc + size_of moved) + 1)) (moved :: cc) (hmax cc))
      as [Hwc' Hhc'].
    { simpl length. lia. }
    { simpl length. lia. }
    { apply Forall_cons. split; [congruence|done]. }
    { rewrite Hzc, !wrap_eqw, sum_sizes_cons. apply eq_eqw. simpl length. lia. }
    { apply wrap_range. }
    { by apply Forall_cons. }
    destruct (wf_node_intro ORDER front
                (wrap (wrap (zs - size_of moved) - 1)) fk (hmax sk))
      as [Hws' Hhs'].
    { lia. }
    { lia. }
    { done. }
    { rewrite Hzs, !wrap_eqw. rewrite Hmv at 1.
      rewrite sum_sizes_app, sum_sizes_cons. apply eq_eqw.
      unfold sum_sizes at 2. simpl. lia. }
    { apply wrap_range. }
    { done. }
    eexists _, _, up, (inorder moved). split; [reflexivity|].
    apply and_pair.
    + apply wf_swap2 with (sep := sep) (c := BTreeNode ss zs sk) (sib := BTreeNode sc zc cc);
        try done.
      cbn [size_of]. eqw_lia.
    + split; [|split; [|split; len_solve]].
      * rewrite Hup at 1. rewrite Hmv at 1.
        rewrite (inorder_cut ORDER ORDER_ge_3 front up [] zs
                   (wrap (wrap (zs - size_of moved) - 1)) 0 fk [moved]) by (simpl; lia).
        by rewrite inorder_single.
      * rewrite (inorder_cut ORDER ORDER_ge_3 [] sep sc _ 0 zc [moved] cc) by (simpl; lia).
        by rewrite inorder_single.
Qed.

Lemma borrowFromNext_spec s1 (sep : K * V) s2 z a c sib b n' :
  wf ORDER (BTreeNode (s1 ++ sep :: s2) z (a ++ c :: sib :: b)) = true ->
  length a = length s1 ->
  borrowFromNext ORDER (BTreeNode (s1 ++ sep :: s2) z (a ++ c :: sib :: b)) (length s1)
  = Ok n' ->
  exists c' sib' up mv,
    n' = BTreeNode (s1 ++ up :: s2) z (a ++ c' :: sib' :: b) /\
    wf ORDER n' = true /\
    height n' = height (BTreeNode (s1 ++ sep :: s2) z (a ++ c :: sib :: b)) /\
    inorder c' = inorder c ++ sep :: mv /\
    inorder sib = mv ++ up :: inorder sib' /\
    len c' = S (len c) /\ S (len sib') = len sib.
Proof.
  intros Hwf Ha H.
  destruct (wf_around2 _ _ _ _ _ _ _ _ Hwf Ha)
    as (Hb & Hwc & Hws & Hhc & Hhs & _).
  assert (Hleaf : isLeaf c = isLeaf sib) by (apply same_height_leaf; congruence).
  unfold borrowFromNext in H.
  rewrite (child_middle _ _ a _ c (length s1)) in H by lia.
  cbn [mbind outcome_bind] in H.
  rewrite (child_middle2 _ _ a _ c sib (length s1 + 1)) in H by lia.
  cbn [mbind outcome_bind slots kids] in H.
  destruct (ORDER - 1 <=? len c)%nat eqn:Hfull; [done|].
  apply Nat.leb_gt in Hfull.
  rewrite at_index_middle in H by lia. cbn [mbind outcome_bind] in H.
  unfold len in *.
  destruct c as [sc zc|sc zc cc]; destruct sib as [ss zs|ss zs sk]; try done;
    cbn [isLeaf negb assert slots kids size_of set_slots set_kids set_size] in *.
  - (* leaves: the first slot of the sibling goes up *)
    destruct ss as [|up rest]; [done|].
    cbn [at_index lookup list_lookup mbind outcome_bind drop] in H.
    rewrite ?drop_0 in H. injection H as <-.
    rewrite list_insert_middle by lia.
    replace (length s1 + 1)%nat with (S (length a)) by lia.
    rewrite <- Ha, (proj2 (insert2_middle a b _ _ _ _ _ _ eq_refl eq_refl)).
    eexists _, _, up, []. split; [reflexivity|].
    apply wf_leaf_iff in Hwc as [Hcc Hzc]. apply wf_leaf_iff in Hws as [Hcs Hzs].
    simpl length in *.
    apply and_pair.
    + apply wf_swap2 with (sep := sep) (c := BTreeLeaf sc zc)
                          (sib := BTreeLeaf (up :: rest) zs); try done.
      * apply wf_leaf_iff. rewrite length_app. simpl length.
        split; [lia|]. rewrite Hzc. wrap_solve.
      * apply wf_leaf_iff. split; [lia|]. rewrite Hzs. wrap_solve.
      * cbn [size_of]. eqw_lia.
    + rewrite !inorder_leaf. repeat split; try done; len_solve.
  - (* internal nodes: the sibling's first child comes along *)
    destruct ss as [|up rest]; [done|].
    destruct sk as [|moved rk]; [done|].
    cbn [at_index lookup list_lookup mbind outcome_bind drop] in H.
    rewrite ?drop_0 in H. injection H as <-.
    pose proof Hwc as Hwc0. pose proof Hws as Hws0.
    apply wf_node_iff in Hwc0 as (Hcc & Hkc & Hhcc & Hzc & Hwcc).
    apply wf_node_iff in Hws0 as (Hcs & Hks & Hhsk & Hzs & Hwsk).
    simpl length in *.
    rewrite (take_ge cc) by lia.
    rewrite list_insert_middle by lia.
    replace (length s1 + 1)%nat with (S (length a)) by lia.
    rewrite <- Ha, (proj2 (insert2_middle a b _ _ _ _ _ _ eq_refl eq_refl)).
    apply Forall_cons in Hhsk as [Hhm Hhrk], Hwsk as [Hwm Hwrk].
    rewrite !height_node in Hhs, Hhc.
    assert (Hsame : hmax (moved :: rk) = hmax cc) by lia.
    destruct (wf_node_intro ORDER (sc ++ [sep])
                (wrap (wrap (zc + size_of moved) + 1)) (cc ++ [moved]) (hmax cc))
      as [Hwc' Hhc'].
    { rewrite length_app. simpl length. lia. }
    { rewrite !length_app. simpl length. lia. }
    { rewrite Forall_app, Forall_singleton. split; [done|congruence]. }
    { rewrite Hzc, !wrap_eqw, sum_sizes_app, sum_sizes_cons. apply eq_eqw.
      rewrite length_app. unfold sum_sizes at 3. simpl. lia. }
    { apply wrap_range. }
    { rewrite Forall_app, Forall_singleton. done. }
    destruct (wf_node_intro ORDER rest
                (wrap (wrap (zs - size_of moved) - 1)) rk (hmax (moved :: rk)))
      as [Hws' Hhs'].
    { lia. }
    { lia. }
    { done. }
    { rewrite Hzs, !wrap_eqw, sum_sizes_cons. apply eq_eqw. lia. }
    { apply wrap_range. }
    { done. }
    eexists _, _, up, (inorder moved). split; [reflexivity|].
    apply and_pair.
    + apply wf_swap2 with (sep := sep) (c := BTreeNode sc zc cc)
                          (sib := BTreeNode (up :: rest) zs (moved :: rk)); try done.
      cbn [size_of]. eqw_lia.
    + split; [|split; [|split; len_solve]].
      * rewrite (inorder_cut ORDER ORDER_ge_3 sc sep [] _ zc 0 cc [moved]) by (simpl; lia).
        by rewrite inorder_single.
      * rewrite (inorder_cut ORDER ORDER_ge_3 [] up rest _ 0
                   (wrap (wrap (zs - size_of moved) - 1)) [moved] rk) by (simpl; lia).
        by rewrite inorder_single.
Qed.

(** *** fill *)

(** [fill] keeps the walk, the height and the size of the node; the child
    that [doRemove] goes into next sits between a prefix of what was
    before child [idx] and a suffix of what was after it. *)
Lemma fill_spec n idx n1 :
  wf ORDER n = true -> fill ORDER n idx = Ok n1 ->
  wf ORDER n1 = true /\ height n1 = height n /\ size_of n1 = size_of n /\
  inorder n1 = inorder n /\
  exists idx1 c1 pre post,
    idx1 = (if (idx =? len n)%nat && (len n1 <? idx)%nat then (idx - 1)%nat else idx) /\
    kids n1 !! idx1 = Some c1 /\
    (forall c0, kids n !! idx = Some c0 -> (len c0 < len c1)%nat) /\
    before n idx = before n1 idx1 ++ pre /\
    after n idx = post ++ after n1 idx1.
Proof.
  intros Hwf H. unfold fill in H.
  apply bind_Ok in H as (c & Hc & H). apply child_Ok in Hc as [Hleaf Hc].
  assert (Hlen : length (kids n) = S (len n)).
  { destruct n as [|s z cc]; [done|]. by apply wf_node_iff in Hwf as (_ & ? & _). }
  apply bind_Ok in H as (prev_spare & Hp & H).
  destruct prev_spare.
  - (* a key comes from the left sibling *)
    destruct (idx =? 0)%nat eqn:H0; [done|]. apply Nat.eqb_neq in H0.
    apply bind_Ok in Hp as (p & Hp & _). apply child_Ok in Hp as [_ Hp].
    destruct (node_split2 n (idx - 1) p c) as (s1 & sep & s2 & a & b & z & -> & Hs1 & Ha & Hb);
      try done.
    { by replace (S (idx - 1)) with idx by lia. }
    assert (Hidx : idx = S (length s1)) by lia.
    destruct (borrowFromPrev_spec _ _ _ _ _ _ _ _ _ _ Hwf (eq_trans Ha (eq_sym Hs1)) Hidx H)
      as (c' & sib' & up & mv & -> & Hwf1 & Hh1 & Hsib & Hc' & Hlc' & Hls').
    split; [done|]. split; [done|]. split; [done|].
    rewrite !inorder_two by lia. rewrite Hsib, Hc'. split.
    { by rewrite <- !app_assoc. }
    exists idx, c', (mv ++ [sep]), []. unfold len. cbn [slots kids].
    rewrite !length_app. cbn [length].
    split.
    { destruct (idx =? _)%nat; [|done]. cbn [andb].
      destruct (_ <? idx)%nat eqn:Hlt; [|done]. apply Nat.ltb_lt in Hlt. lia. }
    subst idx. split.
    { rewrite (cons_middle sib' a), app_assoc. apply list_lookup_middle.
      rewrite length_app. simpl. lia. }
    split; [intros c0 Hc0; cbn [kids] in *; assert (c0 = c) as -> by congruence;
           unfold len in *; lia|].
    rewrite !before_second, !after_second by lia. rewrite Hsib. split; [|done].
    by rewrite <- !app_assoc.
  - apply bind_Ok in H as (next_spare & Hn & H).
    destruct next_spare.
    + (* a key comes from the right sibling *)
      destruct (idx =? len n)%nat eqn:Hlast; [done|]. apply Nat.eqb_neq in Hlast.
      apply bind_Ok in Hn as (x & Hn & _). apply child_Ok in Hn as [_ Hn].
      destruct (node_split2 n idx c x) as (s1 & sep & s2 & a & b & z & -> & Hs1 & Ha & Hb);
        try done.
      { by replace (S idx) with (idx + 1)%nat by lia. }
      subst idx.
      destruct (borrowFromNext_spec _ _ _ _ _ _ _ _ _ Hwf Ha H)
        as (c' & sib' & up & mv & -> & Hwf1 & Hh1 & Hc' & Hsib & Hlc' & Hls').
      split; [done|]. split; [done|]. split; [done|].
      rewrite !inorder_two by lia. rewrite Hsib, Hc'. split.
      { by rewrite <- !app_assoc. }
      exists (length s1), c', [], (sep :: mv). split.
      { done. }
      split; [by apply list_lookup_middle|].
      split; [intros c0 Hc0; cbn [kids] in *; assert (c0 = c) as -> by congruence;
           unfold len in *; lia|].
      rewrite !before_first, !after_first by lia. rewrite Hsib, app_nil_r.
      split; [done|]. cbn [app]. by rewrite <- !app_assoc.
    + destruct (idx =? len n)%nat eqn:Hlast; cbn [negb] in H.
      * (* the last child merges into its left sibling *)
        apply Nat.eqb_eq in Hlast.
        destruct (idx =? 0)%nat eqn:H0; [done|]. apply Nat.eqb_neq in H0.
        apply bind_Ok in Hp as (p & Hp & _). apply child_Ok in Hp as [_ Hp].
        destruct (node_split2 n (idx - 1) p c)
          as (s1 & sep & s2 & a & b & z & -> & Hs1 & Ha & Hb); try done.
        { by replace (S (idx - 1)) with idx by lia. }
        unfold len in Hlast. cbn [slots] in Hlast. rewrite length_app in Hlast.
        cbn [length] in Hlast.
        assert (length s2 = 0%nat) by lia.
        destruct s2; [|done]. destruct b; [|done].
        rewrite <- Hs1 in H.
        destruct (merge_spec _ _ _ _ _ _ _ _ _ Hwf (eq_trans Ha (eq_sym Hs1)) H)
          as (c' & -> & Hwf1 & Hh1 & Hc' & Hlc').
        rewrite app_nil_r in *.
        split; [done|]. split; [done|]. split; [done|].
        rewrite inorder_two by lia.
        rewrite inorder_node_last by lia. rewrite Hc'. split.
        { cbn [weave_after]. by rewrite app_nil_r. }
        exists (length s1), c', (inorder p ++ [sep]), []. split.
        { unfold len. cbn [slots].
          replace (length s1 <? idx)%nat with true by (symmetry; apply Nat.ltb_lt; lia).
          cbn [andb]. lia. }
        split; [apply list_lookup_middle; lia|].
        split; [intros c0 Hc0; cbn [kids] in *; assert (c0 = c) as -> by congruence;
           unfold len in *; lia|].
        replace idx with (S (length s1)) by lia.
        rewrite before_second, after_second by lia.
        pose proof (before_split s1 [] z a c' [] (eq_trans Ha (eq_sym Hs1))) as Hbf.
        pose proof (after_split s1 [] z a c' [] (eq_trans Ha (eq_sym Hs1))) as Haf.
        rewrite app_nil_r in Hbf, Haf. rewrite Hbf, Haf. done.
      * (* the right sibling merges into the child *)
        apply Nat.eqb_neq in Hlast.
        apply bind_Ok in Hn as (x & Hn & _). apply child_Ok in Hn as [_ Hn].
        destruct (node_split2 n idx c x) as (s1 & sep & s2 & a & b & z & -> & Hs1 & Ha & Hb);
          try done.
        { by replace (S idx) with (idx + 1)%nat by lia. }
        subst idx.
        destruct (merge_spec _ _ _ _ _ _ _ _ _ Hwf Ha H)
          as (c' & -> & Hwf1 & Hh1 & Hc' & Hlc').
        split; [done|]. split; [done|]. split; [done|].
        rewrite inorder_two, inorder_node by lia. rewrite Hc'. split.
        { by rewrite <- !app_assoc. }
        exists (length s1), c', [], (sep :: inorder x). split.
        { done. }
        split; [by apply list_lookup_middle|].
        split; [intros c0 Hc0; cbn [kids] in *; assert (c0 = c) as -> by congruence;
           unfold len in *; lia|].
        rewrite before_first, after_first, before_split, after_split by lia.
        rewrite app_nil_r. split; [done|]. cbn [app]. by rewrite <- ?app_assoc.
Qed.
End Rebalance.

(** ** Parent chains *)

Section Chains.
Context {V : Type}.
Variable ORDER : nat.
Implicit Types (n p : node V) (s : list (K * V)) (a b : list (node V))
  (chain : list (node V * nat)).

Lemma set_child_split p i :
  isLeaf p = false -> (i < length (kids p))%nat ->
  exists s z a x b,
    p = BTreeNode s z (a ++ x :: b) /\ length a = i /\
    forall n, set_child p i n = BTreeNode s z (a ++ n :: b).
Proof.
  destruct p as [|s z cc]; [done|]. intros _ Hi. cbn [kids] in Hi.
  destruct (lookup_lt_is_Some_2 cc i Hi) as [x Hx].
  exists s, z, (take i cc), x, (drop (S i) cc).
  assert (Hl : length (take i cc) = i) by (rewrite length_take; lia).
  split; [by rewrite take_drop_middle|]. split; [done|].
  intros n. unfold set_child. cbn [kids set_kids].
  rewrite <- (take_drop_middle cc i x Hx) at 1.
  by rewrite list_insert_middle.
Qed.

(** One child replaced by another of the same height whose size is
    smaller by [d]. *)
Lemma wf_replace_child s z a n n' b (d : Z) :
  wf ORDER (BTreeNode s z (a ++ n :: b)) = true ->
  wf ORDER n' = true -> height n' = height n ->
  eqw (size_of n') (size_of n - d) ->
  wf ORDER (BTreeNode s (wrap (z - d)) (a ++ n' :: b)) = true /\
  height (BTreeNode s (wrap (z - d)) (a ++ n' :: b)) = height (BTreeNode s z (a ++ n :: b)).
Proof.
  intros Hwf Hwf' Hh Hsz.
  apply wf_node_iff in Hwf as (Hcap & Hkids & Hhs & Hz & Hwfs).
  rewrite Forall_app, Forall_cons in Hhs, Hwfs.
  destruct Hhs as (Hha & Hhn & Hhb), Hwfs as (Hwa & Hwn & Hwb).
  destruct (wf_node_intro ORDER s (wrap (z - d)) (a ++ n' :: b) (hmax (a ++ n :: b)))
    as [Hw1 Hh1].
  - done.
  - rewrite length_app in *. simpl in *. lia.
  - rewrite Forall_app, Forall_cons. repeat split; try done. congruence.
  - rewrite Hz, !wrap_eqw, !sum_sizes_app, !sum_sizes_cons, Hsz. apply eq_eqw. lia.
  - apply wrap_range.
  - rewrite Forall_app, Forall_cons. done.
  - split; [done|]. by rewrite Hh1, height_node.
Qed.

Lemma wf_frame_inv p i n :
  isLeaf p = false -> (i < length (kids p))%nat ->
  wf ORDER (set_child p i n) = true -> wf ORDER n = true.
Proof.
  intros Hp Hi Hwf.
  destruct (set_child_split p i Hp Hi) as (s & z & a & x & b & -> & Ha & Hset).
  rewrite Hset in Hwf.
  apply (wf_child ORDER _ n i) in Hwf as [? _]; [done|].
  cbn [kids]. by apply list_lookup_middle.
Qed.

Lemma wf_plug_inv chain n :
  good_chain chain -> wf ORDER (plug chain n) = true -> wf ORDER n = true.
Proof.
  revert n. induction chain as [|[p i] up IH]; intros n Hg Hwf; [done|].
  apply Forall_cons in Hg as [[Hp Hi] Hg]. cbn [plug] in Hwf.
  apply (wf_frame_inv p i); try done. by apply IH.
Qed.

Lemma wf_plug_replace chain n n' :
  good_chain chain -> wf ORDER (plug chain n) = true ->
  wf ORDER n' = true -> height n' = height n -> size_of n' = size_of n ->
  wf ORDER (plug chain n') = true.
Proof.
  revert n n'. induction chain as [|[p i] up IH]; intros n n' Hg Hwf Hwf' Hh Hsz; [done|].
  apply Forall_cons in Hg as [[Hp Hi] Hg]. cbn [plug] in *. cbn [fst snd] in *.
  pose proof (wf_plug_inv _ _ Hg Hwf) as Hwfp.
  destruct (set_child_split p i Hp Hi) as (s & z & a & x & b & -> & Ha & Hset).
  rewrite !Hset in *.
  destruct (wf_replace_child s z a n n' b 0 Hwfp Hwf' Hh) as [Hw1 Hh1].
  { rewrite Hsz. apply eq_eqw. lia. }
  assert (Hz : wrap (z - 0) = z).
  { rewrite Z.sub_0_r. apply wrap_small. by apply (wf_size_range ORDER _ Hwfp). }
  rewrite Hz in Hw1, Hh1.
  by apply (IH (BTreeNode s z (a ++ n :: b))).
Qed.

Lemma good_chain_decr chain : good_chain chain -> good_chain (decr_size <$> chain).
Proof.
  intros Hg. apply Forall_fmap. eapply Forall_impl; [exact Hg|].
  intros [p i]. unfold decr_size. cbn [fst snd]. by destruct p.
Qed.

Lemma before_chain_decr chain : before_chain (decr_size <$> chain) = before_chain chain.
Proof.
  induction chain as [|[p i] up IH]; [done|]. cbn [fmap list_fmap before_chain decr_size fst snd].
  fold (fmap (M:=list) (@decr_size V)). rewrite IH. by destruct p.
Qed.

Lemma after_chain_decr chain : after_chain (decr_size <$> chain) = after_chain chain.
Proof.
  induction chain as [|[p i] up IH]; [done|]. cbn [fmap list_fmap after_chain decr_size fst snd].
  fold (fmap (M:=list) (@decr_size V)). rewrite IH. by destruct p.
Qed.

(** [size -= 1] along the chain matches a subtree that lost one entry. *)
Lemma wf_plug_decr chain n n' :
  good_chain chain -> wf ORDER (plug chain n) = true ->
  wf ORDER n' = true -> height n' = height n -> size_of n' = wrap (size_of n - 1) ->
  wf ORDER (plug (decr_size <$> chain) n') = true.
Proof.
  revert n n'. induction chain as [|[p i] up IH]; intros n n' Hg Hwf Hwf' Hh Hsz; [done|].
  apply Forall_cons in Hg as [[Hp Hi] Hg]. cbn [plug fmap list_fmap] in *.
  cbn [fst snd] in *. fold (fmap (M:=list) (@decr_size V)).
  pose proof (wf_plug_inv _ _ Hg Hwf) as Hwfp.
  destruct (set_child_split p i Hp Hi) as (s & z & a & x & b & -> & Ha & Hset).
  rewrite Hset in *. unfold decr_size. cbn [fst snd set_size size_of set_child kids set_kids].
  rewrite list_insert_middle by done.
  destruct (wf_replace_child s z a n n' b 1 Hwfp Hwf' Hh) as [Hw1 Hh1].
  { rewrite Hsz, wrap_eqw. reflexivity. }
  by apply (IH (BTreeNode s z (a ++ n :: b))).
Qed.

Lemma before_set_child p i n : before (set_child p i n) i = before p i.
Proof.
  unfold before, set_child. destruct p as [|s z cc]; [done|].
  cbn [kids slots set_kids]. by rewrite take_insert_ge by lia.
Qed.

Lemma after_set_child p i n : after (set_child p i n) i = after p i.
Proof.
  unfold after, set_child. destruct p as [|s z cc]; [done|].
  cbn [kids slots set_kids]. by rewrite drop_insert_lt by lia.
Qed.

Lemma inorder_plug chain n :
  good_chain chain -> wf ORDER (plug chain n) = true ->
  inorder (plug chain n) = before_chain chain ++ inorder n ++ after_chain chain.
Proof.
  revert n. induction chain as [|[p i] up IH]; intros n Hg Hwf.
  { cbn [plug before_chain after_chain]. by rewrite app_nil_r. }
  apply Forall_cons in Hg as [[Hp Hi] Hg]. cbn [plug before_chain after_chain] in *.
  cbn [fst snd] in *.
  rewrite IH by done.
  pose proof (wf_plug_inv _ _ Hg Hwf) as Hwfp.
  rewrite (inorder_split (set_child p i n) i n).
  - rewrite before_set_child, after_set_child. by rewrite <- !app_assoc.
  - by destruct p.
  - apply (wf_kids_length ORDER); [done|]. by destruct p.
  - destruct p as [|s z cc]; [done|]. cbn [set_child kids set_kids] in *.
    by apply list_lookup_insert_eq.
Qed.

Lemma plug_app chain1 chain2 n : plug (chain1 ++ chain2) n = plug chain2 (plug chain1 n).
Proof.
  revert n. induction chain1 as [|[p i] up IH]; intros n; [done|].
  cbn [app plug]. apply IH.
Qed.

Lemma before_chain_app chain1 chain2 :
  before_chain (chain1 ++ chain2) = before_chain chain2 ++ before_chain chain1.
Proof.
  induction chain1 as [|[p i] up IH]; cbn [app before_chain].
  - by rewrite app_nil_r.
  - by rewrite IH, app_assoc.
Qed.

Lemma after_chain_app chain1 chain2 :
  after_chain (chain1 ++ chain2) = after_chain chain1 ++ after_chain chain2.
Proof.
  induction chain1 as [|[p i] up IH]; cbn [app after_chain]; [done|].
  by rewrite IH, app_assoc.
Qed.
End Chains.

(** ** Removal *)

Lemma completes_bind {A B : Type} (m : outcome A) (f : A -> outcome B)
    (P : A -> Prop) (Q : B -> Prop) :
  completes m P -> (forall a, m = Ok a -> P a -> completes (f a) Q) ->
  completes (m ≫= f) Q.
Proof.
  destruct m as [a|e]; cbn [mbind outcome_bind completes].
  - intros HP Hf. by apply Hf.
  - by destruct e.
Qed.

Lemma completes_impl {A : Type} (m : outcome A) (P Q : A -> Prop) :
  completes m P -> (forall a, m = Ok a -> P a -> Q a) -> completes m Q.
Proof. destruct m as [a|e]; cbn [completes]; [|done]. intros HP H. by apply H. Qed.

Lemma completes_fuelless {A : Type} (m : outcome A) (P : A -> Prop) :
  fuelless m -> (forall a, m = Ok a -> P a) -> completes m P.
Proof.
  unfold fuelless. destruct m as [a|e]; cbn [completes]; [by auto|].
  intros Hm _. by destruct e.
Qed.

Lemma completes_bind_fuelless {A B : Type} (m : outcome A) (f : A -> outcome B)
    (Q : B -> Prop) :
  fuelless m -> (forall a, m = Ok a -> completes (f a) Q) -> completes (m ≫= f) Q.
Proof.
  unfold fuelless. destruct m as [a|e]; cbn [mbind outcome_bind completes]; [by auto|].
  intros Hm _. by destruct e.
Qed.

Lemma returns_completes {A : Type} (m : outcome A) (P : A -> Prop) :
  returns m P -> completes m P.
Proof. by intros (a & -> & HP). Qed.

Lemma fuelless_bind {A B : Type} (m : outcome A) (f : A -> outcome B) :
  fuelless m -> (forall a, fuelless (f a)) -> fuelless (m ≫= f).
Proof. destruct m as [a|e]; cbn [mbind outcome_bind]; intros H1 H2; [apply H2|].
  intros [= ->]. by apply H1.
Qed.

Lemma fuelless_Ok {A : Type} (a : A) : fuelless (Ok a).
Proof. done. Qed.

Lemma fuelless_assert (b : bool) : fuelless (assert b).
Proof. by destruct b. Qed.

Lemma fuelless_at_index {A : Type} (l : list A) (i : nat) : fuelless (at_index l i).
Proof. unfold at_index. by destruct (l !! i). Qed.

Lemma fuelless_children {V : Type} (n : node V) : fuelless (children n).
Proof. by destruct n. Qed.

Lemma fuelless_child {V : Type} (n : node V) (i : nat) : fuelless (child n i).
Proof.
  unfold child. apply fuelless_bind; [apply fuelless_children|].
  intros. apply fuelless_at_index.
Qed.

Ltac fuelless_step :=
  lazymatch goal with
  | |- fuelless (mbind _ _) => apply fuelless_bind; [|intros]
  | |- fuelless (Ok _) => apply fuelless_Ok
  | |- fuelless (Fail _) => discriminate
  | |- fuelless (assert _) => apply fuelless_assert
  | |- fuelless (at_index _ _) => apply fuelless_at_index
  | |- fuelless (child _ _) => apply fuelless_child
  | |- fuelless (children _) => apply fuelless_children
  | |- fuelless (if ?b then _ else _) => destruct b
  | |- fuelless (let '(_, _) := ?p in _) => destruct p
  | |- fuelless (match ?p with _ => _ end) => destruct p
  end.

Lemma fuelless_merge {V : Type} ORDER (n : node V) (idx : nat) : fuelless (merge ORDER n idx).
Proof. unfold merge. repeat fuelless_step. Qed.

Lemma fuelless_borrowFromPrev {V : Type} ORDER (n : node V) (idx : nat) :
  fuelless (borrowFromPrev ORDER n idx).
Proof. unfold borrowFromPrev. repeat fuelless_step. Qed.

Lemma fuelless_borrowFromNext {V : Type} ORDER (n : node V) (idx : nat) :
  fuelless (borrowFromNext ORDER n idx).
Proof. unfold borrowFromNext. repeat fuelless_step. Qed.

Lemma fuelless_fill {V : Type} ORDER (n : node V) (idx : nat) : fuelless (fill ORDER n idx).
Proof.
  unfold fill.
  repeat first [apply fuelless_merge | apply fuelless_borrowFromPrev
               | apply fuelless_borrowFromNext | fuelless_step].
Qed.

Lemma fuelless_removeFromLeaf {V : Type} ORDER chain (n : node V) (idx : nat) :
  fuelless (removeFromLeaf ORDER chain n idx).
Proof.
  unfold removeFromLeaf.
  repeat first [apply fuelless_fill | fuelless_step].
Qed.

Section Remove.
Context {V : Type}.
Variable ORDER : nat.
Hypothesis ORDER_ge_3 : (3 <= ORDER)%nat.
Implicit Types (n p root : node V) (s : list (K * V)) (a b : list (node V))
  (chain below : list (node V * nat)).

(** *** removeFromLeaf *)

Lemma removeFromLeaf_spec chain n idx root :
  good_chain chain -> wf ORDER (plug chain n) = true -> isLeaf n = true ->
  removeFromLeaf ORDER chain n idx = Ok root ->
  wf ORDER root = true /\
  exists x l1 l2,
    slots n = l1 ++ x :: l2 /\ length l1 = idx /\
    inorder root = before_chain chain ++ (l1 ++ l2) ++ after_chain chain.
Proof.
  intros Hg Hwf Hleaf H. unfold removeFromLeaf in H.
  apply bind_Ok in H as ([] & Hidx & H). apply assert_Ok, Nat.ltb_lt in Hidx.
  apply bind_Ok in H as (removed & _ & H).
  destruct n as [s z|]; [|done]. unfold len in *.
  cbn [slots set_slots set_size size_of] in *.
  destruct (lookup_lt_is_Some_2 s idx Hidx) as [x Hx].
  pose proof (take_drop_middle s idx x Hx) as Hs.
  assert (Hl1 : length (take idx s) = idx) by (rewrite length_take; lia).
  rewrite delete_take_drop in H.
  set (l1 := take idx s) in *. set (l2 := drop (S idx) s) in *. clearbody l1 l2.
  subst s.
  pose proof (wf_plug_inv ORDER _ _ Hg Hwf) as Hwn.
  apply wf_leaf_iff in Hwn as [Hcap Hz].
  rewrite length_app in Hcap, Hz. cbn [length] in Hcap, Hz.
  set (n1 := BTreeLeaf (l1 ++ l2) (wrap (z - 1))) in *.
  assert (Hwn1 : wf ORDER n1 = true).
  { apply wf_leaf_iff. rewrite length_app. split; [lia|]. rewrite Hz. wrap_solve. }
  assert (Hw1 : wf ORDER (plug (decr_size <$> chain) n1) = true).
  { by apply (wf_plug_decr ORDER chain (BTreeLeaf (l1 ++ x :: l2) z)). }
  assert (Hin1 : inorder (plug (decr_size <$> chain) n1)
                 = before_chain chain ++ (l1 ++ l2) ++ after_chain chain).
  { rewrite (inorder_plug ORDER) by (done || by apply good_chain_decr).
    by rewrite before_chain_decr, after_chain_decr. }
  enough (wf ORDER root = true /\ inorder root = inorder (plug (decr_size <$> chain) n1))
    as [? Hroot].
  { split; [done|]. exists x, l1, l2. by rewrite Hroot. }
  destruct chain as [|[p i] up].
  { cbn [fmap list_fmap] in H. by injection H as <-. }
  apply Forall_cons in Hg as [[Hp Hi] Hg]. cbn [fst snd] in Hp, Hi.
  cbn [fmap list_fmap] in H, Hw1 |- *. fold (fmap (M:=list) (@decr_size V)) in *.
  unfold decr_size at 1 in H. cbn [fst snd] in H.
  match type of H with (if ?c then _ else _) = _ => destruct c end;
    [|by injection H as <-].
  apply bind_Ok in H as (? & _ & H).
  apply bind_Ok in H as ([] & Hsame & H). apply assert_Ok, Nat.eqb_eq in Hsame.
  apply bind_Ok in H as (parent2 & Hfill & H). injection H as <-.
  rewrite Hsame in Hfill. clear Hsame.
  unfold decr_size at 1 3. cbn [plug fst snd] in Hw1 |- *.
  set (parent1 := set_child (set_size p (wrap (size_of p - 1))) i n1) in *.
  assert (Hgu : good_chain (decr_size <$> up)) by by apply good_chain_decr.
  pose proof (wf_plug_inv ORDER _ _ Hgu Hw1) as Hwp1.
  destruct (fill_spec ORDER ORDER_ge_3 parent1 i parent2 Hwp1 Hfill)
    as (Hwp2 & Hh2 & Hz2 & Hin2 & _).
  assert (Hw2 : wf ORDER (plug (decr_size <$> up) parent2) = true).
  { by apply (wf_plug_replace ORDER _ parent1). }
  split; [done|].
  rewrite !(inorder_plug ORDER) by done. by rewrite Hin2.
Qed.

(** *** getPredecessor, getSuccessor *)

Lemma set_child_same p i c : kids p !! i = Some c -> set_child p i c = p.
Proof.
  destruct p as [|s z cc]; [done|]. cbn [kids set_child set_kids]. intros H.
  by rewrite list_insert_id.
Qed.

(** From a node that satisfies the invariant [descend] reaches a leaf,
    along frames that lead back to the node. *)
Lemma descend_spec (pick : node V -> nat) fuel cur acc :
  (forall n, (pick n < S (len n))%nat) ->
  (height cur < fuel)%nat -> wf ORDER cur = true ->
  exists below leaf,
    descend pick fuel cur acc = Ok (below ++ acc, leaf) /\
    isLeaf leaf = true /\ plug below leaf = cur /\ good_chain below /\
    Forall (fun f => f.2 = pick f.1) below.
Proof.
  intros Hpick. revert cur acc.
  induction fuel as [|f IH]; intros cur acc Hh Hwf; [lia|].
  cbn [descend]. destruct (isLeaf cur) eqn:Hleaf.
  { exists [], cur. repeat split; try done; constructor. }
  pose proof (wf_kids_length ORDER cur Hwf Hleaf) as Hlen.
  destruct (lookup_lt_is_Some_2 (kids cur) (pick cur)) as [c Hc].
  { rewrite Hlen. apply Hpick. }
  assert (Hchild : child cur (pick cur) = Ok c) by by apply child_Ok.
  rewrite Hchild. cbn [mbind outcome_bind].
  destruct (wf_child ORDER cur c _ Hwf Hc) as [Hwc Hhc].
  destruct (IH c ((cur, pick cur) :: acc)) as (below & leaf & Hd & Hl & Hplug & Hg & Hpk);
    [lia|done|].
  exists (below ++ [(cur, pick cur)]), leaf.
  rewrite <- app_assoc. split; [done|]. split; [done|]. split; [|split].
  - rewrite plug_app, Hplug. cbn [plug]. by apply set_child_same.
  - apply Forall_app. split; [done|]. apply Forall_singleton. split; [done|].
    by eapply lookup_lt_Some.
  - apply Forall_app. split; [done|]. by apply Forall_singleton.
Qed.

Lemma before_chain_leftmost below :
  Forall (fun f => f.2 = 0%nat) below -> before_chain below = [].
Proof.
  induction 1 as [|[p i] up Hi _ IH]; [done|]. cbn [before_chain].
  rewrite IH. cbn [fst snd] in Hi. subst i. done.
Qed.

Lemma after_chain_rightmost below :
  Forall (fun f => f.2 = len f.1) below -> after_chain below = [].
Proof.
  induction 1 as [|[p i] up Hi _ IH]; [done|]. cbn [after_chain].
  rewrite IH. cbn [fst snd] in Hi. subst i. unfold after, len.
  by rewrite drop_all.
Qed.

(** *** doRemove, removeFromNonLeaf *)

Lemma took_app (key : K) (l l' pre post : list (K * V)) :
  took key l l' -> took key (pre ++ l ++ post) (pre ++ l' ++ post).
Proof.
  intros (l1 & v & l2 & -> & ->). exists (pre ++ l1), v, (l2 ++ post).
  by rewrite <- !app_assoc.
Qed.

Lemma took_in (key : K) (l l' : list (K * V)) : took key l l' -> key ∈ l.*1.
Proof.
  intros (l1 & v & l2 & -> & _). rewrite fmap_app, fmap_cons.
  apply elem_of_app. right. by left.
Qed.

Lemma wf_set_slots n s' :
  length s' = len n -> wf ORDER n = true ->
  wf ORDER (set_slots n s') = true /\ height (set_slots n s') = height n /\
  size_of (set_slots n s') = size_of n.
Proof.
  intros Hl Hwf. destruct n as [s z|s z cc]; unfold len in Hl; cbn [slots set_slots] in *.
  - apply wf_leaf_iff in Hwf as [? ?]. split; [|done]. apply wf_leaf_iff. by rewrite Hl.
  - apply wf_node_iff in Hwf as (? & ? & ? & ? & ?). split; [|by rewrite !height_node].
    apply wf_node_iff. by rewrite Hl.
Qed.

(** The node around one of its slots. *)
Lemma node_split_slot n idx x :
  wf ORDER n = true -> isLeaf n = false -> slots n !! idx = Some x ->
  exists s1 s2 a left right b z,
    n = BTreeNode (s1 ++ x :: s2) z (a ++ left :: right :: b) /\
    length s1 = idx /\ length a = idx /\ length b = length s2.
Proof.
  intros Hwf Hleaf Hx.
  pose proof (wf_kids_length ORDER n Hwf Hleaf) as Hlen.
  pose proof (lookup_lt_Some _ _ _ Hx) as Hidx. fold (len n) in Hidx.
  destruct (lookup_lt_is_Some_2 (kids n) idx) as [left Hl]; [lia|].
  destruct (lookup_lt_is_Some_2 (kids n) (S idx)) as [right Hr]; [lia|].
  destruct (node_split2 n idx left right Hleaf Hlen Hl Hr)
    as (s1 & sep & s2 & a & b & z & -> & Hs1 & Ha & Hb).
  cbn [slots] in Hx. rewrite list_lookup_middle in Hx by done. injection Hx as ->.
  by exists s1, s2, a, left, right, b, z.
Qed.

Lemma sorted_middle (R : relation (K * V)) (l1 l l2 : list (K * V)) :
  StronglySorted R (l1 ++ l ++ l2) -> StronglySorted R l.
Proof.
  intros H. apply StronglySorted_app in H as (_ & _ & H).
  by apply StronglySorted_app in H as (_ & H & _).
Qed.

Lemma doRemove_S fuel chain n (key : K) :
  doRemove ORDER (S fuel) chain n key =
  if found n (locate n key) key then
    root ← (if isLeaf n then removeFromLeaf ORDER chain n (locate n key)
            else removeFromNonLeaf ORDER fuel chain n (locate n key));
    Ok (root, true)
  else if isLeaf n then Ok (plug chain n, false)
  else
    c ← child n (locate n key);
    n1 ← (if (len c <? ORDER / 2)%nat then fill ORDER n (locate n key) else Ok n);
    c1 ← child n1 (if (locate n key =? len n)%nat && (len n1 <? locate n key)%nat
                   then (locate n key - 1)%nat else locate n key);
    doRemove ORDER fuel
      ((n1, if (locate n key =? len n)%nat && (len n1 <? locate n key)%nat
            then (locate n key - 1)%nat else locate n key) :: chain) c1 key.
Proof. reflexivity. Qed.

Lemma removeFromNonLeaf_S fuel chain n idx :
  removeFromNonLeaf ORDER (S fuel) chain n idx =
  let replace_by (cursor : outcome (list (node V * nat) * node V * nat)) (at_child : nat) :=
    '(below, leaf, i) ← cursor;
    s ← at_index (slots leaf) i;
    let n1 := set_slots n (<[idx:=s]> (slots n)) in
    let chain1 := below ++ (n1, at_child) :: chain in
    if isLeaf leaf then removeFromLeaf ORDER chain1 leaf i
    else removeFromNonLeaf ORDER fuel chain1 leaf i in
  left ← at_index (kids n) idx;
  if (ORDER / 2 <=? len left)%nat then
    replace_by (getPredecessor n idx) idx
  else
    right ← at_index (kids n) (idx + 1);
    if (ORDER / 2 <=? len right)%nat then
      replace_by (getSuccessor n idx) (idx + 1)%nat
    else
      key ← at_index (keys n) idx;
      n1 ← merge ORDER n idx;
      c ← at_index (kids n1) idx;
      r ← doRemove ORDER fuel ((n1, idx) :: chain) c key;
      Ok r.1.
Proof. reflexivity. Qed.

(** The frame [(n1, i)] on top of [chain], for a node [n1] that stands in
    for [n]. *)
Lemma push_frame chain n n1 i c :
  good_chain chain -> wf ORDER (plug chain n) = true ->
  wf ORDER n1 = true -> height n1 = height n -> size_of n1 = size_of n ->
  kids n1 !! i = Some c ->
  good_chain ((n1, i) :: chain) /\ wf ORDER (plug ((n1, i) :: chain) c) = true.
Proof.
  intros Hg Hwf Hwf1 Hh Hz Hc. split.
  - apply Forall_cons. split; [|done]. cbn [fst snd]. split.
    + by destruct n1.
    + by eapply lookup_lt_Some.
  - cbn [plug]. rewrite set_child_same by done. by apply (wf_plug_replace ORDER chain n).
Qed.

Section Step.
Variable f : nat.
Hypothesis IH_doRemove : forall chain n (key : K),
  (2 * height n + 1 <= f)%nat -> good_chain chain ->
  wf ORDER (plug chain n) = true ->
  completes (doRemove ORDER f chain n key) (removed_from ORDER chain n key).

(** The key of slot [idx] is replaced by its predecessor, which is then
    removed from its leaf. *)
Lemma take_predecessor chain n idx (k : K) (v : V) :
  good_chain chain -> wf ORDER (plug chain n) = true -> isLeaf n = false ->
  slots n !! idx = Some (k, v) ->
  completes
    ('(below, leaf, i) ← getPredecessor n idx;
     s ← at_index (slots leaf) i;
     if isLeaf leaf
     then removeFromLeaf ORDER
            (below ++ (set_slots n (<[idx:=s]> (slots n)), idx) :: chain) leaf i
     else removeFromNonLeaf ORDER f
            (below ++ (set_slots n (<[idx:=s]> (slots n)), idx) :: chain) leaf i)
    (fun root => removed_from ORDER chain n k (root, true)).
Proof.
  intros Hg Hwf Hleaf Hx.
  pose proof (wf_plug_inv ORDER _ _ Hg Hwf) as Hwn.
  destruct (node_split_slot n idx (k, v) Hwn Hleaf Hx)
    as (s1 & s2 & a & left & right & b & z & -> & Hs1 & Ha & Hb).
  subst idx.
  destruct (wf_child ORDER _ left (length s1) Hwn) as [Hwl Hhl].
  { cbn [kids]. by apply list_lookup_middle. }
  unfold getPredecessor. cbn [kids slots].
  rewrite at_index_middle by done. cbn [mbind outcome_bind].
  destruct (descend_spec len (height left + 1) left []) as
    (below & leaf & Hd & Hlf & Hplug & Hgb & Hpk); [lia|lia|done|].
  rewrite app_nil_r in Hd. rewrite Hd. cbn [mbind outcome_bind].
  destruct (0 <? len leaf)%nat eqn:Hpos; cbn [assert mbind outcome_bind]; [|done].
  apply Nat.ltb_lt in Hpos. cbn [fst snd].
  destruct (lookup_lt_is_Some_2 (slots leaf) (len leaf - 1)) as [s Hs];
    [unfold len in *; lia|].
  rewrite (proj2 (at_index_Ok _ _ _) Hs). cbn [mbind outcome_bind]. rewrite Hlf.
  rewrite list_insert_middle by done.
  set (n1 := BTreeNode (s1 ++ s :: s2) z (a ++ left :: right :: b)).
  apply completes_fuelless; [apply fuelless_removeFromLeaf|]. intros root Hroot.
  destruct (wf_set_slots (BTreeNode (s1 ++ (k, v) :: s2) z (a ++ left :: right :: b))
              (s1 ++ s :: s2)) as (Hwn1 & Hhn1 & Hzn1); [|done|].
  { unfold len. cbn [slots]. rewrite !length_app. done. }
  cbn [set_slots] in Hwn1, Hhn1, Hzn1. fold n1 in Hwn1, Hhn1, Hzn1.
  destruct (push_frame chain _ n1 (length s1) left Hg Hwf Hwn1 Hhn1 Hzn1) as [Hg1 Hw1].
  { cbn [kids]. by apply list_lookup_middle. }
  apply removeFromLeaf_spec in Hroot as (Hwr & x & l1 & l2 & Hsl & Hl1 & Hin); [| |
    |done].
  2: { apply Forall_app. done. }
  2: { by rewrite plug_app, Hplug. }
  split; [done|]. intros _. cbn [fst snd].
  (* the removed slot is the last one of the leaf *)
  assert (Hlen : length (slots leaf) = S (length l1 + length l2)).
  { rewrite Hsl, length_app. cbn [length]. lia. }
  assert (l2 = []) as ->.
  { apply length_zero_iff_nil. unfold len in *. lia. }
  rewrite Hsl, <- Hl1, list_lookup_middle in Hs by done. injection Hs as ->.
  (* the walk of the left child ends with it *)
  assert (Hcur : inorder left = before_chain below ++ l1 ++ [s]).
  { rewrite <- Hplug at 1. rewrite (inorder_plug ORDER) by (done || by rewrite Hplug).
    rewrite (after_chain_rightmost below Hpk), app_nil_r.
    destruct leaf as [sl zl|]; [|done]. rewrite inorder_leaf. cbn [slots] in Hsl.
    by rewrite Hsl. }
  eexists. split.
  - rewrite inorder_two by done. rewrite Hcur.
    exists (weave a s1 ++ before_chain below ++ l1 ++ [s]), v,
           (inorder right ++ weave_after s2 b).
    split; [|reflexivity]. by rewrite <- !app_assoc.
  - rewrite Hin, before_chain_app, after_chain_app.
    rewrite (after_chain_rightmost below Hpk).
    cbn [before_chain after_chain set_slots].
    rewrite before_first, after_first by done.
    rewrite app_nil_r. cbn [app]. by rewrite <- !app_assoc.
Qed.

(** The same with the successor, the first slot of the leftmost leaf
    under the right child. *)
Lemma take_successor chain n idx (k : K) (v : V) :
  good_chain chain -> wf ORDER (plug chain n) = true -> isLeaf n = false ->
  slots n !! idx = Some (k, v) ->
  completes
    ('(below, leaf, i) ← getSuccessor n idx;
     s ← at_index (slots leaf) i;
     if isLeaf leaf
     then removeFromLeaf ORDER
            (below ++ (set_slots n (<[idx:=s]> (slots n)), (idx + 1)%nat) :: chain)
            leaf i
     else removeFromNonLeaf ORDER f
            (below ++ (set_slots n (<[idx:=s]> (slots n)), (idx + 1)%nat) :: chain)
            leaf i)
    (fun root => removed_from ORDER chain n k (root, true)).
Proof.
  intros Hg Hwf Hleaf Hx.
  pose proof (wf_plug_inv ORDER _ _ Hg Hwf) as Hwn.
  destruct (node_split_slot n idx (k, v) Hwn Hleaf Hx)
    as (s1 & s2 & a & left & right & b & z & -> & Hs1 & Ha & Hb).
  subst idx.
  assert (Hright : (a ++ left :: right :: b) !! (length s1 + 1)%nat = Some right).
  { rewrite (cons_middle left a), app_assoc. apply list_lookup_middle.
    rewrite length_app. simpl. lia. }
  destruct (wf_child ORDER _ right (length s1 + 1) Hwn Hright) as [Hwl Hhl].
  unfold getSuccessor. cbn [kids slots].
  rewrite (proj2 (at_index_Ok _ _ _) Hright). cbn [mbind outcome_bind].
  destruct (descend_spec (fun _ => 0%nat) (height right + 1) right []) as
    (below & leaf & Hd & Hlf & Hplug & Hgb & Hpk); [lia|lia|done|].
  rewrite app_nil_r in Hd. rewrite Hd. cbn [mbind outcome_bind].
  destruct (0 <? len leaf)%nat eqn:Hpos; cbn [assert mbind outcome_bind]; [|done].
  apply Nat.ltb_lt in Hpos. cbn [fst snd].
  destruct (lookup_lt_is_Some_2 (slots leaf) 0) as [s Hs]; [unfold len in *; lia|].
  rewrite (proj2 (at_index_Ok _ _ _) Hs). cbn [mbind outcome_bind]. rewrite Hlf.
  rewrite list_insert_middle by done.
  set (n1 := BTreeNode (s1 ++ s :: s2) z (a ++ left :: right :: b)).
  apply completes_fuelless; [apply fuelless_removeFromLeaf|]. intros root Hroot.
  destruct (wf_set_slots (BTreeNode (s1 ++ (k, v) :: s2) z (a ++ left :: right :: b))
              (s1 ++ s :: s2)) as (Hwn1 & Hhn1 & Hzn1); [|done|].
  { unfold len. cbn [slots]. rewrite !length_app. done. }
  cbn [set_slots] in Hwn1, Hhn1, Hzn1. fold n1 in Hwn1, Hhn1, Hzn1.
  destruct (push_frame chain _ n1 (length s1 + 1) right Hg Hwf Hwn1 Hhn1 Hzn1)
    as [Hg1 Hw1]; [done|].
  apply removeFromLeaf_spec in Hroot as (Hwr & x & l1 & l2 & Hsl & Hl1 & Hin); [| |
    |done].
  2: { apply Forall_app. done. }
  2: { by rewrite plug_app, Hplug. }
  split; [done|]. intros _. cbn [fst snd].
  (* the removed slot is the first one of the leaf *)
  destruct l1; [|done]. cbn [app] in Hsl, Hin.
  rewrite Hsl in Hs. injection Hs as ->.
  (* the walk of the right child starts with it *)
  assert (Hcur : inorder right = s :: l2 ++ after_chain below).
  { rewrite <- Hplug at 1. rewrite (inorder_plug ORDER) by (done || by rewrite Hplug).
    rewrite (before_chain_leftmost below Hpk).
    destruct leaf as [sl zl|]; [|done]. rewrite inorder_leaf. cbn [slots] in Hsl.
    by rewrite Hsl. }
  eexists. split.
  - rewrite inorder_two by done. rewrite Hcur.
    exists (weave a s1 ++ inorder left), v,
           ((s :: l2 ++ after_chain below) ++ weave_after s2 b).
    split; [|reflexivity]. by rewrite <- !app_assoc.
  - rewrite Hin, before_chain_app, after_chain_app.
    rewrite (before_chain_leftmost below Hpk).
    cbn [before_chain after_chain set_slots].
    replace (length s1 + 1)%nat with (S (length s1)) by lia.
    rewrite before_second, after_second by done.
    rewrite app_nil_r. cbn [app]. rewrite <- !app_assoc. cbn [app].
    by rewrite <- !app_assoc.
Qed.

Lemma removeFromNonLeaf_step chain n idx (k : K) (v : V) :
  (2 * height n <= S f)%nat -> good_chain chain ->
  wf ORDER (plug chain n) = true -> isLeaf n = false ->
  slots n !! idx = Some (k, v) ->
  completes (removeFromNonLeaf ORDER (S f) chain n idx)
    (fun root => removed_from ORDER chain n k (root, true)).
Proof.
  intros Hfuel Hg Hwf Hleaf Hx. rewrite removeFromNonLeaf_S. cbv zeta.
  apply completes_bind_fuelless; [apply fuelless_at_index|]. intros left _.
  destruct (ORDER / 2 <=? len left)%nat; [by apply (take_predecessor chain n idx k v)|].
  apply completes_bind_fuelless; [apply fuelless_at_index|]. intros right _.
  destruct (ORDER / 2 <=? len right)%nat; [by apply (take_successor chain n idx k v)|].
  (* both neighbours are at minimum fill: merge, then remove from the merged child *)
  apply completes_bind_fuelless; [apply fuelless_at_index|]. intros key Hkey.
  apply at_index_Ok in Hkey. unfold keys in Hkey.
  rewrite list_lookup_fmap, Hx in Hkey. injection Hkey as <-. cbn [fst].
  apply completes_bind_fuelless; [apply fuelless_merge|]. intros n1 Hmerge.
  pose proof (wf_plug_inv ORDER _ _ Hg Hwf) as Hwn.
  destruct (node_split_slot n idx (k, v) Hwn Hleaf Hx)
    as (s1 & s2 & a & cl & cr & b & z & -> & Hs1 & Ha & Hb).
  subst idx.
  destruct (merge_spec ORDER ORDER_ge_3 _ _ _ _ _ _ _ _ _ Hwn Ha Hmerge)
    as (c' & -> & Hwn1 & Hhn1 & Hc' & _).
  cbn [kids]. rewrite at_index_middle by done. cbn [mbind outcome_bind].
  set (n1 := BTreeNode (s1 ++ s2) z (a ++ c' :: b)) in *.
  assert (Hkid : kids n1 !! length s1 = Some c') by by apply list_lookup_middle.
  destruct (push_frame chain _ n1 (length s1) c' Hg Hwf Hwn1 Hhn1 eq_refl Hkid)
    as [Hg1 Hw1].
  destruct (wf_child ORDER n1 c' _ Hwn1 Hkid) as [_ Hhc'].
  eapply completes_bind; [apply IH_doRemove; [lia|done|done]|].
  intros [root flag] _ [Hwr Hsorted]. cbn [completes fst snd] in *.
  split; [done|]. intros Hs. cbn [fst snd].
  rewrite inorder_two in Hs by done.
  assert (Hsc : StronglySorted slot_le (inorder c')).
  { rewrite Hc'. apply (sorted_middle _ (weave a s1) _ (weave_after s2 b)).
    by rewrite <- !app_assoc. }
  specialize (Hsorted Hsc). destruct flag.
  - destruct Hsorted as (l' & Htook & Hin).
    exists (weave a s1 ++ l' ++ weave_after s2 b). split.
    + rewrite inorder_two by done.
      replace (weave a s1 ++ inorder cl ++ (k, v) :: inorder cr ++ weave_after s2 b)
        with (weave a s1 ++ inorder c' ++ weave_after s2 b)
        by (by rewrite Hc', <- !app_assoc).
      by apply took_app.
    + rewrite Hin. cbn [before_chain after_chain]. unfold n1.
      rewrite before_split, after_split by done. by rewrite <- !app_assoc.
  - destruct Hsorted as [Hnot _]. exfalso. apply Hnot.
    rewrite Hc', fmap_app, fmap_cons. apply elem_of_app. right. by left.
Qed.

Hypothesis IH_removeFromNonLeaf : forall chain n idx (k : K) (v : V),
  (2 * height n <= f)%nat -> good_chain chain ->
  wf ORDER (plug chain n) = true -> isLeaf n = false ->
  slots n !! idx = Some (k, v) ->
  completes (removeFromNonLeaf ORDER f chain n idx)
    (fun root => removed_from ORDER chain n k (root, true)).

Lemma locate_le n (key : K) : (locate n key <= len n)%nat.
Proof.
  unfold locate, locate_keys, len.
  etransitivity; [apply find_if_spec|]. unfold keys. by rewrite length_fmap.
Qed.

Lemma doRemove_step chain n (key : K) :
  (2 * height n + 1 <= S f)%nat -> good_chain chain ->
  wf ORDER (plug chain n) = true ->
  completes (doRemove ORDER (S f) chain n key) (removed_from ORDER chain n key).
Proof.
  intros Hfuel Hg Hwf. rewrite doRemove_S.
  pose proof (wf_plug_inv ORDER _ _ Hg Hwf) as Hwn.
  destruct (found n (locate n key) key) eqn:Hfound.
  { (* the key is in this node *)
    destruct (found_true n key Hfound) as [v Hv].
    destruct (isLeaf n) eqn:Hleaf.
    - apply completes_bind_fuelless; [apply fuelless_removeFromLeaf|]. intros root Hroot.
      apply removeFromLeaf_spec in Hroot as (Hwr & x & l1 & l2 & Hsl & Hl1 & Hin);
        try done.
      cbn [completes]. split; [done|]. intros _. cbn [fst snd].
      rewrite Hsl, <- Hl1, list_lookup_middle in Hv by done. injection Hv as ->.
      exists (l1 ++ l2). split; [|done].
      exists l1, v, l2. split; [|done].
      destruct n as [s z|]; [|done]. by rewrite inorder_leaf.
    - eapply completes_bind.
      + apply (IH_removeFromNonLeaf chain n (locate n key) key v); try done. lia.
      + intros root _ Hroot. exact Hroot. }
  destruct (isLeaf n) eqn:Hleaf.
  { (* a leaf without the key *)
    cbn [completes]. split; [done|]. intros Hs. cbn [fst snd]. split.
    - destruct n as [s z|]; [|done]. rewrite inorder_leaf in *.
      by apply (own_slots_miss (BTreeLeaf s z) key).
    - by apply (inorder_plug ORDER). }
  (* go down, after filling the child if it is at minimum fill *)
  apply completes_bind_fuelless; [apply fuelless_child|]. intros c Hc.
  apply child_Ok in Hc as [_ Hc].
  pose proof (locate_le n key) as Hle.
  set (idx := locate n key) in *.
  assert (Hloc : locate n key = idx) by done. clearbody idx.
  apply completes_bind with (P := fun n1 =>
    wf ORDER n1 = true /\ height n1 = height n /\ size_of n1 = size_of n /\
    inorder n1 = inorder n /\
    exists idx1 c1 pre post,
      idx1 = (if (idx =? len n)%nat && (len n1 <? idx)%nat then (idx - 1)%nat else idx) /\
      kids n1 !! idx1 = Some c1 /\
      before n idx = before n1 idx1 ++ pre /\
      after n idx = post ++ after n1 idx1).
  { destruct (len c <? ORDER / 2)%nat.
    - apply completes_fuelless; [apply fuelless_fill|]. intros n1 Hfill.
      destruct (fill_spec ORDER ORDER_ge_3 n idx n1 Hwn Hfill)
        as (? & ? & ? & ? & idx1 & c1 & pre & post & ? & ? & _ & ? & ?).
      repeat split; try done. by exists idx1, c1, pre, post.
    - cbn [completes]. repeat split; try done.
      exists idx, c, [], []. rewrite app_nil_r.
      replace (len n <? idx)%nat with false by (symmetry; apply Nat.ltb_ge; lia).
      by rewrite andb_false_r. }
  intros n1 _ (Hwn1 & Hhn1 & Hzn1 & Hin1 & idx1 & c1 & pre & post & Hidx1 & Hc1 & Hbef & Haft).
  rewrite <- Hidx1.
  assert (Hchild : child n1 idx1 = Ok c1).
  { apply child_Ok. split; [|done]. by destruct n1. }
  rewrite Hchild. cbn [mbind outcome_bind].
  destruct (push_frame chain n n1 idx1 c1 Hg Hwf Hwn1 Hhn1 Hzn1 Hc1) as [Hg1 Hw1].
  destruct (wf_child ORDER n1 c1 _ Hwn1 Hc1) as [_ Hhc1].
  eapply completes_impl; [apply IH_doRemove; [lia|done|done]|].
  intros [root flag] _ [Hwr Hsorted]. cbn [fst snd] in *.
  split; [done|]. intros Hs. cbn [fst snd].
  assert (Hn1 : inorder n = before n1 idx1 ++ inorder c1 ++ after n1 idx1).
  { rewrite <- Hin1. apply inorder_split; [by destruct n1| |done].
    apply (wf_kids_length ORDER); [done|by destruct n1]. }
  assert (Hsc : StronglySorted slot_le (inorder c1)).
  { rewrite Hn1 in Hs. by apply sorted_middle in Hs. }
  specialize (Hsorted Hsc). cbn [before_chain after_chain] in Hsorted.
  destruct flag.
  - destruct Hsorted as (l' & Htook & Hin).
    exists (before n1 idx1 ++ l' ++ after n1 idx1). split.
    + rewrite Hn1. by apply took_app.
    + rewrite Hin. by rewrite <- !app_assoc.
  - destruct Hsorted as [Hnot Hin]. split.
    + (* the keys before the child are smaller, those after it larger *)
      destruct (node_split n idx c Hleaf (wf_kids_length ORDER n Hwn Hleaf) Hc)
        as (s1 & s2 & a & b & z & Hn & Hs1 & Ha & Hb).
      rewrite Hn in Hs, Hfound, Hbef, Haft, Hloc.
      rewrite <- Hs1 in Hbef, Haft, Hfound, Hloc.
      rewrite before_split in Hbef by lia. rewrite after_split in Haft by lia.
      destruct (bracket key s1 s2 z a c b) as (Hlow & _ & Hhigh); try done; try lia.
      specialize (Hhigh Hfound).
      rewrite Hbef in Hlow. rewrite Haft in Hhigh.
      apply Forall_app in Hlow as [Hlow _]. apply Forall_app in Hhigh as [_ Hhigh].
      rewrite Hn1, !fmap_app, !elem_of_app. intros [Hin'|[Hin'|Hin']]; [|done|].
      * apply list_elem_of_fmap in Hin' as (y & -> & Hy).
        rewrite Forall_forall in Hlow. specialize (Hlow y Hy). simpl in Hlow. lia.
      * apply list_elem_of_fmap in Hin' as (y & -> & Hy).
        rewrite Forall_forall in Hhigh. specialize (Hhigh y Hy). simpl in Hhigh. lia.
    + rewrite Hin, Hn1. by rewrite <- !app_assoc.
Qed.
End Step.
End Remove.

(** ** The invariant along a run *)

Section Along.
Context {V : Type}.
Variable ORDER : nat.
Hypothesis ORDER_ge_3 : (3 <= ORDER)%nat.
Implicit Types (n t root : node V) (s : list (K * V)).

Lemma every_impl (P Q : node V -> bool) n :
  (forall x, P x = true -> Q x = true) -> every P n = true -> every Q n = true.
Proof.
  intros HPQ. induction n as [s z|s z cc IH] using node_ind.
  - cbn [every]. rewrite !andb_true_r. apply HPQ.
  - rewrite !every_node_iff. intros [HP Hcc]. split; [by apply HPQ|].
    rewrite Forall_forall in IH, Hcc |- *. intros c Hc. apply IH; auto.
Qed.

Lemma wf_realizable n : wf ORDER n = true -> realizable n = true.
Proof.
  apply every_impl. intros x. unfold shape_ok.
  rewrite !andb_true_iff, !orb_true_iff, !andb_true_iff. tauto.
Qed.

Lemma wf_sized n : wf ORDER n = true -> sized n = true.
Proof. apply every_impl. intros x. rewrite !andb_true_iff. tauto. Qed.

Lemma remove_mutual fuel :
  (forall chain n (key : K),
     (2 * height n + 1 <= fuel)%nat -> good_chain chain ->
     wf ORDER (plug chain n) = true ->
     completes (doRemove ORDER fuel chain n key) (removed_from ORDER chain n key)) /\
  (forall chain n idx (k : K) (v : V),
     (2 * height n <= fuel)%nat -> good_chain chain ->
     wf ORDER (plug chain n) = true -> isLeaf n = false ->
     slots n !! idx = Some (k, v) ->
     completes (removeFromNonLeaf ORDER fuel chain n idx)
       (fun root => removed_from ORDER chain n k (root, true))).
Proof.
  induction fuel as [|f [IH1 IH2]].
  - split.
    + intros; lia.
    + intros chain [|s z cc] idx k v Hh; [done|]. rewrite height_node in Hh. lia.
  - split.
    + intros. by apply doRemove_step.
    + intros. by apply (removeFromNonLeaf_step ORDER ORDER_ge_3 f IH1 chain n idx k v).
Qed.

(** An internal node without keys has exactly one child. *)
Lemma empty_internal root :
  wf ORDER root = true -> isLeaf root = false -> len root = 0%nat ->
  exists z c, root = BTreeNode [] z [c] /\ wf ORDER c = true /\ z = size_of c.
Proof.
  destruct root as [|s z cc]; [done|]. unfold len. cbn [slots]. intros Hwf _ Hs.
  apply length_zero_iff_nil in Hs as ->.
  pose proof Hwf as Hwf'. apply wf_node_iff in Hwf' as (_ & Hlen & _ & Hz & Hall).
  destruct cc as [|c [|? ?]]; try done.
  rewrite Forall_singleton in Hall.
  exists z, c. split; [done|]. split; [done|].
  rewrite Hz. unfold sum_sizes. cbn [length foldr].
  rewrite Z.add_0_r. apply wrap_small. by apply (wf_size_range ORDER).
Qed.

Lemma doRemove_root t (key : K) :
  wf ORDER t = true ->
  completes (doRemove ORDER (2 * height t + 2) [] t key) (removed_from ORDER [] t key).
Proof.
  intros Hwf. apply (proj1 (remove_mutual _)); [lia|constructor|done].
Qed.

(** [remove]: the invariant is kept; on a walk in key order the flag
    tells whether the key was there, and one entry with that key is gone. *)
Lemma remove_spec t (key : K) :
  wf ORDER t = true ->
  completes (remove ORDER t key) (fun r =>
    wf ORDER r.1 = true /\
    (StronglySorted slot_le (inorder t) ->
     if r.2 then took key (inorder t) (inorder r.1)
     else (key ∉ (inorder t).*1) /\ inorder r.1 = inorder t)).
Proof.
  intros Hwf. unfold remove.
  eapply completes_bind; [by apply doRemove_root|].
  intros [root1 b] _ [Hw1 Hs1]. cbn [fst snd] in *.
  assert (Hwalk : StronglySorted slot_le (inorder t) ->
                  if b then took key (inorder t) (inorder root1)
                  else (key ∉ (inorder t).*1) /\ inorder root1 = inorder t).
  { intros Hs. specialize (Hs1 Hs). cbn [before_chain after_chain app] in Hs1.
    destruct b.
    - destruct Hs1 as (l' & Htook & ->). by rewrite app_nil_r.
    - by rewrite app_nil_r in Hs1. }
  destruct (negb (isLeaf root1) && (len root1 =? 0)%nat) eqn:Hc.
  - apply andb_true_iff in Hc as [Hl Hn]. apply negb_true_iff in Hl.
    apply Nat.eqb_eq in Hn.
    destruct (empty_internal root1 Hw1 Hl Hn) as (z & c & -> & Hwc & _).
    cbn [child children at_index lookup list_lookup mbind outcome_bind completes fst snd].
    split; [done|]. by rewrite inorder_single in Hwalk.
  - cbn [completes fst snd]. done.
Qed.

Lemma doFind_total (fuel : nat) n (key : K) :
  (height n < fuel)%nat -> realizable n = true -> exists c, doFind fuel n key = Ok c.
Proof.
  revert n. induction fuel as [|f IH]; intros n Hh Hr; [lia|].
  rewrite doFind_S. destruct (found n (locate n key) key); [eauto|].
  destruct n as [s z|s z cc]; cbn [isLeaf negb]; [eauto|].
  pose proof Hr as Hr'. apply realizable_node in Hr' as [Hlen Hrc].
  destruct (lookup_lt_is_Some_2 cc (locate (BTreeNode s z cc) key)) as [c Hc].
  { pose proof (locate_le (BTreeNode s z cc) key) as Hle. unfold len in Hle.
    cbn [slots] in Hle. lia. }
  assert (Hchild : child (BTreeNode s z cc) (locate (BTreeNode s z cc) key) = Ok c)
    by by apply child_Ok.
  rewrite Hchild. cbn [mbind outcome_bind].
  apply IH.
  - pose proof (height_child (BTreeNode s z cc) c _ Hc). lia.
  - rewrite Forall_forall in Hrc. apply Hrc. by eapply list_elem_of_lookup_2.
Qed.

Lemma getRank_from_total (fuel : nat) n (key : K) (rank : Z) :
  (height n < fuel)%nat -> realizable n = true ->
  exists r, getRank_from fuel n key rank = Ok r.
Proof.
  revert n rank. induction fuel as [|f IH]; intros n rank Hh Hr; [lia|].
  rewrite getRank_from_S. cbv zeta.
  destruct n as [s z|s z cc]; cbn [isLeaf negb].
  { destruct (found _ _ _); eauto. }
  pose proof Hr as Hr'. apply realizable_node in Hr' as [Hlen Hrc].
  destruct (lookup_lt_is_Some_2 cc (locate (BTreeNode s z cc) key)) as [c Hc].
  { pose proof (locate_le (BTreeNode s z cc) key) as Hle. unfold len in Hle.
    cbn [slots] in Hle. lia. }
  assert (Hchild : child (BTreeNode s z cc) (locate (BTreeNode s z cc) key) = Ok c)
    by by apply child_Ok.
  rewrite Hchild. cbn [mbind outcome_bind].
  destruct (found _ _ _); [eauto|].
  apply IH.
  - pose proof (height_child (BTreeNode s z cc) c _ Hc). lia.
  - rewrite Forall_forall in Hrc. apply Hrc. by eapply list_elem_of_lookup_2.
Qed.

(** Every call of the interface keeps the invariant, and is not stopped
    by the bound on the recursion depth. *)
Lemma step_wf (o : op V) t :
  wf ORDER t = true -> completes (step ORDER o t) (fun r => wf ORDER r.1 = true).
Proof.
  intros Hwf. pose proof (wf_realizable t Hwf) as Hr. destruct o; cbn [step].
  - destruct (insert_spec ORDER ORDER_ge_3 t key val Hwf) as (t' & -> & Hwf' & _).
    done.
  - unfold find. destruct (doFind_total (height t + 1) t key) as [c ->]; [lia|done|].
    done.
  - eapply completes_bind; [by apply remove_spec|]. intros r _ [Hw _]. done.
  - unfold getRank.
    destruct (getRank_from_total (height t + 1) t key 0) as [r ->]; [lia|done|].
    done.
  - done.
  - unfold traverse.
    pose proof (doTraverse_checked ORDER (height t + 1) t 0 (-1) ltac:(lia) Hr) as Hc.
    destruct (doTraverse ORDER (height t + 1) t 0 (-1)) as [l|[| |[]|]];
      cbn [mbind outcome_bind completes checked fst] in *; done.
Qed.

Lemma run_wf (ops : list (op V)) t t' replies :
  wf ORDER t = true -> run ORDER ops t = Ok (t', replies) -> wf ORDER t' = true.
Proof.
  revert t t' replies. induction ops as [|o ops IH]; intros t t' replies Hwf Hrun.
  - cbn [run] in Hrun. by injection Hrun as <- _.
  - cbn [run] in Hrun. apply bind_Ok in Hrun as (r & Hstep & Hrun).
    apply bind_Ok in Hrun as (r' & Hrest & Hrun). injection Hrun as <- _.
    pose proof (step_wf o t Hwf) as Hc. rewrite Hstep in Hc. cbn [completes] in Hc.
    destruct r' as [t2 rs]. by apply (IH r.1 t2 rs).
Qed.

Lemma sorted_key_unique (l : list (K * V)) (x y : K * V) :
  StronglySorted slot_lt l -> x ∈ l -> y ∈ l -> x.1 = y.1 -> x = y.
Proof.
  intros Hs Hx Hy Hk.
  apply list_elem_of_lookup in Hx as [i Hi]. apply list_elem_of_lookup in Hy as [j Hj].
  destruct (Nat.lt_total i j) as [Hlt|[->|Hlt]].
  - pose proof (sorted_lookup slot_lt l i j x y Hs Hlt Hi Hj) as H.
    unfold slot_lt in H. lia.
  - congruence.
  - pose proof (sorted_lookup slot_lt l j i y x Hs Hlt Hj Hi) as H.
    unfold slot_lt in H. lia.
Qed.

(** On a walk with pairwise distinct keys, taking one entry of a key
    away takes the key away. *)
Lemma took_strict (key : K) (l l' : list (K * V)) :
  StronglySorted slot_lt l -> took key l l' ->
  StronglySorted slot_lt l' /\ (key ∉ l'.*1) /\
  (forall x, x ∈ l' <-> x ∈ l /\ x.1 <> key).
Proof.
  intros Hs (l1 & v & l2 & -> & ->).
  apply StronglySorted_app in Hs as (H12 & Hs1 & Hs2).
  apply StronglySorted_inv in Hs2 as [Hs2 Hv].
  assert (Hlow : forall x, x ∈ l1 -> x.1 < key).
  { intros x Hx. apply (H12 x (key, v) Hx). by left. }
  assert (Hhigh : forall x, x ∈ l2 -> key < x.1).
  { intros x Hx. rewrite Forall_forall in Hv. by apply (Hv x). }
  split; [|split].
  - apply StronglySorted_app. split; [|done].
    intros x y Hx Hy. apply (H12 x y Hx). by right.
  - rewrite fmap_app, elem_of_app. intros [H|H];
      apply list_elem_of_fmap in H as (y & -> & Hy).
    + specialize (Hlow y Hy). lia.
    + specialize (Hhigh y Hy). lia.
  - intros x. rewrite !elem_of_app, elem_of_cons. split.
    + intros [H|H]; (split; [tauto|]).
      * specialize (Hlow x H). lia.
      * specialize (Hhigh x H). lia.
    + intros [[H|[->|H]] Hne]; [tauto|done|tauto].
Qed.

Lemma sorted_put (k : K) (v : V) (l1 l2 : list (K * V)) :
  StronglySorted slot_lt (l1 ++ l2) ->
  Forall (fun x => x.1 < k) l1 -> Forall (fun x => k < x.1) l2 ->
  StronglySorted slot_lt (l1 ++ (k, v) :: l2).
Proof.
  intros Hs Hlow Hhigh. apply StronglySorted_app in Hs as (H12 & Hs1 & Hs2).
  rewrite Forall_forall in Hlow, Hhigh.
  apply StronglySorted_app. split; [|split; [done|]].
  - intros x y Hx Hy. apply elem_of_cons in Hy as [->|Hy].
    + by apply Hlow.
    + by apply H12.
  - constructor; [done|]. apply Forall_forall. intros y Hy. by apply Hhigh.
Qed.

Lemma find_reads_walk t (k : K) :
  wf ORDER t = true -> StronglySorted slot_lt (inorder t) ->
  (forall v, (k, v) ∈ inorder t ->
     exists c, find t k = Ok c /\ valid c = true /\ cursor_slot c = Some (k, v)) /\
  (k ∉ keys_of t -> find t k = Ok None).
Proof.
  intros Hwf Hs. unfold find.
  destruct (doFind_answers (height t + 1) t k) as (c & Hc & Hans);
    [lia|by apply wf_realizable|by apply sorted_lt_le|].
  rewrite Hc. unfold answers in Hans. split.
  - intros v Hv. exists c. split; [done|].
    destruct (cursor_slot c) as [x|] eqn:Hx.
    + destruct Hans as [Hk Hin]. split.
      * destruct c; [done|discriminate].
      * f_equal. by apply (sorted_key_unique (inorder t)).
    + destruct Hans as [_ Hnot]. exfalso. apply Hnot.
      apply list_elem_of_fmap. by exists (k, v).
  - intros Hnot. destruct (cursor_slot c) as [x|].
    + destruct Hans as [Hk Hin]. exfalso. apply Hnot.
      apply list_elem_of_fmap. by exists x.
    + by destruct Hans as [-> _].
Qed.

Lemma insert_fresh t (k : K) (v : V) :
  wf ORDER t = true -> StronglySorted slot_lt (inorder t) -> k ∉ keys_of t ->
  returns (insert ORDER t k v) (fun t' =>
    wf ORDER t' = true /\ StronglySorted slot_lt (inorder t') /\
    forall x, x ∈ inorder t' <-> x = (k, v) \/ x ∈ inorder t).
Proof.
  intros Hwf Hs Hnot.
  destruct (insert_spec ORDER ORDER_ge_3 t k v Hwf)
    as (t' & Ht' & Hwf' & _ & _ & _ & l1 & l2 & Hl & Hl' & Hkeys).
  exists t'. split; [done|]. split; [done|].
  destruct (Hkeys (sorted_lt_le _ Hs)) as [Hlow Hhigh].
  rewrite Hl in Hs. rewrite Hl'. split.
  - apply sorted_put; [done|done|].
    rewrite Forall_forall in Hhigh |- *. intros x Hx.
    specialize (Hhigh x Hx).
    assert (x.1 <> k); [|lia].
    intros Heq. apply Hnot. unfold keys_of. rewrite Hl.
    apply list_elem_of_fmap. exists x. rewrite elem_of_app. auto.
  - intros x. rewrite Hl, !elem_of_app, elem_of_cons. tauto.
Qed.

Lemma remove_strict t (k : K) :
  wf ORDER t = true -> StronglySorted slot_lt (inorder t) ->
  completes (remove ORDER t k) (fun r =>
    wf ORDER r.1 = true /\ StronglySorted slot_lt (inorder r.1) /\
    (r.2 = true <-> k ∈ keys_of t) /\
    (k ∉ keys_of r.1) /\
    (forall x, x ∈ inorder r.1 <-> x ∈ inorder t /\ x.1 <> k) /\
    (r.2 = false -> inorder r.1 = inorder t)).
Proof.
  intros Hwf Hs.
  eapply completes_impl; [by apply remove_spec|].
  intros [t' b] _ [Hwf' Hwalk]. cbn [fst snd] in *.
  specialize (Hwalk (sorted_lt_le _ Hs)). split; [done|]. destruct b.
  - destruct (took_strict k _ _ Hs Hwalk) as (Hs' & Hnot & Hmem).
    split; [done|]. split; [|done]. split; [|done]. intros _. by eapply took_in.
  - destruct Hwalk as [Hnot Heq]. rewrite Heq. split; [done|].
    split; [split; [done|]; intros Hin; by destruct Hnot|].
    split; [by unfold keys_of; rewrite Heq|]. split; [|done].
    intros x. split; [|tauto]. intros Hx. split; [done|].
    intros Hk. apply Hnot. apply list_elem_of_fmap. by exists x.
Qed.
End Along.

(** C3.  Size consistency is an invariant of the interface.  The empty
    tree satisfies the representation invariant [wf], which says of every
    node that [size == length + the sum of the children's size fields]
    (in [unsigned] arithmetic, as the fields are); every call (insert,
    find, remove, rank, size, traverse) on a tree that satisfies it
    returns a tree that satisfies it, or stops the program, and is never
    stopped by the recursion bound of this embedding; so after any
    sequence of calls every node has a consistent size field, and
    [size()] is the number of live keys as an [unsigned], the number
    itself when it is below 2^32. *)
Theorem sizes_stay_consistent {V : Type} (ORDER : nat) :
  (3 <= ORDER)%nat ->
  wf ORDER (empty (V:=V)) = true /\
  (forall (t : node V) (o : op V),
     wf ORDER t = true -> completes (step ORDER o t) (fun r => wf ORDER r.1 = true)) /\
  (forall t : node V, reachable ORDER t ->
     wf ORDER t = true /\ sized t = true /\ size t = wrap (count t) /\
     (count t < 2 ^ 32 -> size t = count t)).
Proof.
  intros HO. split; [by apply wf_empty|]. split.
  { intros t o Hwf. by apply step_wf. }
  intros t (ops & replies & Hrun).
  assert (Hwf : wf ORDER t = true).
  { apply (run_wf ORDER HO ops empty t replies); [by apply wf_empty|done]. }
  assert (Hsize : size t = wrap (count t)).
  { unfold size. rewrite <- (wrap_small (size_of t)) by by apply (wf_size_range ORDER).
    apply eqw_iff, sized_count; [by apply (wf_realizable ORDER)|by apply (wf_sized ORDER)]. }
  split; [done|]. split; [by apply (wf_sized ORDER)|]. split; [done|].
  intros Hc. rewrite Hsize. apply wrap_small. unfold count in *. lia.
Qed.

Lemma sizes_stay_consistent_witness :
  size (V:=Z) (BTreeLeaf [(1, 10); (2, 20); (4, 40)] 3)
  = count (BTreeLeaf [(1, 10); (2, 20); (4, 40)] 3).
Proof.
  destruct (sizes_stay_consistent (V:=Z) 4 ltac:(lia)) as (_ & _ & H).
  destruct (H (BTreeLeaf [(1, 10); (2, 20); (4, 40)] 3))
    as (_ & _ & _ & Hc).
  - exists [Insert 1 10; Insert 2 20; Insert 3 30; Insert 4 40; Remove 3].
    eexists. vm_compute. reflexivity.
  - apply Hc. vm_compute. reflexivity.
Defined.



(** C5, as the code has it.  On a tree that satisfies the representation
    invariant and holds no key twice (its in-order walk is strictly
    increasing): [find(k)] returns a valid cursor on the entry [(k, v)]
    of the walk; [insert(k, v)] of a key that is not there returns, keeps
    both properties and adds exactly that entry; and [remove(k)], when it
    does not stop the program, keeps both properties, returns true
    exactly when [k] was there, takes away the entries with key [k] and
    no other, after which [find(k)] returns an invalid cursor and a second
    [remove(k)], when it does not stop the program, returns false and
    leaves the walk as it is. *)
Theorem remove_round_trip {V : Type} (ORDER : nat) (t : node V) (k : K) :
  (3 <= ORDER)%nat -> wf ORDER t = true -> strictly_sorted (keys_of t) = true ->
  (forall v, (k, v) ∈ inorder t ->
     exists c, find t k = Ok c /\ valid c = true /\ cursor_slot c = Some (k, v)) /\
  (forall v, k ∉ keys_of t ->
     returns (insert ORDER t k v) (fun t' =>
       wf ORDER t' = true /\ strictly_sorted (keys_of t') = true /\
       forall x, x ∈ inorder t' <-> x = (k, v) \/ x ∈ inorder t)) /\
  completes (remove ORDER t k) (fun r =>
    wf ORDER r.1 = true /\ strictly_sorted (keys_of r.1) = true /\
    (r.2 = true <-> k ∈ keys_of t) /\
    (forall x, x ∈ inorder r.1 <-> x ∈ inorder t /\ x.1 <> k) /\
    find r.1 k = Ok None /\
    completes (remove ORDER r.1 k) (fun r' =>
      r'.2 = false /\ inorder r'.1 = inorder r.1)).
Proof.
  intros HO Hwf Hs. apply strictly_sorted_iff in Hs. split; [|split].
  - by apply (find_reads_walk ORDER).
  - intros v Hnot.
    destruct (insert_fresh ORDER HO t k v Hwf Hs Hnot) as (t' & Ht' & Hwf' & Hs' & Hmem).
    exists t'. split; [done|]. split; [done|]. split; [|done].
    by apply strictly_sorted_iff.
  - eapply completes_impl; [by apply (remove_strict ORDER HO)|].
    intros [t' b] _ (Hwf' & Hs' & Hflag & Hgone & Hmem & _). cbn [fst snd] in *.
    split; [done|]. split; [by apply strictly_sorted_iff|].
    split; [done|]. split; [done|]. split.
    + by apply (find_reads_walk ORDER).
    + eapply completes_impl; [by apply (remove_strict ORDER HO)|].
      intros [t'' b'] _ (_ & _ & Hflag' & _ & _ & Hsame). cbn [fst snd] in *.
      destruct b'; [|auto]. exfalso. apply Hgone. by apply Hflag'.
Qed.

Lemma remove_round_trip_witness :
  completes
    (remove (V:=Z) 4
       (BTreeNode [(2, 20)] 4 [BTreeLeaf [(1, 10)] 1; BTreeLeaf [(3, 30); (4, 40)] 2]) 3)
    (fun r => find r.1 3 = Ok None).
Proof.
  destruct (remove_round_trip (V:=Z) 4
              (BTreeNode [(2, 20)] 4 [BTreeLeaf [(1, 10)] 1; BTreeLeaf [(3, 30); (4, 40)] 2])
              3 ltac:(lia) ltac:(reflexivity) ltac:(reflexivity)) as (_ & _ & H).
  eapply completes_impl; [exact H|].
  intros r _ (_ & _ & _ & _ & Hfind & _). exact Hfind.
Defined.

(** ** Key order along a run; find, insert and remove with equal keys *)

Section Walks.
Context {V : Type}.
Implicit Types (l : list (K * V)).

Lemma in_order_iff l : in_order l.*1 = true <-> StronglySorted slot_le l.
Proof.
  destruct l as [|x l]; cbn [fmap list_fmap in_order].
  - split; [constructor|done].
  - fold (fmap (M:=list) (@fst K V)). rewrite nondescending_iff. split.
    + intros [Hall Hs]. by constructor.
    + intros Hs. by apply StronglySorted_inv in Hs as [Hs Hx].
Qed.

Lemma sorted_put_le (k : K) (v : V) l1 l2 :
  StronglySorted slot_le (l1 ++ l2) ->
  Forall (fun x => x.1 < k) l1 -> Forall (fun x => k <= x.1) l2 ->
  StronglySorted slot_le (l1 ++ (k, v) :: l2).
Proof.
  intros Hs Hlow Hhigh. apply StronglySorted_app in Hs as (H12 & Hs1 & Hs2).
  rewrite Forall_forall in Hlow.
  apply StronglySorted_app. split; [|split; [done|by constructor]].
  intros x y Hx Hy. apply elem_of_cons in Hy as [->|Hy].
  - specialize (Hlow x Hx). unfold slot_le. simpl. lia.
  - by apply H12.
Qed.

Lemma took_sorted (R : relation (K * V)) (key : K) l l' :
  StronglySorted R l -> took key l l' -> StronglySorted R l'.
Proof.
  intros Hs (l1 & v & l2 & -> & ->).
  apply StronglySorted_app in Hs as (H12 & Hs1 & Hs2).
  apply StronglySorted_inv in Hs2 as [Hs2 _].
  apply StronglySorted_app. split; [|done].
  intros x y Hx Hy. apply H12; [done|by right].
Qed.
End Walks.

Section Order.
Context {V : Type}.
Variable ORDER : nat.
Hypothesis ORDER_ge_3 : (3 <= ORDER)%nat.
Implicit Types (t n : node V) (l : list (K * V)).

Lemma search_tree_iff t :
  search_tree ORDER t = true <->
  wf ORDER t = true /\ StronglySorted slot_le (inorder t).
Proof. unfold search_tree, keys_of. by rewrite andb_true_iff, in_order_iff. Qed.

Lemma size_is_count t : wf ORDER t = true -> size t = wrap (count t).
Proof.
  intros Hwf. unfold size.
  rewrite <- (wrap_small (size_of t)) by by apply (wf_size_range ORDER).
  apply eqw_iff, sized_count; [by apply (wf_realizable ORDER)|by apply (wf_sized ORDER)].
Qed.

Lemma insert_ordered t (k : K) (v : V) :
  search_tree ORDER t = true ->
  returns (insert ORDER t k v) (fun t' =>
    search_tree ORDER t' = true /\
    exists l1 l2,
      inorder t = l1 ++ l2 /\ inorder t' = l1 ++ (k, v) :: l2 /\
      Forall (fun x => x.1 < k) l1 /\ Forall (fun x => k <= x.1) l2).
Proof.
  intros Ht. apply search_tree_iff in Ht as [Hwf Hs].
  destruct (insert_spec ORDER ORDER_ge_3 t k v Hwf)
    as (t' & Ht' & Hwf' & _ & _ & _ & l1 & l2 & Hl & Hl' & Hkeys).
  destruct (Hkeys Hs) as [Hlow Hhigh].
  exists t'. split; [done|]. split.
  - apply search_tree_iff. split; [done|]. rewrite Hl'. rewrite Hl in Hs.
    by apply sorted_put_le.
  - by exists l1, l2.
Qed.

Lemma remove_ordered t (k : K) :
  search_tree ORDER t = true ->
  completes (remove ORDER t k) (fun r =>
    search_tree ORDER r.1 = true /\
    (r.2 = true <-> k ∈ keys_of t) /\
    if r.2 then took k (inorder t) (inorder r.1) else inorder r.1 = inorder t).
Proof.
  intros Ht. apply search_tree_iff in Ht as [Hwf Hs].
  eapply completes_impl; [by apply (remove_spec ORDER ORDER_ge_3)|].
  intros [t' b] _ [Hwf' Hwalk]. cbn [fst snd] in *. specialize (Hwalk Hs).
  destruct b.
  - split; [|split; [|done]].
    + apply search_tree_iff. split; [done|]. by eapply took_sorted.
    + split; [|done]. intros _. by eapply took_in.
  - destruct Hwalk as [Hnot Heq]. split; [|split; [|done]].
    + apply search_tree_iff. by rewrite Heq.
    + split; [done|]. intros Hin. by destruct Hnot.
Qed.

Lemma step_search_tree (o : op V) t :
  search_tree ORDER t = true ->
  completes (step ORDER o t) (fun r => search_tree ORDER r.1 = true).
Proof.
  intros Ht. pose proof Ht as Ht'. apply search_tree_iff in Ht' as [Hwf Hs].
  pose proof (step_wf ORDER ORDER_ge_3 o t Hwf) as Hstep.
  destruct o; cbn [step] in *.
  - destruct (insert_ordered t key val Ht) as (t' & -> & Ht1 & _). done.
  - destruct (find t key) as [c|e]; [done|exact Hstep].
  - eapply completes_bind; [by apply remove_ordered|]. intros r _ [Hr _]. done.
  - destruct (getRank t key) as [c|e]; [done|exact Hstep].
  - done.
  - destruct (traverse ORDER t print) as [|[]]; done.
Qed.

Lemma run_search_tree (ops : list (op V)) t t' replies :
  search_tree ORDER t = true -> run ORDER ops t = Ok (t', replies) ->
  search_tree ORDER t' = true.
Proof.
  revert t t' replies. induction ops as [|o ops IH]; intros t t' replies Ht Hrun.
  - cbn [run] in Hrun. by injection Hrun as <- _.
  - cbn [run] in Hrun. apply bind_Ok in Hrun as (r & Hstep & Hrun).
    apply bind_Ok in Hrun as (r' & Hrest & Hrun). injection Hrun as <- _.
    pose proof (step_search_tree o t Ht) as Hc. rewrite Hstep in Hc.
    cbn [completes] in Hc. destruct r' as [t2 rs]. by apply (IH r.1 t2 rs).
Qed.

End Order.

Section Lookup.
Context {V : Type}.
Variable ORDER : nat.
Implicit Types (t n : node V) (l : list (K * V)).

Lemma find_answers t (k : K) :
  search_tree ORDER t = true ->
  exists c, find t k = Ok c /\ answers (inorder t) k c.
Proof.
  intros Ht. apply search_tree_iff in Ht as [Hwf Hs]. unfold find.
  apply doFind_answers; [lia|by apply (wf_realizable ORDER)|done].
Qed.

Lemma answers_valid l (k : K) (c : BTreeCursor (V:=V)) :
  answers l k c -> (valid c = true <-> k ∈ l.*1).
Proof.
  unfold answers. destruct (cursor_slot c) as [x|] eqn:Hx.
  - intros [Hk Hin]. split.
    + intros _. apply list_elem_of_fmap. by exists x.
    + intros _. destruct c; [done|discriminate].
  - intros [-> Hnot]. split; [done|]. intros Hin. by destruct Hnot.
Qed.

Lemma answers_slot l (k : K) (n : node V) (i : nat) :
  answers l k (Some (n, i)) -> exists v, slots n !! i = Some (k, v) /\ (k, v) ∈ l.
Proof.
  unfold answers. cbn [cursor_slot mbind option_bind].
  destruct (slots n !! i) as [[k' v]|]; [|by intros [? _]].
  intros [Hk Hin]. cbn [fst] in Hk. subst k'. by exists v.
Qed.

Lemma sorted_keys l : StronglySorted slot_le l -> StronglySorted Z.le l.*1.
Proof.
  induction 1 as [|x l Hs IH Hx]; cbn [fmap list_fmap]; constructor; [done|].
  apply Forall_fmap. exact Hx.
Qed.

(** Two ways of taking one [k] out of a sorted key sequence give the
    same sequence. *)
Lemma took_keys_unique (k : K) (l1 l2 : list (K * V)) (v : V) (w : list (K * V)) :
  StronglySorted slot_le (l1 ++ (k, v) :: l2) ->
  took k (l1 ++ (k, v) :: l2) w -> w.*1 = (l1 ++ l2).*1.
Proof.
  intros Hs Htook.
  pose proof (took_sorted slot_le k _ _ Hs Htook) as Hsw.
  assert (Hs12 : StronglySorted slot_le (l1 ++ l2)).
  { apply (took_sorted slot_le k (l1 ++ (k, v) :: l2)); [done|]. by exists l1, v, l2. }
  destruct Htook as (a & v' & b & Heq & ->).
  apply StronglySorted_unique_strong with (R := Z.le);
    [intros; lia|by apply sorted_keys|by apply sorted_keys|].
  apply (Permutation_cons_inv (a:=k)).
  transitivity ((l1 ++ (k, v) :: l2).*1).
  - rewrite Heq, !fmap_app, !fmap_cons. cbn [fst]. by rewrite Permutation_middle.
  - rewrite !fmap_app, !fmap_cons. cbn [fst]. by rewrite Permutation_middle.
Qed.
End Lookup.

(** Key order and balance are invariants of the interface.  The empty
    tree is a search tree: it satisfies the representation invariant (at
    most [ORDER - 1] keys in a node, [len + 1] children in an internal
    node, all of the same height, consistent sizes) and its in-order walk
    is non-decreasing.  Every call on a search tree returns a search tree
    or stops the program, and is not stopped by the recursion bound of
    the embedding; so every tree reached from the empty one is a search
    tree. *)
Theorem order_is_kept {V : Type} (ORDER : nat) :
  (3 <= ORDER)%nat ->
  search_tree ORDER (empty (V:=V)) = true /\
  (forall (t : node V) (o : op V),
     search_tree ORDER t = true ->
     completes (step ORDER o t) (fun r => search_tree ORDER r.1 = true)) /\
  (forall t : node V, reachable ORDER t -> search_tree ORDER t = true).
Proof.
  intros HO.
  assert (He : search_tree ORDER (empty (V:=V)) = true).
  { apply search_tree_iff. split; [by apply wf_empty|constructor]. }
  split; [done|]. split.
  - intros t o Ht. by apply step_search_tree.
  - intros t (ops & replies & Hrun). by apply (run_search_tree ORDER HO ops empty t replies).
Qed.

Lemma order_is_kept_witness :
  search_tree (V:=Z) 4
    (BTreeNode [(2, 21)] 4 [BTreeLeaf [(1, 10)] 1; BTreeLeaf [(2, 20); (4, 40)] 2]) = true.
Proof.
  destruct (order_is_kept (V:=Z) 4 ltac:(lia)) as (_ & _ & H).
  apply H. exists [Insert 1 10; Insert 2 20; Insert 3 30; Insert 4 40; Insert 2 21; Remove 3].
  eexists. vm_compute. reflexivity.
Defined.

(** [find] on a search tree always returns; its cursor is valid exactly
    when the key is stored, and a valid cursor stands on a slot that holds
    the key and belongs to the in-order walk.  Equal keys may be stored
    more than once. *)
Theorem find_valid_iff_present {V : Type} (ORDER : nat) (t : node V) (k : K) :
  search_tree ORDER t = true ->
  exists c, find t k = Ok c /\
    (valid c = true <-> k ∈ keys_of t) /\
    (forall n i, c = Some (n, i) ->
       exists v, slots n !! i = Some (k, v) /\ (k, v) ∈ inorder t).
Proof.
  intros Ht. destruct (find_answers ORDER t k Ht) as (c & Hc & Hans).
  exists c. split; [done|]. split.
  - by apply answers_valid.
  - intros n i ->. by apply answers_slot.
Qed.

Lemma find_valid_iff_present_witness :
  exists c, find (V:=Z)
              (BTreeNode [(2, 20)] 4 [BTreeLeaf [(1, 10)] 1; BTreeLeaf [(3, 30); (4, 40)] 2]) 5
            = Ok c /\ valid c = false.
Proof.
  destruct (find_valid_iff_present (V:=Z) 4
              (BTreeNode [(2, 20)] 4 [BTreeLeaf [(1, 10)] 1; BTreeLeaf [(3, 30); (4, 40)] 2]) 5
              ltac:(reflexivity)) as (c & Hc & Hv & _).
  exists c. split; [exact Hc|].
  destruct (valid c) eqn:Hvc; [|reflexivity].
  exfalso. pose proof (proj1 Hv eq_refl) as Hin. vm_compute in Hin.
  repeat (apply elem_of_cons in Hin as [Hin|Hin]; [discriminate|]).
  by apply elem_of_nil in Hin.
Defined.

(** [insert] on a search tree puts the new entry after every smaller key
    and before every key that is not smaller, so before the older entries
    of the same key; the result is a search tree again.  After it
    [find(k)] is valid, and for every other key [find] is valid exactly
    when it was before. *)
Theorem insert_then_find {V : Type} (ORDER : nat) (t : node V) (k : K) (v : V) :
  (3 <= ORDER)%nat -> search_tree ORDER t = true ->
  returns (insert ORDER t k v) (fun t' =>
    search_tree ORDER t' = true /\
    (exists l1 l2,
       inorder t = l1 ++ l2 /\ inorder t' = l1 ++ (k, v) :: l2 /\
       Forall (fun x => x.1 < k) l1 /\ Forall (fun x => k <= x.1) l2) /\
    (exists c, find t' k = Ok c /\ valid c = true) /\
    (forall k', k' <> k ->
       exists c c', find t k' = Ok c /\ find t' k' = Ok c' /\ valid c' = valid c)).
Proof.
  intros HO Ht.
  destruct (insert_ordered ORDER HO t k v Ht) as (t' & Ht' & Hst' & l1 & l2 & Hl & Hl' & Hlh).
  exists t'. split; [done|]. split; [done|]. split; [by exists l1, l2|].
  assert (Hkeys : forall k', k' ∈ keys_of t' <-> k' = k \/ k' ∈ keys_of t).
  { intros k'. unfold keys_of. rewrite Hl, Hl', !fmap_app, fmap_cons, !elem_of_app.
    rewrite elem_of_cons. cbn [fst]. tauto. }
  split.
  - destruct (find_answers ORDER t' k Hst') as (c & Hc & Hans).
    exists c. split; [done|]. apply (answers_valid _ _ _ Hans).
    apply Hkeys. by left.
  - intros k' Hne.
    destruct (find_answers ORDER t k' Ht) as (c & Hc & Hans).
    destruct (find_answers ORDER t' k' Hst') as (c' & Hc' & Hans').
    exists c, c'. split; [done|]. split; [done|].
    apply answers_valid in Hans, Hans'. fold (keys_of t) in Hans. fold (keys_of t') in Hans'.
    apply Bool.eq_true_iff_eq. rewrite Hans, Hans', Hkeys. tauto.
Qed.

Lemma insert_then_find_witness :
  returns (insert (V:=Z) 4
             (BTreeNode [(2, 20)] 4 [BTreeLeaf [(1, 10)] 1; BTreeLeaf [(3, 30); (4, 40)] 2])
             3 31)
    (fun t' => search_tree 4 t' = true).
Proof.
  destruct (insert_then_find (V:=Z) 4
              (BTreeNode [(2, 20)] 4 [BTreeLeaf [(1, 10)] 1; BTreeLeaf [(3, 30); (4, 40)] 2])
              3 31 ltac:(lia) ltac:(reflexivity)) as (t' & Ht' & Hst & _).
  exists t'. split; [exact Ht'|exact Hst].
Defined.

(** [remove] on a search tree, when it does not stop the program,
    returns a search tree; it returns true exactly when the key is
    stored, and then the in-order walk loses one entry with that key and
    no other, and [size()] goes down by one; otherwise the walk and
    [size()] stay as they are.  Equal keys may be stored more than
    once. *)
Theorem remove_takes_one_entry {V : Type} (ORDER : nat) (t : node V) (k : K) :
  (3 <= ORDER)%nat -> search_tree ORDER t = true ->
  completes (remove ORDER t k) (fun r =>
    search_tree ORDER r.1 = true /\
    (r.2 = true <-> k ∈ keys_of t) /\
    if r.2 then took k (inorder t) (inorder r.1) /\ size r.1 = wrap (size t - 1)
    else inorder r.1 = inorder t /\ size r.1 = size t).
Proof.
  intros HO Ht.
  eapply completes_impl; [by apply (remove_ordered ORDER HO)|].
  intros [t' b] _ (Hst & Hflag & Hwalk). cbn [fst snd] in *.
  split; [done|]. split; [done|].
  apply search_tree_iff in Ht as [Hwf _]. apply search_tree_iff in Hst as [Hwf' _].
  rewrite (size_is_count ORDER t'), (size_is_count ORDER t) by done.
  unfold count. destruct b.
  - split; [done|]. destruct Hwalk as (l1 & v & l2 & -> & ->).
    rewrite !length_app. cbn [length]. apply eqw_wrap_eq.
    rewrite wrap_eqw. apply eq_eqw. lia.
  - by rewrite Hwalk.
Qed.

Lemma remove_takes_one_entry_witness :
  completes
    (remove (V:=Z) 4 (BTreeLeaf [(1, 11); (1, 10); (2, 20)] 3) 1)
    (fun r => r.2 = true /\ size r.1 = 2).
Proof.
  pose proof (remove_takes_one_entry (V:=Z) 4 (BTreeLeaf [(1, 11); (1, 10); (2, 20)] 3) 1
                ltac:(lia) ltac:(reflexivity)) as H.
  eapply completes_impl; [exact H|].
  intros [t' b] _ (_ & Hflag & Hrest). cbn [fst snd] in *.
  assert (Hb : b = true).
  { apply Hflag. vm_compute. by left. }
  subst b. split; [reflexivity|]. destruct Hrest as [_ Hsize]. exact Hsize.
Defined.

(** [insert(k, v)] followed by [remove(k)]: the insert returns; the
    remove, when it does not stop the program, returns true and gives
    back the key sequence and the [size()] of the tree before the insert.
    (With equal keys stored, the entry taken away need not be the one
    just inserted.) *)
Theorem insert_remove_restores_keys {V : Type} (ORDER : nat) (t : node V) (k : K) (v : V) :
  (3 <= ORDER)%nat -> search_tree ORDER t = true ->
  returns (insert ORDER t k v) (fun t' =>
    completes (remove ORDER t' k) (fun r =>
      r.2 = true /\ search_tree ORDER r.1 = true /\
      keys_of r.1 = keys_of t /\ size r.1 = size t)).
Proof.
  intros HO Ht.
  destruct (insert_ordered ORDER HO t k v Ht) as (t' & Ht' & Hst' & l1 & l2 & Hl & Hl' & _).
  exists t'. split; [done|].
  eapply completes_impl; [by apply (remove_ordered ORDER HO)|].
  intros [t'' b] _ (Hst'' & Hflag & Hwalk). cbn [fst snd] in *.
  assert (Hb : b = true).
  { apply Hflag. unfold keys_of. rewrite Hl', fmap_app, fmap_cons, elem_of_app.
    right. by left. }
  subst b. split; [done|]. split; [done|].
  assert (Hkeys : keys_of t'' = keys_of t).
  { unfold keys_of. rewrite Hl. apply (took_keys_unique k l1 l2 v).
    - rewrite <- Hl'. by apply (search_tree_iff ORDER).
    - by rewrite <- Hl'. }
  split; [done|].
  apply search_tree_iff in Ht as [Hwf _]. apply search_tree_iff in Hst'' as [Hwf'' _].
  rewrite (size_is_count ORDER t''), (size_is_count ORDER t) by done.
  unfold count. f_equal. f_equal.
  rewrite <- (length_fmap fst (inorder t'')), <- (length_fmap fst (inorder t)).
  unfold keys_of in Hkeys. by rewrite Hkeys.
Qed.

Lemma insert_remove_restores_keys_witness :
  returns (insert (V:=Z) 4 (BTreeLeaf [(1, 10); (2, 20); (3, 30)] 3) 2 21)
    (fun t' => completes (remove 4 t' 2) (fun r => keys_of r.1 = [1; 2; 3])).
Proof.
  destruct (insert_remove_restores_keys (V:=Z) 4 (BTreeLeaf [(1, 10); (2, 20); (3, 30)] 3)
              2 21 ltac:(lia) ltac:(reflexivity)) as (t' & Ht' & H).
  exists t'. split; [exact Ht'|].
  eapply completes_impl; [exact H|].
  intros r _ (_ & _ & Hkeys & _). exact Hkeys.
Defined.

(** ** The validator on trees built through the interface *)

Section Outcome.
Context {V : Type}.
Variable ORDER : nat.
Implicit Types (t n : node V) (l : list (K * V)).

Lemma wf_size_checked t : wf ORDER t = true -> size_checked t = true.
Proof.
  apply every_impl. intros x. rewrite !andb_true_iff, orb_true_iff. tauto.
Qed.

Lemma nondescending_from (p : Z) l :
  nondescending p l.*1 = true <->
  forallb (fun k => p <=? k) l.*1 = true /\ in_order l.*1 = true.
Proof.
  rewrite nondescending_iff, in_order_iff, forallb_Forall, Forall_fmap.
  split; intros [Hall Hs]; (split; [|done]).
  - eapply Forall_impl; [exact Hall|]. intros x Hx. cbn. by apply Z.leb_le.
  - eapply Forall_impl; [exact Hall|]. intros x Hx. cbn in Hx. by apply Z.leb_le.
Qed.

(** What [traverse] does on a tree that satisfies the representation
    invariant and would pass the order check. *)
Lemma traverse_outcome t (print : bool) :
  wf ORDER t = true -> nondescending (-1) (keys_of t) = true ->
  traverse ORDER t print = if min_fill ORDER t then Ok tt else throw FillViolation.
Proof.
  intros Hwf Hord. unfold traverse.
  pose proof (doTraverse_checked ORDER (height t + 1) t 0 (-1) ltac:(lia)
                (wf_realizable ORDER t Hwf)) as Hc.
  pose proof (wf_size_checked t Hwf) as Hsz.
  unfold checked in Hc. cbn [Nat.eqb orb andb] in Hc. fold (min_fill ORDER t) in Hc.
  destruct (doTraverse ORDER (height t + 1) t 0 (-1)) as [l|[| |[]|]];
    cbn [mbind outcome_bind]; try done.
  - destruct Hc as (_ & _ & -> & _). done.
  - by rewrite Hc.
  - congruence.
  - congruence.
Qed.

End Outcome.

Section Validated.
Context {V : Type}.
Variable ORDER : nat.
Hypothesis ORDER_ge_3 : (3 <= ORDER)%nat.
Implicit Types (t n : node V) (l : list (K * V)).

Lemma insert_validated t (k : K) (v : V) :
  wf ORDER t = true -> min_fill ORDER t = true ->
  nondescending (-1) (keys_of t) = true -> -1 <= k ->
  returns (insert ORDER t k v) (fun t' =>
    wf ORDER t' = true /\ min_fill ORDER t' = true /\
    nondescending (-1) (keys_of t') = true).
Proof.
  intros Hwf Hmin Hord Hk.
  destruct (insert_spec ORDER ORDER_ge_3 t k v Hwf)
    as (t' & Ht' & Hwf' & _ & Hfill & _ & l1 & l2 & Hl & Hl' & Hkeys).
  exists t'. split; [done|]. split; [done|]. split; [by apply Hfill|].
  unfold keys_of in *. rewrite Hl in Hord. rewrite Hl'.
  apply nondescending_iff in Hord as [Hall Hs].
  destruct (Hkeys ltac:(by rewrite Hl)) as [Hlow Hhigh].
  apply nondescending_iff. split.
  - rewrite Forall_app, Forall_cons in *. cbn [fst]. tauto.
  - by apply sorted_put_le.
Qed.

Lemma run_inserts (ops : list (op V)) t :
  wf ORDER t = true -> min_fill ORDER t = true ->
  nondescending (-1) (keys_of t) = true ->
  forallb (insert_from (-1)) ops = true ->
  exists t' replies,
    run ORDER ops t = Ok (t', replies) /\
    wf ORDER t' = true /\ min_fill ORDER t' = true /\
    nondescending (-1) (keys_of t') = true.
Proof.
  revert t. induction ops as [|o ops IH]; intros t Hwf Hmin Hord Hops.
  { exists t, []. done. }
  cbn [forallb] in Hops. apply andb_true_iff in Hops as [Ho Hops].
  destruct o as [k v| | | | |]; try done. cbn [insert_from] in Ho.
  apply Z.leb_le in Ho.
  destruct (insert_validated t k v Hwf Hmin Hord Ho) as (t1 & Ht1 & Hwf1 & Hmin1 & Hord1).
  destruct (IH t1 Hwf1 Hmin1 Hord1 Hops) as (t' & replies & Hrun & Hrest).
  exists t', (Done :: replies). split; [|done].
  cbn [run step]. rewrite Ht1. cbn [mbind outcome_bind fst snd].
  rewrite Hrun. done.
Qed.
End Validated.

(** On a search tree whose keys are all at least -1 (the value [last]
    starts from), [traverse] returns normally exactly when every node but
    the root has at least [ORDER / 2 - 1] keys, and throws the fill
    violation otherwise; it never throws the order violation or the size
    mismatch there, whatever the flag. *)
Theorem traverse_on_search_tree {V : Type} (ORDER : nat) (t : node V) (print : bool) :
  search_tree ORDER t = true ->
  forallb (fun k => -1 <=? k) (keys_of t) = true ->
  traverse ORDER t print = if min_fill ORDER t then Ok tt else throw FillViolation.
Proof.
  intros Ht Hlow. apply andb_true_iff in Ht as [Hwf Hord].
  apply traverse_outcome; [done|]. unfold keys_of in *. by apply nondescending_from.
Qed.

Lemma traverse_on_search_tree_witness :
  traverse (V:=Z) 3 (BTreeNode [] 1 [BTreeLeaf [(27, 0)] 1]) false = Ok tt.
Proof.
  apply (traverse_on_search_tree (V:=Z) 3 (BTreeNode [] 1 [BTreeLeaf [(27, 0)] 1]) false);
    reflexivity.
Defined.

(** A tree built from the empty one by [insert] calls alone, with keys
    that are at least -1, always passes the validator: every call
    returns, and [traverse] on the result returns normally. *)
Theorem inserts_pass_validation {V : Type} (ORDER : nat) (ops : list (op V)) (print : bool) :
  (3 <= ORDER)%nat -> forallb (insert_from (-1)) ops = true ->
  exists t replies,
    run ORDER ops empty = Ok (t, replies) /\ traverse ORDER t print = Ok tt.
Proof.
  intros HO Hops.
  destruct (run_inserts ORDER HO ops empty) as (t & replies & Hrun & Hwf & Hmin & Hord);
    [by apply wf_empty|done|done|done|].
  exists t, replies. split; [done|].
  rewrite (traverse_outcome ORDER t print Hwf Hord). by rewrite Hmin.
Qed.

Lemma inserts_pass_validation_witness :
  exists t replies,
    run (V:=Z) 3 [Insert 5 0; Insert 1 0; Insert 5 1; Insert 3 0] empty = Ok (t, replies) /\
    traverse 3 t true = Ok tt.
Proof.
  apply (inserts_pass_validation (V:=Z) 3); [lia|reflexivity].
Defined.

(** ** The restructuring steps one by one *)

Section Steps.
Context {V : Type}.
Variable ORDER : nat.
Hypothesis ORDER_ge_3 : (3 <= ORDER)%nat.
Implicit Types (n p c sib : node V) (s : list (K * V)) (a b : list (node V)).

Lemma internal_of_kid n i c : kids n !! i = Some c -> isLeaf n = false.
Proof. by destruct n. Qed.

(** *** splitChild *)

Lemma splitChild_general p idx c :
  wf ORDER p = true -> kids p !! idx = Some c ->
  len c = (ORDER - 1)%nat -> (len p < ORDER - 1)%nat ->
  returns (splitChild ORDER p idx) (fun p' =>
    wf ORDER p' = true /\ inorder p' = inorder p /\ height p' = height p /\
    size_of p' = size_of p /\ len p' = S (len p) /\
    exists c' m nc,
      kids p' !! idx = Some c' /\ slots p' !! idx = Some m /\
      kids p' !! S idx = Some nc /\
      len c' = (ORDER / 2 - 1)%nat /\ len nc = (ORDER - 1 - ORDER / 2)%nat /\
      inorder c = inorder c' ++ m :: inorder nc).
Proof.
  intros Hwf Hc Hfull Hroom.
  pose proof (internal_of_kid p idx c Hc) as Hleaf.
  destruct (node_split p idx c Hleaf (wf_kids_length ORDER p Hwf Hleaf) Hc)
    as (s1 & s2 & a & b & z & -> & Hs1 & Ha & Hb).
  subst idx. unfold len in Hroom. cbn [slots] in Hroom.
  pose proof Hwf as Hwf0.
  apply wf_node_iff in Hwf0 as (_ & Hkids & Hh & Hz & Hwfc).
  assert (Hwc : wf ORDER c = true).
  { rewrite Forall_app, Forall_cons in Hwfc. by destruct Hwfc as (_ & ? & _). }
  destruct (splitChild_spec ORDER ORDER_ge_3 s1 s2 z a c b Ha Hwc Hfull Hroom)
    as (c' & m & nc & Hsplit & Hwf1 & Hwf2 & Hh1 & Hh2 & Hin & Hsz & Hl1 & Hl2 & _).
  eexists. split; [exact Hsplit|].
  destruct (wf_node_intro ORDER (s1 ++ m :: s2) z (a ++ c' :: nc :: b)
              (hmax (a ++ c :: b))) as [Hwf' Hh'].
  { rewrite length_app in *. simpl. lia. }
  { rewrite !length_app in *. simpl in *. lia. }
  { rewrite Forall_app, Forall_cons in Hh. destruct Hh as (? & Hc0 & ?).
    rewrite Forall_app, !Forall_cons. repeat split; try done; congruence. }
  { rewrite Hz, wrap_eqw, !sum_sizes_app, !sum_sizes_cons, <- Hsz.
    apply eq_eqw. rewrite !length_app. simpl length. lia. }
  { rewrite Hz. apply wrap_range. }
  { rewrite Forall_app, Forall_cons in Hwfc. destruct Hwfc as (? & ? & ?).
    rewrite Forall_app, !Forall_cons. done. }
  split; [done|]. split; [|split; [|split; [done|split]]].
  - rewrite inorder_two by done. rewrite inorder_node by done. rewrite Hin.
    by rewrite <- !app_assoc.
  - by rewrite Hh', height_node.
  - unfold len. cbn [slots]. rewrite !length_app. cbn [length]. lia.
  - exists c', m, nc. cbn [kids slots]. split; [by apply list_lookup_middle|].
    split; [by apply list_lookup_middle|]. split; [|done].
    rewrite (cons_middle c' a), app_assoc. apply list_lookup_middle.
    rewrite length_app. simpl. lia.
Qed.

Lemma splitChild_asserts p idx c :
  kids p !! idx = Some c -> len c <> (ORDER - 1)%nat ->
  splitChild ORDER p idx = Fail AssertionFailed.
Proof.
  intros Hc Hlen. unfold splitChild.
  rewrite (proj2 (child_Ok p idx c) (conj (internal_of_kid p idx c Hc) Hc)).
  cbn [mbind outcome_bind]. apply Nat.eqb_neq in Hlen. by rewrite Hlen.
Qed.

(** *** insert and the height *)

Lemma insert_height t (key : K) (val : V) :
  wf ORDER t = true ->
  returns (insert ORDER t key val) (fun t' =>
    height t' = if (len t =? ORDER - 1)%nat then S (height t) else height t).
Proof.
  intros Hwf. unfold insert.
  destruct (Nat.eqb_spec (len t) (ORDER - 1)) as [Hfull|Hfree].
  - assert (Hroot : wf ORDER (BTreeNode ([] ++ []) (size_of t) ([] ++ t :: [])) = true
                    /\ height (BTreeNode ([] ++ []) (size_of t) ([] ++ t :: [])) = S (height t)).
    { apply wf_node_intro; simpl; try done.
      - lia.
      - by constructor.
      - unfold sum_sizes. simpl. apply eq_eqw. lia.
      - by apply (wf_size_range ORDER).
      - by constructor. }
    destruct Hroot as [Hwr Hhr].
    destruct (split_step ORDER ORDER_ge_3 key [] [] (size_of t) [] t [] Hwr eq_refl Hfull
                ltac:(simpl; lia) eq_refl)
      as (c' & m & nc & Hsplit & Hwf1 & _ & Hh1 & _).
    simpl app in *. simpl length in Hsplit. rewrite Hsplit. cbn [mbind outcome_bind].
    destruct (insertNonFull_spec ORDER ORDER_ge_3
                (height (BTreeNode [m] (size_of t) [c'; nc]) + 1)
                (BTreeNode [m] (size_of t) [c'; nc]) key val Hwf1)
      as (t' & Ht' & _ & Hh' & _).
    { unfold len. simpl. lia. }
    { lia. }
    exists t'. split; [done|]. by rewrite Hh', Hh1, Hhr.
  - destruct (insertNonFull_spec ORDER ORDER_ge_3 (height t + 1) t key val Hwf)
      as (t' & Ht' & _ & Hh' & _).
    { pose proof (wf_cap ORDER t Hwf). lia. }
    { lia. }
    exists t'. split; [done|]. done.
Qed.

(** *** merge, borrowFromPrev, borrowFromNext return *)

Lemma merge_returns s1 (sep : K * V) s2 z a c sib b :
  wf ORDER (BTreeNode (s1 ++ sep :: s2) z (a ++ c :: sib :: b)) = true ->
  length a = length s1 ->
  (len c <= ORDER / 2 - 1)%nat -> (len sib <= ORDER / 2 - 1)%nat ->
  exists n', merge ORDER (BTreeNode (s1 ++ sep :: s2) z (a ++ c :: sib :: b)) (length s1)
             = Ok n'.
Proof.
  intros Hwf Ha Hlc Hls.
  destruct (wf_around2 ORDER ORDER_ge_3 _ _ _ _ _ _ _ _ Hwf Ha)
    as (Hb & Hwc & Hws & Hhc & Hhs & _).
  assert (Hleaf : isLeaf c = isLeaf sib) by (apply same_height_leaf; congruence).
  unfold merge.
  rewrite (child_middle _ _ a _ c (length s1)) by lia. cbn [mbind outcome_bind].
  rewrite (child_middle2 _ _ a _ c sib (length s1 + 1)) by lia. cbn [mbind outcome_bind].
  apply Nat.leb_le in Hlc, Hls. rewrite Hlc, Hls. cbn [andb assert mbind outcome_bind slots].
  rewrite at_index_middle by lia. cbn [mbind outcome_bind].
  destruct c as [sc zc|sc zc cc]; destruct sib as [ss zs|ss zs sk]; try done;
    cbn [isLeaf negb children mbind outcome_bind]; eauto.
Qed.

Lemma merge_asserts s1 (sep : K * V) s2 z a c sib b :
  length a = length s1 ->
  (len c <=? ORDER / 2 - 1)%nat && (len sib <=? ORDER / 2 - 1)%nat = false ->
  merge ORDER (BTreeNode (s1 ++ sep :: s2) z (a ++ c :: sib :: b)) (length s1)
  = Fail AssertionFailed.
Proof.
  intros Ha Hcond. unfold merge.
  rewrite (child_middle _ _ a _ c (length s1)) by lia. cbn [mbind outcome_bind].
  rewrite (child_middle2 _ _ a _ c sib (length s1 + 1)) by lia. cbn [mbind outcome_bind].
  by rewrite Hcond.
Qed.

Lemma borrowFromPrev_returns s1 (sep : K * V) s2 z a c sib b :
  wf ORDER (BTreeNode (s1 ++ sep :: s2) z (a ++ sib :: c :: b)) = true ->
  length a = length s1 ->
  (len c < ORDER - 1)%nat -> (0 < len sib)%nat ->
  exists n', borrowFromPrev ORDER (BTreeNode (s1 ++ sep :: s2) z (a ++ sib :: c :: b))
               (S (length s1)) = Ok n'.
Proof.
  intros Hwf Ha Hlc Hls.
  destruct (wf_around2 ORDER ORDER_ge_3 _ _ _ _ _ _ _ _ Hwf Ha)
    as (Hb & Hws & Hwc & Hhs & Hhc & _).
  assert (Hleaf : isLeaf c = isLeaf sib) by (apply same_height_leaf; congruence).
  unfold borrowFromPrev.
  rewrite (child_middle2 _ _ a _ sib c (S (length s1))) by lia. cbn [mbind outcome_bind].
  replace (S (length s1) - 1)%nat with (length s1) by lia.
  rewrite (child_middle _ _ a _ sib (length s1)) by lia. cbn [mbind outcome_bind slots].
  replace (ORDER - 1 <=? len c)%nat with false by (symmetry; apply Nat.leb_gt; lia).
  rewrite at_index_middle by lia. cbn [mbind outcome_bind].
  replace (len sib =? 0)%nat with false by (symmetry; apply Nat.eqb_neq; lia).
  destruct (lookup_lt_is_Some_2 (slots sib) (len sib - 1)) as [up Hup];
    [unfold len in *; lia|].
  rewrite (proj2 (at_index_Ok _ _ _) Hup). cbn [mbind outcome_bind].
  destruct c as [sc zc|sc zc cc]; destruct sib as [ss zs|ss zs sk]; try done;
    cbn [isLeaf negb assert mbind outcome_bind]; [eauto|].
  apply wf_node_iff in Hws as (_ & Hks & _).
  destruct (lookup_lt_is_Some_2 sk (len (BTreeNode ss zs sk))) as [moved Hmv];
    [unfold len; cbn [slots]; lia|].
  cbn [kids]. rewrite (proj2 (at_index_Ok _ _ _) Hmv). cbn [mbind outcome_bind]. eauto.
Qed.

Lemma borrowFromNext_returns s1 (sep : K * V) s2 z a c sib b :
  wf ORDER (BTreeNode (s1 ++ sep :: s2) z (a ++ c :: sib :: b)) = true ->
  length a = length s1 ->
  (len c < ORDER - 1)%nat -> (0 < len sib)%nat ->
  exists n', borrowFromNext ORDER (BTreeNode (s1 ++ sep :: s2) z (a ++ c :: sib :: b))
               (length s1) = Ok n'.
Proof.
  intros Hwf Ha Hlc Hls.
  destruct (wf_around2 ORDER ORDER_ge_3 _ _ _ _ _ _ _ _ Hwf Ha)
    as (Hb & Hwc & Hws & Hhc & Hhs & _).
  assert (Hleaf : isLeaf c = isLeaf sib) by (apply same_height_leaf; congruence).
  unfold borrowFromNext.
  rewrite (child_middle _ _ a _ c (length s1)) by lia. cbn [mbind outcome_bind].
  rewrite (child_middle2 _ _ a _ c sib (length s1 + 1)) by lia.
  cbn [mbind outcome_bind slots].
  replace (ORDER - 1 <=? len c)%nat with false by (symmetry; apply Nat.leb_gt; lia).
  rewrite at_index_middle by lia. cbn [mbind outcome_bind].
  destruct (lookup_lt_is_Some_2 (slots sib) 0) as [up Hup]; [unfold len in *; lia|].
  rewrite (proj2 (at_index_Ok _ _ _) Hup). cbn [mbind outcome_bind].
  destruct c as [sc zc|sc zc cc]; destruct sib as [ss zs|ss zs sk]; try done;
    cbn [isLeaf negb assert mbind outcome_bind]; [eauto|].
  apply wf_node_iff in Hws as (_ & Hks & _).
  destruct (lookup_lt_is_Some_2 sk 0) as [moved Hmv]; [lia|].
  cbn [kids]. rewrite (proj2 (at_index_Ok _ _ _) Hmv). cbn [mbind outcome_bind]. eauto.
Qed.

(** *** fill returns *)

Lemma half_le : (1 <= ORDER / 2 /\ ORDER / 2 <= ORDER - 1)%nat.
Proof. halve ORDER ORDER_ge_3. lia. Qed.

Lemma fill_returns n idx c :
  wf ORDER n = true -> kids n !! idx = Some c ->
  (0 < len n)%nat -> (len c < ORDER / 2)%nat ->
  exists n1, fill ORDER n idx = Ok n1.
Proof.
  intros Hwf Hc Hkeys Hlow.
  pose proof (internal_of_kid n idx c Hc) as Hleaf.
  pose proof (wf_kids_length ORDER n Hwf Hleaf) as Hlen.
  pose proof (lookup_lt_Some _ _ _ Hc) as Hidx.
  pose proof half_le as [Hh1 Hh2].
  unfold fill. rewrite (proj2 (child_Ok n idx c) (conj Hleaf Hc)). cbn [mbind outcome_bind].
  assert (Hprev : idx <> 0%nat -> exists p, kids n !! (idx - 1)%nat = Some p).
  { intros ?. apply lookup_lt_is_Some_2. lia. }
  assert (Hnext : idx <> len n -> exists x, kids n !! (idx + 1)%nat = Some x).
  { intros ?. apply lookup_lt_is_Some_2. lia. }
  (* the three ways out, each on the node seen around the two children *)
  assert (Hleft : forall p, idx <> 0%nat -> kids n !! (idx - 1)%nat = Some p ->
            ((ORDER / 2 <= len p)%nat -> exists n1, borrowFromPrev ORDER n idx = Ok n1) /\
            ((len p < ORDER / 2)%nat -> exists n1, merge ORDER n (idx - 1) = Ok n1)).
  { intros p H0 Hp.
    destruct (node_split2 n (idx - 1) p c) as (s1 & sep & s2 & a & b & z & -> & Hs1 & Ha & Hb);
      try done.
    { by replace (S (idx - 1)) with idx by lia. }
    replace idx with (S (length s1)) by lia. split; intros Hp'.
    - apply borrowFromPrev_returns; try done; lia.
    - replace (S (length s1) - 1)%nat with (length s1) by lia.
      apply merge_returns; try done; lia. }
  assert (Hright : forall x, kids n !! (idx + 1)%nat = Some x ->
            ((ORDER / 2 <= len x)%nat -> exists n1, borrowFromNext ORDER n idx = Ok n1) /\
            ((len x < ORDER / 2)%nat -> exists n1, merge ORDER n idx = Ok n1)).
  { intros x Hx.
    destruct (node_split2 n idx c x) as (s1 & sep & s2 & a & b & z & -> & Hs1 & Ha & Hb);
      try done.
    { by replace (S idx) with (idx + 1)%nat by lia. }
    subst idx. split; intros Hx'.
    - apply borrowFromNext_returns; try done; lia.
    - apply merge_returns; try done; lia. }
  destruct (Nat.eqb_spec idx 0) as [H0|H0].
  - (* the first child: only a right sibling *)
    cbn [mbind outcome_bind].
    destruct (Nat.eqb_spec idx (len n)) as [Hl|Hl]; [lia|].
    destruct (Hnext Hl) as [x Hx].
    rewrite (proj2 (child_Ok n (idx + 1) x) (conj Hleaf Hx)). cbn [mbind outcome_bind].
    destruct (Hright x Hx) as [Hb Hm].
    destruct (Nat.leb_spec (ORDER / 2) (len x)); cbn [negb]; [by apply Hb|by apply Hm].
  - destruct (Hprev H0) as [p Hp].
    rewrite (proj2 (child_Ok n (idx - 1) p) (conj Hleaf Hp)). cbn [mbind outcome_bind].
    destruct (Hleft p H0 Hp) as [Hbp Hmp].
    destruct (Nat.leb_spec (ORDER / 2) (len p)); [by apply Hbp|].
    destruct (Nat.eqb_spec idx (len n)) as [Hl|Hl]; cbn [mbind outcome_bind negb].
    + (* the last child: merge into the left sibling *)
      by apply Hmp.
    + destruct (Hnext Hl) as [x Hx].
      rewrite (proj2 (child_Ok n (idx + 1) x) (conj Hleaf Hx)). cbn [mbind outcome_bind].
      destruct (Hright x Hx) as [Hb Hm].
      destruct (Nat.leb_spec (ORDER / 2) (len x)); cbn [negb]; [by apply Hb|by apply Hm].
Qed.

(** A node without keys has one child and no sibling to take from. *)
Lemma fill_alone n idx :
  wf ORDER n = true -> len n = 0%nat -> forall n1, fill ORDER n idx <> Ok n1.
Proof.
  intros Hwf Hn n1 Hfill. unfold fill in Hfill.
  apply bind_Ok in Hfill as (c & Hc & Hfill). apply child_Ok in Hc as [Hleaf Hc].
  pose proof (wf_kids_length ORDER n Hwf Hleaf) as Hlen.
  pose proof (lookup_lt_Some _ _ _ Hc) as Hidx.
  assert (idx = 0%nat) as -> by lia.
  rewrite Hn in Hfill. cbn [Nat.eqb mbind outcome_bind negb] in Hfill. done.
Qed.

(** *** The steps on a node in general position *)

Lemma merge_general n idx c sib :
  wf ORDER n = true -> kids n !! idx = Some c -> kids n !! S idx = Some sib ->
  if (len c <=? ORDER / 2 - 1)%nat && (len sib <=? ORDER / 2 - 1)%nat then
    returns (merge ORDER n idx) (fun n' =>
      wf ORDER n' = true /\ inorder n' = inorder n /\ height n' = height n /\
      size_of n' = size_of n /\ S (len n') = len n /\
      exists c' sep,
        slots n !! idx = Some sep /\ kids n' !! idx = Some c' /\
        inorder c' = inorder c ++ sep :: inorder sib /\
        len c' = (len c + len sib + 1)%nat)
  else merge ORDER n idx = Fail AssertionFailed.
Proof.
  intros Hwf Hc Hsib.
  pose proof (internal_of_kid n idx c Hc) as Hleaf.
  destruct (node_split2 n idx c sib Hleaf (wf_kids_length ORDER n Hwf Hleaf) Hc Hsib)
    as (s1 & sep & s2 & a & b & z & -> & Hs1 & Ha & Hb).
  subst idx.
  destruct ((len c <=? ORDER / 2 - 1)%nat && (len sib <=? ORDER / 2 - 1)%nat) eqn:Hcond;
    [|by apply merge_asserts].
  apply andb_true_iff in Hcond as [Hlc Hls]. apply Nat.leb_le in Hlc, Hls.
  destruct (merge_returns s1 sep s2 z a c sib b Hwf Ha Hlc Hls) as [n' Hn'].
  exists n'. split; [done|].
  destruct (merge_spec ORDER ORDER_ge_3 _ _ _ _ _ _ _ _ _ Hwf Ha Hn')
    as (c' & -> & Hwf' & Hh' & Hc' & Hlc').
  split; [done|]. split; [|split; [done|split; [done|split]]].
  - rewrite inorder_two, inorder_node by done. rewrite Hc'. by rewrite <- !app_assoc.
  - unfold len. cbn [slots]. rewrite !length_app. cbn [length]. lia.
  - exists c', sep. cbn [slots kids].
    split; [by apply list_lookup_middle|]. split; [by apply list_lookup_middle|]. done.
Qed.

Lemma borrowFromPrev_general n j c sib :
  wf ORDER n = true -> kids n !! S j = Some c -> kids n !! j = Some sib ->
  (len c < ORDER - 1)%nat -> (0 < len sib)%nat ->
  returns (borrowFromPrev ORDER n (S j)) (fun n' =>
    wf ORDER n' = true /\ inorder n' = inorder n /\ height n' = height n /\
    size_of n' = size_of n /\ len n' = len n /\
    exists c' sib',
      kids n' !! S j = Some c' /\ kids n' !! j = Some sib' /\
      len c' = S (len c) /\ S (len sib') = len sib).
Proof.
  intros Hwf Hc Hsib Hlc Hls.
  pose proof (internal_of_kid n (S j) c Hc) as Hleaf.
  destruct (node_split2 n j sib c Hleaf (wf_kids_length ORDER n Hwf Hleaf) Hsib Hc)
    as (s1 & sep & s2 & a & b & z & -> & Hs1 & Ha & Hb).
  subst j.
  destruct (borrowFromPrev_returns s1 sep s2 z a c sib b Hwf Ha Hlc Hls) as [n' Hn'].
  exists n'. split; [done|].
  destruct (borrowFromPrev_spec ORDER ORDER_ge_3 _ _ _ _ _ _ _ _ _ _ Hwf Ha eq_refl Hn')
    as (c' & sib' & up & mv & -> & Hwf' & Hh' & Hsibw & Hc' & Hlc' & Hls').
  split; [done|]. split; [|split; [done|split; [done|split]]].
  - rewrite !inorder_two by done. rewrite Hsibw, Hc'. by rewrite <- !app_assoc.
  - unfold len. cbn [slots]. rewrite !length_app. done.
  - exists c', sib'. cbn [kids]. split; [|split; [by apply list_lookup_middle|done]].
    rewrite (cons_middle sib' a), app_assoc. apply list_lookup_middle.
    rewrite length_app. simpl. lia.
Qed.

Lemma borrowFromNext_general n idx c sib :
  wf ORDER n = true -> kids n !! idx = Some c -> kids n !! S idx = Some sib ->
  (len c < ORDER - 1)%nat -> (0 < len sib)%nat ->
  returns (borrowFromNext ORDER n idx) (fun n' =>
    wf ORDER n' = true /\ inorder n' = inorder n /\ height n' = height n /\
    size_of n' = size_of n /\ len n' = len n /\
    exists c' sib',
      kids n' !! idx = Some c' /\ kids n' !! S idx = Some sib' /\
      len c' = S (len c) /\ S (len sib') = len sib).
Proof.
  intros Hwf Hc Hsib Hlc Hls.
  pose proof (internal_of_kid n idx c Hc) as Hleaf.
  destruct (node_split2 n idx c sib Hleaf (wf_kids_length ORDER n Hwf Hleaf) Hc Hsib)
    as (s1 & sep & s2 & a & b & z & -> & Hs1 & Ha & Hb).
  subst idx.
  destruct (borrowFromNext_returns s1 sep s2 z a c sib b Hwf Ha Hlc Hls) as [n' Hn'].
  exists n'. split; [done|].
  destruct (borrowFromNext_spec ORDER ORDER_ge_3 _ _ _ _ _ _ _ _ _ Hwf Ha Hn')
    as (c' & sib' & up & mv & -> & Hwf' & Hh' & Hc' & Hsibw & Hlc' & Hls').
  split; [done|]. split; [|split; [done|split; [done|split]]].
  - rewrite !inorder_two by done. rewrite Hsibw, Hc'. by rewrite <- !app_assoc.
  - unfold len. cbn [slots]. rewrite !length_app. done.
  - exists c', sib'. cbn [kids]. split; [by apply list_lookup_middle|split; [|done]].
    rewrite (cons_middle c' a), app_assoc. apply list_lookup_middle.
    rewrite length_app. simpl. lia.
Qed.

Lemma fill_general n idx c :
  wf ORDER n = true -> kids n !! idx = Some c ->
  (0 < len n)%nat -> (len c < ORDER / 2)%nat ->
  returns (fill ORDER n idx) (fun n1 =>
    wf ORDER n1 = true /\ inorder n1 = inorder n /\ height n1 = height n /\
    size_of n1 = size_of n /\
    exists c1,
      kids n1 !! (if (idx =? len n)%nat && (len n1 <? idx)%nat
                  then (idx - 1)%nat else idx) = Some c1 /\
      (len c < len c1)%nat).
Proof.
  intros Hwf Hc Hkeys Hlow.
  destruct (fill_returns n idx c Hwf Hc Hkeys Hlow) as [n1 Hn1].
  exists n1. split; [done|].
  destruct (fill_spec ORDER ORDER_ge_3 n idx n1 Hwf Hn1)
    as (Hwf1 & Hh1 & Hz1 & Hin1 & idx1 & c1 & pre & post & -> & Hc1 & Hgrow & _).
  repeat split; try done. exists c1. split; [done|]. by apply Hgrow.
Qed.

(** *** getPredecessor, getSuccessor *)

Lemma every_plug (P : node V -> bool) below leaf :
  good_chain below -> every P (plug below leaf) = true -> P leaf = true.
Proof.
  revert leaf. induction below as [|[p i] up IH]; intros leaf Hg Hall.
  - cbn [plug] in Hall. rewrite every_unfold in Hall. by apply andb_true_iff in Hall as [? _].
  - apply Forall_cons in Hg as [[Hp Hi] Hg]. cbn [plug fst snd] in *.
    specialize (IH _ Hg Hall).
    destruct p as [|s z cc]; [done|]. cbn [set_child kids set_kids] in *.
    assert (Hin : every P (BTreeNode s z (<[i:=leaf]> cc)) = true).
    { clear IH. revert Hall. generalize (BTreeNode s z (<[i:=leaf]> cc)).
      induction up as [|[q j] up IHup]; intros m Hall; [done|].
      apply Forall_cons in Hg as [[Hq Hj] Hg]. cbn [plug fst snd] in *.
      specialize (IHup Hg _ Hall).
      destruct q as [|sq zq cq]; [done|]. cbn [set_child kids set_kids] in *.
      apply every_node_iff in IHup as [_ Hk]. rewrite Forall_forall in Hk.
      apply Hk. apply list_elem_of_lookup. exists j. by apply list_lookup_insert_eq. }
    apply every_node_iff in Hin as [_ Hk]. rewrite Forall_forall in Hk.
    assert (Hl : every P leaf = true).
    { apply Hk. apply list_elem_of_lookup. exists i. by apply list_lookup_insert_eq. }
    rewrite every_unfold in Hl. by apply andb_true_iff in Hl as [? _].
Qed.

Lemma getPredecessor_general n idx (x : K * V) :
  wf ORDER n = true -> isLeaf n = false -> slots n !! idx = Some x ->
  match getPredecessor n idx with
  | Ok (below, leaf, i) =>
      isLeaf leaf = true /\
      exists y l1 l2, slots leaf !! i = Some y /\ inorder n = l1 ++ y :: x :: l2
  | Fail AssertionFailed => every (fun m => (0 <? len m)%nat) n = false
  | Fail _ => False
  end.
Proof.
  intros Hwn Hleaf Hx.
  destruct (node_split_slot ORDER ORDER_ge_3 n idx x Hwn Hleaf Hx)
    as (s1 & s2 & a & left & right & b & z & -> & Hs1 & Ha & Hb).
  subst idx.
  destruct (wf_child ORDER _ left (length s1) Hwn) as [Hwl Hhl].
  { cbn [kids]. by apply list_lookup_middle. }
  unfold getPredecessor. cbn [kids slots].
  rewrite at_index_middle by done. cbn [mbind outcome_bind].
  destruct (descend_spec ORDER ORDER_ge_3 len (height left + 1) left []) as
    (below & leaf & Hd & Hlf & Hplug & Hgb & Hpk); [lia|lia|done|].
  rewrite app_nil_r in Hd. rewrite Hd. cbn [mbind outcome_bind].
  destruct (0 <? len leaf)%nat eqn:Hpos; cbn [assert mbind outcome_bind].
  - apply Nat.ltb_lt in Hpos. split; [done|].
    destruct (lookup_lt_is_Some_2 (slots leaf) (len leaf - 1)) as [y Hy];
      [unfold len in *; lia|].
    pose proof (last_split _ _ _ Hy ltac:(unfold len in *; lia)) as Hsl.
    exists y, (weave a s1 ++ before_chain below ++ take (len leaf - 1) (slots leaf)),
           (inorder right ++ weave_after s2 b).
    split; [done|].
    rewrite inorder_two by done. rewrite <- Hplug at 1.
    rewrite (inorder_plug ORDER) by (done || by rewrite Hplug).
    rewrite (after_chain_rightmost below Hpk), app_nil_r.
    destruct leaf as [sl zl|]; [|done]. rewrite inorder_leaf. cbn [slots] in *.
    rewrite Hsl at 1. by rewrite <- !app_assoc.
  - (* the leaf reached is empty *)
    apply not_true_is_false. intros Hall.
    apply every_node_iff in Hall as [_ Hall].
    rewrite Forall_app, Forall_cons in Hall. destruct Hall as (_ & Hall & _).
    rewrite <- Hplug in Hall. apply every_plug in Hall; [|done]. congruence.
Qed.

Lemma getSuccessor_general n idx (x : K * V) :
  wf ORDER n = true -> isLeaf n = false -> slots n !! idx = Some x ->
  match getSuccessor n idx with
  | Ok (below, leaf, i) =>
      isLeaf leaf = true /\
      exists y l1 l2, slots leaf !! i = Some y /\ inorder n = l1 ++ x :: y :: l2
  | Fail AssertionFailed => every (fun m => (0 <? len m)%nat) n = false
  | Fail _ => False
  end.
Proof.
  intros Hwn Hleaf Hx.
  destruct (node_split_slot ORDER ORDER_ge_3 n idx x Hwn Hleaf Hx)
    as (s1 & s2 & a & left & right & b & z & -> & Hs1 & Ha & Hb).
  subst idx.
  assert (Hright : (a ++ left :: right :: b) !! (length s1 + 1)%nat = Some right).
  { rewrite (cons_middle left a), app_assoc. apply list_lookup_middle.
    rewrite length_app. simpl. lia. }
  destruct (wf_child ORDER _ right (length s1 + 1) Hwn Hright) as [Hwl Hhl].
  unfold getSuccessor. cbn [kids slots].
  rewrite (proj2 (at_index_Ok _ _ _) Hright). cbn [mbind outcome_bind].
  destruct (descend_spec ORDER ORDER_ge_3 (fun _ => 0%nat) (height right + 1) right []) as
    (below & leaf & Hd & Hlf & Hplug & Hgb & Hpk); [lia|lia|done|].
  rewrite app_nil_r in Hd. rewrite Hd. cbn [mbind outcome_bind].
  destruct (0 <? len leaf)%nat eqn:Hpos; cbn [assert mbind outcome_bind].
  - apply Nat.ltb_lt in Hpos. split; [done|].
    destruct leaf as [sl zl|]; [|done]. unfold len in Hpos. cbn [slots] in *.
    destruct sl as [|y sl]; [simpl in Hpos; lia|].
    exists y, (weave a s1 ++ inorder left),
           (sl ++ after_chain below ++ weave_after s2 b).
    split; [done|].
    rewrite inorder_two by done. rewrite <- Hplug at 1.
    rewrite (inorder_plug ORDER) by (done || by rewrite Hplug).
    rewrite (before_chain_leftmost below Hpk), inorder_leaf.
    cbn [app]. by rewrite <- !app_assoc.
  - apply not_true_is_false. intros Hall.
    apply every_node_iff in Hall as [_ Hall].
    rewrite Forall_app, !Forall_cons in Hall. destruct Hall as (_ & _ & Hall & _).
    rewrite <- Hplug in Hall. apply every_plug in Hall; [|done]. congruence.
Qed.
End Steps.

(** [splitChild] requires a full child: it fails its [assert] when
    [children[idx]] does not hold [ORDER - 1] keys.  On a node that
    satisfies the representation invariant and has room for one more key
    it returns; the node keeps its in-order walk, height and size and
    gains one key, the median of the child, with the child's lower
    [ORDER / 2 - 1] keys on its left and the upper [ORDER - 1 - ORDER / 2]
    keys in a new child on its right. *)
Theorem splitChild_halves {V : Type} (ORDER : nat) (p : node V) (idx : nat) (c : node V) :
  (3 <= ORDER)%nat -> wf ORDER p = true -> kids p !! idx = Some c ->
  (len c <> (ORDER - 1)%nat -> splitChild ORDER p idx = Fail AssertionFailed) /\
  (len c = (ORDER - 1)%nat -> (len p < ORDER - 1)%nat ->
   returns (splitChild ORDER p idx) (fun p' =>
     wf ORDER p' = true /\ inorder p' = inorder p /\ height p' = height p /\
     size_of p' = size_of p /\ len p' = S (len p) /\
     exists c' m nc,
       kids p' !! idx = Some c' /\ slots p' !! idx = Some m /\
       kids p' !! S idx = Some nc /\
       len c' = (ORDER / 2 - 1)%nat /\ len nc = (ORDER - 1 - ORDER / 2)%nat /\
       inorder c = inorder c' ++ m :: inorder nc)).
Proof.
  intros HO Hwf Hc. split.
  - by apply splitChild_asserts.
  - by apply splitChild_general.
Qed.

Lemma splitChild_halves_witness :
  returns (splitChild (V:=Z) 4
             (BTreeNode [(9, 0)] 5 [BTreeLeaf [(1, 0); (2, 0); (3, 0)] 3; BTreeLeaf [(10, 0)] 1])
             0)
    (fun p' => len p' = 2%nat).
Proof.
  destruct (splitChild_halves (V:=Z) 4
              (BTreeNode [(9, 0)] 5 [BTreeLeaf [(1, 0); (2, 0); (3, 0)] 3; BTreeLeaf [(10, 0)] 1])
              0 (BTreeLeaf [(1, 0); (2, 0); (3, 0)] 3)
              ltac:(lia) ltac:(reflexivity) ltac:(reflexivity)) as [_ H].
  destruct (H ltac:(reflexivity) ltac:(vm_compute; lia)) as (p' & Hp' & _ & _ & _ & _ & Hlen & _).
  exists p'. split; [exact Hp'|exact Hlen].
Defined.

(** The tree grows at the root only: [insert] returns a tree that is one
    level higher when the root holds [ORDER - 1] keys at the call, and of
    the same height otherwise. *)
Theorem insert_grows_at_root {V : Type} (ORDER : nat) (t : node V) (key : K) (val : V) :
  (3 <= ORDER)%nat -> wf ORDER t = true ->
  returns (insert ORDER t key val) (fun t' =>
    height t' = if (len t =? ORDER - 1)%nat then S (height t) else height t).
Proof. intros HO Hwf. by apply insert_height. Qed.

Lemma insert_grows_at_root_witness :
  returns (insert (V:=Z) 4 (BTreeLeaf [(1, 0); (2, 0); (3, 0)] 3) 4 0)
    (fun t' => height t' = 1%nat).
Proof.
  apply (insert_grows_at_root (V:=Z) 4 (BTreeLeaf [(1, 0); (2, 0); (3, 0)] 3) 4 0);
    [lia|reflexivity].
Defined.

(** [merge] asserts that both children hold at most [ORDER / 2 - 1]
    keys.  When they do, on a node that satisfies the representation
    invariant it returns: the node loses the separator and one child and
    keeps its in-order walk, height and size; the child at [idx] now
    holds the keys of both children and the separator between them. *)
Theorem merge_joins_neighbours {V : Type} (ORDER : nat) (n : node V) (idx : nat)
    (c sib : node V) :
  (3 <= ORDER)%nat -> wf ORDER n = true ->
  kids n !! idx = Some c -> kids n !! S idx = Some sib ->
  if (len c <=? ORDER / 2 - 1)%nat && (len sib <=? ORDER / 2 - 1)%nat then
    returns (merge ORDER n idx) (fun n' =>
      wf ORDER n' = true /\ inorder n' = inorder n /\ height n' = height n /\
      size_of n' = size_of n /\ S (len n') = len n /\
      exists c' sep,
        slots n !! idx = Some sep /\ kids n' !! idx = Some c' /\
        inorder c' = inorder c ++ sep :: inorder sib /\
        len c' = (len c + len sib + 1)%nat)
  else merge ORDER n idx = Fail AssertionFailed.
Proof. intros HO. by apply merge_general. Qed.

Lemma merge_joins_neighbours_witness :
  merge (V:=Z) 4 (BTreeNode [(5, 0)] 4 [BTreeLeaf [(1, 0); (2, 0)] 2; BTreeLeaf [(9, 0)] 1]) 0
  = Fail AssertionFailed.
Proof.
  apply (merge_joins_neighbours (V:=Z) 4
           (BTreeNode [(5, 0)] 4 [BTreeLeaf [(1, 0); (2, 0)] 2; BTreeLeaf [(9, 0)] 1]) 0
           (BTreeLeaf [(1, 0); (2, 0)] 2) (BTreeLeaf [(9, 0)] 1));
    [lia|reflexivity|reflexivity|reflexivity].
Defined.

(** [borrowFromPrev] on a node that satisfies the representation
    invariant, for a child with room for one more key and a left sibling
    that holds a key: it returns; the child gains exactly one key and the
    sibling loses exactly one, and the node keeps its in-order walk,
    height, size and number of keys. *)
Theorem borrowFromPrev_moves_one_key {V : Type} (ORDER : nat) (n : node V) (j : nat)
    (c sib : node V) :
  (3 <= ORDER)%nat -> wf ORDER n = true ->
  kids n !! S j = Some c -> kids n !! j = Some sib ->
  (len c < ORDER - 1)%nat -> (0 < len sib)%nat ->
  returns (borrowFromPrev ORDER n (S j)) (fun n' =>
    wf ORDER n' = true /\ inorder n' = inorder n /\ height n' = height n /\
    size_of n' = size_of n /\ len n' = len n /\
    exists c' sib',
      kids n' !! S j = Some c' /\ kids n' !! j = Some sib' /\
      len c' = S (len c) /\ S (len sib') = len sib).
Proof. intros HO. by apply borrowFromPrev_general. Qed.

Lemma borrowFromPrev_moves_one_key_witness :
  returns
    (borrowFromPrev (V:=Z) 4
       (BTreeNode [(5, 0)] 4 [BTreeLeaf [(1, 0); (2, 0)] 2; BTreeLeaf [(9, 0)] 1]) 1)
    (fun n' => inorder n' = [(1, 0); (2, 0); (5, 0); (9, 0)]).
Proof.
  destruct (borrowFromPrev_moves_one_key (V:=Z) 4
              (BTreeNode [(5, 0)] 4 [BTreeLeaf [(1, 0); (2, 0)] 2; BTreeLeaf [(9, 0)] 1]) 0
              (BTreeLeaf [(9, 0)] 1) (BTreeLeaf [(1, 0); (2, 0)] 2)
              ltac:(lia) ltac:(reflexivity) ltac:(reflexivity) ltac:(reflexivity)
              ltac:(vm_compute; lia) ltac:(vm_compute; lia)) as (n' & Hn' & _ & Hin & _).
  exists n'. split; [exact Hn'|exact Hin].
Defined.

(** [borrowFromNext], the same from the right sibling. *)
Theorem borrowFromNext_moves_one_key {V : Type} (ORDER : nat) (n : node V) (idx : nat)
    (c sib : node V) :
  (3 <= ORDER)%nat -> wf ORDER n = true ->
  kids n !! idx = Some c -> kids n !! S idx = Some sib ->
  (len c < ORDER - 1)%nat -> (0 < len sib)%nat ->
  returns (borrowFromNext ORDER n idx) (fun n' =>
    wf ORDER n' = true /\ inorder n' = inorder n /\ height n' = height n /\
    size_of n' = size_of n /\ len n' = len n /\
    exists c' sib',
      kids n' !! idx = Some c' /\ kids n' !! S idx = Some sib' /\
      len c' = S (len c) /\ S (len sib') = len sib).
Proof. intros HO. by apply borrowFromNext_general. Qed.

Lemma borrowFromNext_moves_one_key_witness :
  returns
    (borrowFromNext (V:=Z) 4
       (BTreeNode [(5, 0)] 4 [BTreeLeaf [(1, 0)] 1; BTreeLeaf [(8, 0); (9, 0)] 2]) 0)
    (fun n' => inorder n' = [(1, 0); (5, 0); (8, 0); (9, 0)]).
Proof.
  destruct (borrowFromNext_moves_one_key (V:=Z) 4
              (BTreeNode [(5, 0)] 4 [BTreeLeaf [(1, 0)] 1; BTreeLeaf [(8, 0); (9, 0)] 2]) 0
              (BTreeLeaf [(1, 0)] 1) (BTreeLeaf [(8, 0); (9, 0)] 2)
              ltac:(lia) ltac:(reflexivity) ltac:(reflexivity) ltac:(reflexivity)
              ltac:(vm_compute; lia) ltac:(vm_compute; lia)) as (n' & Hn' & _ & Hin & _).
  exists n'. split; [exact Hn'|exact Hin].
Defined.

(** [fill] for a child with fewer than [ORDER / 2] keys, on a node that
    satisfies the representation invariant.  When the node holds at least
    one key, [fill] returns: the node keeps its in-order walk, height and
    size, and the child that [doRemove] goes into next holds more keys
    than the child did.  When the node holds no key, there is no sibling
    and [fill] does not return (the source calls [merge(node, -1)]). *)
Theorem fill_restores_child {V : Type} (ORDER : nat) (n : node V) (idx : nat) (c : node V) :
  (3 <= ORDER)%nat -> wf ORDER n = true -> kids n !! idx = Some c ->
  (len c < ORDER / 2)%nat ->
  ((0 < len n)%nat ->
   returns (fill ORDER n idx) (fun n1 =>
     wf ORDER n1 = true /\ inorder n1 = inorder n /\ height n1 = height n /\
     size_of n1 = size_of n /\
     exists c1,
       kids n1 !! (if (idx =? len n)%nat && (len n1 <? idx)%nat
                   then (idx - 1)%nat else idx) = Some c1 /\
       (len c < len c1)%nat)) /\
  (len n = 0%nat -> forall n1, fill ORDER n idx <> Ok n1).
Proof.
  intros HO Hwf Hc Hlow. split.
  - intros Hkeys. by apply fill_general.
  - intros Hn. by apply fill_alone.
Qed.

Lemma fill_restores_child_witness :
  returns
    (fill (V:=Z) 4 (BTreeNode [(5, 0)] 3 [BTreeLeaf [(1, 0)] 1; BTreeLeaf [(9, 0)] 1]) 1)
    (fun n1 => inorder n1 = [(1, 0); (5, 0); (9, 0)]).
Proof.
  destruct (fill_restores_child (V:=Z) 4
              (BTreeNode [(5, 0)] 3 [BTreeLeaf [(1, 0)] 1; BTreeLeaf [(9, 0)] 1]) 1
              (BTreeLeaf [(9, 0)] 1)
              ltac:(lia) ltac:(reflexivity) ltac:(reflexivity) ltac:(vm_compute; lia))
    as [H _].
  destruct (H ltac:(vm_compute; lia)) as (n1 & Hn1 & _ & Hin & _).
  exists n1. split; [exact Hn1|exact Hin].
Defined.

(** [getPredecessor(node, idx)] on an internal node that satisfies the
    representation invariant: it returns a cursor on a slot of a leaf,
    and that slot is the entry just before slot [idx] of the node in the
    in-order walk; or its [assert] fails, which needs a node without keys
    below; nothing else happens. *)
Theorem predecessor_is_previous_entry {V : Type} (ORDER : nat) (n : node V) (idx : nat)
    (x : K * V) :
  (3 <= ORDER)%nat -> wf ORDER n = true -> isLeaf n = false ->
  slots n !! idx = Some x ->
  match getPredecessor n idx with
  | Ok (below, leaf, i) =>
      isLeaf leaf = true /\
      exists y l1 l2, slots leaf !! i = Some y /\ inorder n = l1 ++ y :: x :: l2
  | Fail AssertionFailed => every (fun m => (0 <? len m)%nat) n = false
  | Fail _ => False
  end.
Proof. intros HO. by apply getPredecessor_general. Qed.

Lemma predecessor_is_previous_entry_witness :
  match getPredecessor (V:=Z)
          (BTreeNode [(5, 0)] 4 [BTreeLeaf [(1, 0); (2, 0)] 2; BTreeLeaf [(9, 0)] 1]) 0 with
  | Ok (below, leaf, i) =>
      isLeaf leaf = true /\
      exists y l1 l2,
        slots leaf !! i = Some y /\
        inorder (BTreeNode [(5, 0)] 4 [BTreeLeaf [(1, 0); (2, 0)] 2; BTreeLeaf [(9, 0)] 1])
        = l1 ++ y :: (5, 0) :: l2
  | Fail AssertionFailed =>
      every (fun m => (0 <? len m)%nat)
        (BTreeNode [(5, 0)] 4 [BTreeLeaf [(1, 0); (2, 0)] 2; BTreeLeaf [(9, 0)] 1]) = false
  | Fail _ => False
  end.
Proof.
  apply (predecessor_is_previous_entry (V:=Z) 4
           (BTreeNode [(5, 0)] 4 [BTreeLeaf [(1, 0); (2, 0)] 2; BTreeLeaf [(9, 0)] 1])
           0 (5, 0)); [lia|reflexivity|reflexivity|reflexivity].
Defined.

(** [getSuccessor(node, idx)], the same with the entry just after slot
    [idx]. *)
Theorem successor_is_next_entry {V : Type} (ORDER : nat) (n : node V) (idx : nat)
    (x : K * V) :
  (3 <= ORDER)%nat -> wf ORDER n = true -> isLeaf n = false ->
  slots n !! idx = Some x ->
  match getSuccessor n idx with
  | Ok (below, leaf, i) =>
      isLeaf leaf = true /\
      exists y l1 l2, slots leaf !! i = Some y /\ inorder n = l1 ++ x :: y :: l2
  | Fail AssertionFailed => every (fun m => (0 <? len m)%nat) n = false
  | Fail _ => False
  end.
Proof. intros HO. by apply getSuccessor_general. Qed.

Lemma successor_is_next_entry_witness :
  match getSuccessor (V:=Z)
          (BTreeNode [(5, 0)] 4 [BTreeLeaf [(1, 0); (2, 0)] 2; BTreeLeaf [(9, 0)] 1]) 0 with
  | Ok (below, leaf, i) =>
      isLeaf leaf = true /\
      exists y l1 l2,
        slots leaf !! i = Some y /\
        inorder (BTreeNode [(5, 0)] 4 [BTreeLeaf [(1, 0); (2, 0)] 2; BTreeLeaf [(9, 0)] 1])
        = l1 ++ (5, 0) :: y :: l2
  | Fail AssertionFailed =>
      every (fun m => (0 <? len m)%nat)
        (BTreeNode [(5, 0)] 4 [BTreeLeaf [(1, 0); (2, 0)] 2; BTreeLeaf [(9, 0)] 1]) = false
  | Fail _ => False
  end.
Proof.
  apply (successor_is_next_entry (V:=Z) 4
           (BTreeNode [(5, 0)] 4 [BTreeLeaf [(1, 0); (2, 0)] 2; BTreeLeaf [(9, 0)] 1])
           0 (5, 0)); [lia|reflexivity|reflexivity|reflexivity].
Defined.

(** ** Removal from a leaf; rank as an index *)

Section LeafRemoval.
Context {V : Type}.
Variable ORDER : nat.
Hypothesis ORDER_ge_3 : (3 <= ORDER)%nat.
Implicit Types (n leaf root : node V) (chain : list (node V * nat)).

Lemma removeFromLeaf_asserts chain leaf idx :
  (len leaf <= idx)%nat -> removeFromLeaf ORDER chain leaf idx = Fail AssertionFailed.
Proof.
  intros Hidx. unfold removeFromLeaf.
  replace (idx <? len leaf)%nat with false by (symmetry; apply Nat.ltb_ge; lia). done.
Qed.

(** No underflow: the leaf keeps [ORDER / 2] keys or more, or is the root. *)
Lemma removeFromLeaf_plain chain leaf idx :
  (idx < len leaf)%nat -> (ORDER / 2 < len leaf)%nat \/ chain = [] ->
  exists root, removeFromLeaf ORDER chain leaf idx = Ok root.
Proof.
  intros Hidx Hroom. unfold removeFromLeaf.
  replace (idx <? len leaf)%nat with true by (symmetry; apply Nat.ltb_lt; lia).
  cbn [assert mbind outcome_bind].
  destruct (lookup_lt_is_Some_2 (keys leaf) idx) as [k Hk].
  { unfold keys. rewrite length_fmap. exact Hidx. }
  rewrite (proj2 (at_index_Ok _ _ _) Hk). cbn [mbind outcome_bind].
  destruct chain as [|[p i] up]; [cbn [fmap list_fmap]; eauto|].
  destruct Hroom as [Hroom|?]; [|done].
  cbn [fmap list_fmap]. unfold decr_size at 1. cbn [fst snd].
  match goal with |- exists _, (if ?c then _ else _) = _ => replace c with false end;
    [eauto|].
  symmetry. apply Nat.ltb_ge. unfold len in *.
  destruct leaf as [s z|s z cc]; cbn [slots set_slots set_size] in *;
    rewrite length_delete by (by apply lookup_lt_is_Some_2); lia.
Qed.

Lemma removeFromLeaf_general chain leaf idx root :
  good_chain chain -> wf ORDER (plug chain leaf) = true -> isLeaf leaf = true ->
  removeFromLeaf ORDER chain leaf idx = Ok root ->
  wf ORDER root = true /\ size root = wrap (size (plug chain leaf) - 1) /\
  exists x l1 l2,
    slots leaf = l1 ++ x :: l2 /\ length l1 = idx /\
    inorder (plug chain leaf) = before_chain chain ++ (l1 ++ x :: l2) ++ after_chain chain /\
    inorder root = before_chain chain ++ (l1 ++ l2) ++ after_chain chain.
Proof.
  intros Hg Hwf Hleaf Hrun.
  destruct (removeFromLeaf_spec ORDER ORDER_ge_3 chain leaf idx root Hg Hwf Hleaf Hrun)
    as (Hwr & x & l1 & l2 & Hsl & Hl1 & Hin).
  assert (Hold : inorder (plug chain leaf)
                 = before_chain chain ++ (l1 ++ x :: l2) ++ after_chain chain).
  { rewrite (inorder_plug ORDER) by done. destruct leaf as [s z|]; [|done].
    rewrite inorder_leaf. cbn [slots] in Hsl. by rewrite Hsl. }
  split; [done|]. split.
  - rewrite (size_is_count ORDER root), (size_is_count ORDER (plug chain leaf)) by done.
    unfold count. rewrite Hin, Hold, !length_app. cbn [length].
    apply eqw_wrap_eq. rewrite wrap_eqw. apply eq_eqw. lia.
  - by exists x, l1, l2.
Qed.
End LeafRemoval.

(** [removeFromLeaf(leaf, idx)], the leaf being reached from the root
    along its parent chain, in a tree that satisfies the representation
    invariant.  Its [assert] fails when [idx] is not below [len].  It
    returns when the leaf keeps [ORDER / 2] keys or more, or is the root.
    Whenever it returns, the new root satisfies the invariant, [size()] is
    one less, and the in-order walk has lost exactly slot [idx] of the
    leaf. *)
Theorem removeFromLeaf_takes_slot {V : Type} (ORDER : nat) (chain : list (node V * nat))
    (leaf : node V) (idx : nat) :
  (3 <= ORDER)%nat -> good_chain chain -> wf ORDER (plug chain leaf) = true ->
  isLeaf leaf = true ->
  ((len leaf <= idx)%nat -> removeFromLeaf ORDER chain leaf idx = Fail AssertionFailed) /\
  ((idx < len leaf)%nat -> (ORDER / 2 < len leaf)%nat \/ chain = [] ->
   exists root, removeFromLeaf ORDER chain leaf idx = Ok root) /\
  (forall root, removeFromLeaf ORDER chain leaf idx = Ok root ->
     wf ORDER root = true /\ size root = wrap (size (plug chain leaf) - 1) /\
     exists x l1 l2,
       slots leaf = l1 ++ x :: l2 /\ length l1 = idx /\
       inorder (plug chain leaf)
       = before_chain chain ++ (l1 ++ x :: l2) ++ after_chain chain /\
       inorder root = before_chain chain ++ (l1 ++ l2) ++ after_chain chain).
Proof.
  intros HO Hg Hwf Hleaf. split; [|split].
  - by apply removeFromLeaf_asserts.
  - by apply removeFromLeaf_plain.
  - intros root Hroot. by apply removeFromLeaf_general.
Qed.

Lemma removeFromLeaf_takes_slot_witness :
  exists root,
    removeFromLeaf (V:=Z) 4
      [(BTreeNode [(5, 0)] 5 [BTreeLeaf [(1, 0)] 1; BTreeLeaf [(7, 0); (8, 0); (9, 0)] 3], 1%nat)]
      (BTreeLeaf [(7, 0); (8, 0); (9, 0)] 3) 1
    = Ok root /\ size root = 4.
Proof.
  destruct (removeFromLeaf_takes_slot (V:=Z) 4
              [(BTreeNode [(5, 0)] 5 [BTreeLeaf [(1, 0)] 1; BTreeLeaf [(7, 0); (8, 0); (9, 0)] 3],
                1%nat)]
              (BTreeLeaf [(7, 0); (8, 0); (9, 0)] 3) 1 ltac:(lia)) as (_ & Hret & Hspec).
  - repeat constructor.
  - reflexivity.
  - reflexivity.
  - destruct Hret as [root Hroot]; [vm_compute; lia|left; vm_compute; lia|].
    exists root. split; [exact Hroot|].
    destruct (Hspec root Hroot) as (_ & Hsize & _). rewrite Hsize. reflexivity.
Defined.

Section Rank.
Context {V : Type}.
Implicit Types (n c : node V) (l : list (K * V)).

Lemma head_is_key (key : K) l :
  StronglySorted slot_le l -> Forall (fun x => key <= x.1) l -> key ∈ l.*1 ->
  exists v l', l = (key, v) :: l'.
Proof.
  intros Hs Hall Hin. destruct l as [|[k v] l']; [by apply not_elem_of_nil in Hin|].
  apply StronglySorted_inv in Hs as [_ Hk]. apply Forall_cons in Hall as [Hge _].
  cbn [fst] in Hge. exists v, l'. f_equal. f_equal.
  cbn [fmap list_fmap fst] in Hin. apply elem_of_cons in Hin as [->|Hin]; [done|].
  apply list_elem_of_fmap in Hin as (x & -> & Hx).
  rewrite Forall_forall in Hk. specialize (Hk x Hx). unfold slot_le in Hk.
  cbn [fst] in Hk. lia.
Qed.

Lemma not_among (P : K -> Prop) (key : K) l :
  Forall (fun x => P x.1) l -> ~ P key -> key ∉ l.*1.
Proof.
  intros Hall Hn Hin. apply list_elem_of_fmap in Hin as (x & -> & Hx).
  rewrite Forall_forall in Hall. by apply Hn, Hall.
Qed.

(** Where [getRank] stops in a walk that may hold equal keys. *)
Lemma getRank_from_place (fuel : nat) n (key : K) (rank : Z) :
  (height n < fuel)%nat -> realizable n = true -> sized n = true ->
  StronglySorted slot_le (inorder n) ->
  returns (getRank_from fuel n key rank) (fun r =>
    exists l1 l2,
      inorder n = l1 ++ l2 /\ eqw r (rank + Z.of_nat (length l1)) /\
      Forall (fun x => x.1 <= key) l1 /\ Forall (fun x => key <= x.1) l2 /\
      (key ∈ keys_of n -> exists v l2', l2 = (key, v) :: l2')).
Proof.
  revert n rank. induction fuel as [|f IH]; intros n rank Hh Hr Hz Hs; [lia|].
  rewrite getRank_from_S. cbv zeta.
  destruct n as [s z|s z cc].
  - simpl negb. cbv iota. simpl isLeaf. cbv iota.
    set (idx := locate (BTreeLeaf s z) key).
    assert (Hres : exists l1 l2,
               inorder (BTreeLeaf s z) = l1 ++ l2 /\
               eqw (wrap (rank + Z.of_nat idx)) (rank + Z.of_nat (length l1)) /\
               Forall (fun x => x.1 <= key) l1 /\ Forall (fun x => key <= x.1) l2 /\
               (key ∈ keys_of (BTreeLeaf s z) -> exists v l2', l2 = (key, v) :: l2')).
    { rewrite inorder_leaf in Hs. unfold keys_of. rewrite inorder_leaf.
      destruct (locate_bounds (BTreeLeaf s z) key) as (Hle & Hlow & Hat & _).
      fold idx in Hle, Hlow, Hat. unfold len, keys in *. cbn [slots] in *.
      assert (Hl1 : Forall (fun x => x.1 < key) (take idx s)).
      { apply Forall_lookup. intros j x Hj. apply lookup_take_Some in Hj as [Hj Hlt].
        apply (Hlow j); [done|]. by rewrite list_lookup_fmap, Hj. }
      assert (Hl2 : Forall (fun x => key <= x.1) (drop idx s)).
      { rewrite <- (take_drop idx s) in Hs.
        apply StronglySorted_app in Hs as (_ & _ & Hs2).
        destruct (drop idx s) as [|y l2] eqn:Hd; [done|].
        assert (Hy : s !! idx = Some y).
        { rewrite <- (Nat.add_0_r idx), <- lookup_drop, Hd. done. }
        assert (Hky : key <= y.1) by (apply Hat; by rewrite list_lookup_fmap, Hy).
        constructor; [done|]. apply StronglySorted_inv in Hs2 as [_ Hall].
        eapply Forall_impl; [exact Hall|]. unfold slot_le. cbn beta. intros; lia. }
      exists (take idx s), (drop idx s). split; [by rewrite take_drop|].
      split; [|split; [|split; [done|]]].
      - rewrite wrap_eqw, length_take. apply eq_eqw. lia.
      - eapply Forall_impl; [exact Hl1|]. cbn beta. intros; lia.
      - intros Hin. apply head_is_key; [|done|].
        + rewrite <- (take_drop idx s) in Hs. by apply StronglySorted_app in Hs as (_ & _ & Hs2).
        + rewrite <- (take_drop idx s), fmap_app, elem_of_app in Hin.
          destruct Hin as [Hin|Hin]; [|done].
          exfalso. revert Hin. apply (not_among (fun k => k < key)); [done|lia]. }
    destruct (found (BTreeLeaf s z) idx key); (eexists; split; [done|exact Hres]).
  - pose proof Hr as Hr'. apply realizable_node in Hr' as [Hlen Hrc].
    pose proof Hz as Hz'. apply sized_node in Hz' as [_ Hzc].
    destruct (lookup_lt_is_Some_2 cc (locate (BTreeNode s z cc) key)) as [c Hc].
    { pose proof (locate_bounds (BTreeNode s z cc) key) as [Hle _].
      unfold len in Hle. simpl in Hle. lia. }
    destruct (node_split (BTreeNode s z cc) _ c eq_refl Hlen Hc)
      as (s1 & s2 & a & b & z' & Heq & Hs1 & Ha & Hb).
    injection Heq as -> -> ->.
    assert (Hrc' : realizable c = true).
    { rewrite Forall_forall in Hrc. apply Hrc. by eapply list_elem_of_lookup_2. }
    assert (Hzc' : sized c = true).
    { rewrite Forall_forall in Hzc. apply Hzc. by eapply list_elem_of_lookup_2. }
    destruct (bracket key s1 s2 z' a c b ltac:(lia) Hb ltac:(done) Hs)
      as (Hbelow & Habove & Hstrict).
    assert (Hwalk : inorder (BTreeNode (s1 ++ s2) z' (a ++ c :: b))
                    = weave a s1 ++ inorder c ++ weave_after s2 b)
      by (apply inorder_node; lia).
    unfold keys_of. rewrite Hwalk. rewrite Hwalk in Hs.
    pose proof Hs as Hs0.
    apply StronglySorted_app in Hs0 as (_ & _ & Hs23).
    pose proof Hs23 as Hs0. apply StronglySorted_app in Hs0 as (Hc3 & Hsc & Hs3).
    set (n := BTreeNode (s1 ++ s2) z' (a ++ c :: b)) in *.
    simpl negb. cbv iota. simpl isLeaf. cbv iota.
    unfold child. simpl children. simpl mbind. unfold at_index. simpl kids.
    rewrite Hc. simpl.
    assert (Htake : take (locate n key) (a ++ c :: b) = a).
    { rewrite <- Ha. apply take_app_length. }
    rewrite Htake.
    assert (Hsum : eqw (sum_sizes a) (counts a)).
    { apply sum_sizes_counts. apply Forall_forall. intros x Hx.
      rewrite Forall_forall in Hrc, Hzc.
      apply sized_count; [apply Hrc|apply Hzc]; rewrite elem_of_app; by left. }
    assert (Hr2 : eqw (foldl (fun r x => wrap (r + size_of x))
                         (wrap (rank + Z.of_nat (locate n key))) a)
                      (rank + Z.of_nat (length (weave a s1)))).
    { rewrite foldl_wrap_sum, Hsum. rewrite length_weave by lia. rewrite <- Hs1.
      rewrite wrap_eqw. apply eq_eqw. lia. }
    assert (Hlow : Forall (fun x => x.1 <= key) (weave a s1)).
    { eapply Forall_impl; [exact Hbelow|]. cbn beta. intros; lia. }
    destruct (found n (locate n key) key) eqn:Hf.
    + eexists. split; [done|].
      destruct (found_true n key Hf) as [v Hv].
      subst n. simpl slots in Hv. rewrite <- Hs1 in Hv.
      destruct s2 as [|y s2];
        [by rewrite lookup_ge_None_2 in Hv by (rewrite length_app; simpl; lia)|].
      rewrite list_lookup_middle in Hv by done. injection Hv as ->.
      destruct b as [|b0 b]; [simpl in Hb; lia|].
      exists (weave a s1 ++ inorder c), (weave_after ((key, v) :: s2) (b0 :: b)).
      split; [by rewrite <- app_assoc|]. split; [|split; [|split; [done|]]].
      * rewrite wrap_eqw, Hr2, (sized_count c Hrc' Hzc'). unfold count.
        rewrite length_app. apply eq_eqw. lia.
      * apply Forall_app. split; [done|]. apply Forall_forall. intros x Hx.
        specialize (Hc3 x (key, v) Hx ltac:(left)). exact Hc3.
      * intros _. simpl. eauto.
    + destruct (IH c (foldl (fun r x => wrap (r + size_of x))
                        (wrap (rank + Z.of_nat (locate n key))) a))
        as (r & Hr0 & c1 & c2 & Hcw & Hreq & Hc1 & Hc2 & Hhead).
      * pose proof (height_child n c _ Hc). lia.
      * done.
      * done.
      * done.
      * exists r. split; [done|].
        rewrite Hs1 in Hstrict. specialize (Hstrict Hf).
        exists (weave a s1 ++ c1), (c2 ++ weave_after s2 b).
        split; [by rewrite Hcw, <- !app_assoc|]. split; [|split; [|split]].
        -- rewrite Hreq, Hr2, length_app. apply eq_eqw. lia.
        -- apply Forall_app. done.
        -- apply Forall_app. done.
        -- intros Hin. rewrite !fmap_app, !elem_of_app in Hin.
           destruct Hin as [Hin|[Hin|Hin]].
           ++ exfalso. revert Hin. apply (not_among (fun k => k < key)); [done|lia].
           ++ destruct (Hhead Hin) as (v & l2' & ->). simpl. eauto.
           ++ exfalso. revert Hin. apply (not_among (fun k => key < k)); [done|lia].
Qed.

Lemma filter_below (key : K) (ks : list K) :
  Forall (fun k => k <= key) ks -> key ∉ ks -> filter (fun k => k < key) ks = ks.
Proof.
  intros Hall Hn. apply filter_all. apply Forall_forall. intros k Hk.
  rewrite Forall_forall in Hall. specialize (Hall k Hk).
  assert (k <> key) by (by intros ->). lia.
Qed.
End Rank.

(** [getRank(key)] on a tree whose size fields are consistent and whose
    keys are in non-descending order, equal keys allowed, with fewer than
    2^32 entries.  The rank is a position [r] of the sorted key sequence
    with every key before it at most [key] and every key from it on at
    least [key]; it is not below the number of keys less than [key]; when
    [key] is stored, the entry at position [r] has that key; when it is
    not, [r] is the number of keys less than [key]. *)
Theorem rank_is_a_position {V : Type} (t : node V) (key : K) :
  realizable t = true -> sized t = true -> in_order (keys_of t) = true ->
  count t < 2 ^ 32 ->
  exists r,
    getRank t key = Ok r /\
    count_less t key <= r <= count t /\
    Forall (fun k => k <= key) (take (Z.to_nat r) (keys_of t)) /\
    Forall (fun k => key <= k) (drop (Z.to_nat r) (keys_of t)) /\
    (key ∈ keys_of t -> keys_of t !! Z.to_nat r = Some key) /\
    (key ∉ keys_of t -> r = count_less t key).
Proof.
  intros Hr Hz Hs Hcount. apply in_order_iff in Hs.
  destruct (getRank_from_place (height t + 1) t key 0 ltac:(lia) Hr Hz Hs)
    as (r & Hrun & l1 & l2 & Hw & Hreq & Hl1 & Hl2 & Hhead).
  assert (Hrange := getRank_from_range _ _ _ _ _ Hrun).
  assert (Hrl : r = Z.of_nat (length l1)).
  { apply eqw_iff in Hreq. rewrite (wrap_small r Hrange) in Hreq. rewrite Hreq.
    apply wrap_small. unfold count in Hcount. rewrite Hw, length_app in Hcount. lia. }
  exists r. split; [exact Hrun|].
  unfold count_less, count, keys_of. rewrite Hw, fmap_app.
  assert (Hn : Z.to_nat r = length l1.*1) by (rewrite length_fmap; lia).
  rewrite Hn, take_app_length, drop_app_length.
  assert (Hnone : filter (fun k => k < key) l2.*1 = []).
  { apply filter_none. by apply Forall_fmap. }
  split; [|split; [|split; [|split]]].
  - rewrite filter_app, Hnone, app_nil_r, !length_app.
    pose proof (length_filter (fun k => k < key) l1.*1) as Hle.
    rewrite length_fmap in Hle. lia.
  - by apply Forall_fmap.
  - by apply Forall_fmap.
  - intros Hin. rewrite <- fmap_app, <- Hw in Hin.
    destruct (Hhead Hin) as (v & l2' & ->).
    by rewrite lookup_app_r, Nat.sub_diag by lia.
  - intros Hnot. rewrite filter_app, Hnone, app_nil_r.
    rewrite filter_below; [by rewrite length_fmap|by apply Forall_fmap|].
    intros Hin. apply Hnot. apply elem_of_app. by left.
Qed.

Lemma rank_is_a_position_witness :
  exists r,
    getRank (V:=Z)
      (BTreeNode [(5, 0)] 5 [BTreeLeaf [(1, 0); (5, 1)] 2; BTreeLeaf [(5, 2); (9, 0)] 2]) 5
    = Ok r /\
    keys_of (BTreeNode [(5, 0)] 5 [BTreeLeaf [(1, 0); (5, 1)] 2; BTreeLeaf [(5, 2); (9, 0)] 2])
      !! Z.to_nat r = Some 5.
Proof.
  destruct (rank_is_a_position (V:=Z)
              (BTreeNode [(5, 0)] 5 [BTreeLeaf [(1, 0); (5, 1)] 2; BTreeLeaf [(5, 2); (9, 0)] 2])
              5 eq_refl eq_refl eq_refl ltac:(vm_compute; reflexivity))
    as (r & Hrun & _ & _ & _ & Hin & _).
  exists r. split; [exact Hrun|]. apply Hin.
  apply (list_elem_of_lookup_2 _ 1%nat). reflexivity.
Defined.

(** ** The destructor *)

Section Freed.
Context {V : Type}.
Implicit Types (n c : node V) (cc : list (node V)).

Lemma destruct_node (s : list (K * V)) z cc :
  destruct (BTreeNode s z cc)
  = if (length s =? 0)%nat then 1%nat
    else S (foldr (fun x a => (destruct x + a)%nat) 0%nat (take (S (length s)) cc)).
Proof.
  cbn [destruct]. destruct (length s =? 0)%nat; [done|]. f_equal.
  generalize (S (length s)). induction cc as [|x cc IH]; intros [|i]; cbn; try done.
  by rewrite IH.
Qed.

Lemma nodes_node (s : list (K * V)) z cc :
  nodes (BTreeNode s z cc) = S (foldr (fun x a => (nodes x + a)%nat) 0%nat cc).
Proof. reflexivity. Qed.

Lemma sum_take_le (f g : node V -> nat) (k : nat) cc :
  Forall (fun x => (f x <= g x)%nat) cc ->
  (foldr (fun x a => (f x + a)%nat) 0%nat (take k cc)
   <= foldr (fun x a => (g x + a)%nat) 0%nat cc)%nat.
Proof.
  intros H. revert k. induction H as [|x cc Hx Hcc IH]; intros [|k]; cbn; try lia.
  specialize (IH k). lia.
Qed.

Lemma sum_eq_iff (f g : node V -> nat) cc :
  Forall (fun x => (f x <= g x)%nat) cc ->
  foldr (fun x a => (f x + a)%nat) 0%nat cc = foldr (fun x a => (g x + a)%nat) 0%nat cc
  <-> Forall (fun x => f x = g x) cc.
Proof.
  induction 1 as [|x cc Hx Hcc IH]; cbn; [by split|].
  pose proof (sum_take_le f g (length cc) cc Hcc) as Hle. rewrite firstn_all in Hle.
  rewrite Forall_cons, <- IH. lia.
Qed.

Lemma destruct_le n : (destruct n <= nodes n)%nat.
Proof.
  induction n as [s z|s z cc IH] using node_ind; [done|].
  rewrite destruct_node, nodes_node. destruct (length s =? 0)%nat; [lia|].
  pose proof (sum_take_le destruct nodes (S (length s)) cc IH). lia.
Qed.

Lemma nodes_pos n : (0 < nodes n)%nat.
Proof. destruct n; cbn; lia. Qed.

Lemma destruct_all n :
  realizable n = true -> destruct n = nodes n <-> every keyed n = true.
Proof.
  induction n as [s z|s z cc IH] using node_ind; intros Hr; [done|].
  apply realizable_node in Hr as [Hlen Hr].
  rewrite destruct_node, nodes_node, every_node_iff.
  unfold keyed at 1, len. cbn [isLeaf slots orb].
  destruct (Nat.eqb_spec (length s) 0) as [H0|H0].
  - destruct cc as [|c cc]; [cbn in Hlen; lia|]. cbn [foldr].
    pose proof (nodes_pos c). replace (0 <? length s)%nat with false
      by (symmetry; apply Nat.ltb_ge; lia).
    split; [lia|]. by intros [? _].
  - rewrite take_ge by lia.
    replace (0 <? length s)%nat with true by (symmetry; apply Nat.ltb_lt; lia).
    assert (Hle : Forall (fun x => (destruct x <= nodes x)%nat) cc).
    { apply Forall_forall. intros x _. apply destruct_le. }
    split.
    + intros Heq. split; [done|]. injection Heq as Heq.
      apply (sum_eq_iff destruct nodes cc Hle) in Heq.
      rewrite Forall_forall in IH, Hr, Heq |- *. intros x Hx.
      apply IH; auto.
    + intros [_ Hall]. f_equal. apply (sum_eq_iff destruct nodes cc Hle).
      rewrite Forall_forall in IH, Hr, Hall |- *. intros x Hx.
      apply IH; auto.
Qed.
End Freed.

Section Built.
Context {V : Type}.
Variable ORDER : nat.
Hypothesis ORDER_ge_4 : (4 <= ORDER)%nat.
Implicit Types (t : node V).

Lemma filled_keyed t :
  keyed t = true -> min_fill ORDER t = true -> every keyed t = true.
Proof.
  intros Hroot Hmin. rewrite every_unfold. apply andb_true_iff. split; [done|].
  unfold min_fill, every_below in Hmin. rewrite forallb_Forall in Hmin |- *.
  eapply Forall_impl; [exact Hmin|]. cbn beta. intros c.
  apply every_impl. intros x. unfold fill_ok, keyed.
  rewrite Nat.leb_le, orb_true_iff, Nat.ltb_lt. intros Hx. right.
  assert (2 <= ORDER / 2)%nat by (apply Nat.div_le_lower_bound; lia). lia.
Qed.

Lemma insert_keyed t (key : K) (val : V) :
  wf ORDER t = true -> keyed t = true ->
  returns (insert ORDER t key val) (fun t' =>
    wf ORDER t' = true /\ keyed t' = true /\
    (min_fill ORDER t = true -> min_fill ORDER t' = true)).
Proof.
  assert (ORDER_ge_3 : (3 <= ORDER)%nat) by lia.
  intros Hwf Hroot.
  destruct (insert_spec ORDER ORDER_ge_3 t key val Hwf) as (t' & Ht' & Hwf' & _ & Hmin & _).
  exists t'. split; [done|]. split; [done|]. split; [|done].
  revert Ht'. unfold insert.
  destruct (Nat.eqb_spec (len t) (ORDER - 1)) as [Hfull|Hfree].
  - assert (Hroot' : wf ORDER (BTreeNode ([] ++ []) (size_of t) ([] ++ t :: [])) = true
                     /\ height (BTreeNode ([] ++ []) (size_of t) ([] ++ t :: []))
                        = S (height t)).
    { apply wf_node_intro; simpl; try done.
      - lia.
      - by constructor.
      - unfold sum_sizes. simpl. apply eq_eqw. lia.
      - by apply (wf_size_range ORDER).
      - by constructor. }
    destruct Hroot' as [Hwr Hhr].
    destruct (split_step ORDER ORDER_ge_3 key [] [] (size_of t) [] t [] Hwr eq_refl Hfull
                ltac:(simpl; lia) eq_refl)
      as (c' & m & nc & Hsplit & Hwf1 & _).
    simpl app in *. simpl length in Hsplit. rewrite Hsplit. cbn [mbind outcome_bind].
    destruct (insertNonFull_spec ORDER ORDER_ge_3
                (height (BTreeNode [m] (size_of t) [c'; nc]) + 1)
                (BTreeNode [m] (size_of t) [c'; nc]) key val Hwf1)
      as (t1 & Ht1 & _ & _ & Hleaf & _ & Hlen & _).
    { unfold len. simpl. lia. }
    { lia. }
    rewrite Ht1. intros [= <-]. unfold keyed. rewrite Hleaf. cbn [isLeaf orb].
    apply Nat.ltb_lt. unfold len in Hlen at 1. cbn [slots length] in Hlen. lia.
  - destruct (insertNonFull_spec ORDER ORDER_ge_3 (height t + 1) t key val Hwf)
      as (t1 & Ht1 & _ & _ & Hleaf & _ & Hlen & _).
    { pose proof (wf_cap ORDER t Hwf). lia. }
    { lia. }
    rewrite Ht1. intros [= <-]. unfold keyed in *. rewrite Hleaf.
    destruct (isLeaf t); [done|]. cbn [orb] in *.
    apply Nat.ltb_lt. apply Nat.ltb_lt in Hroot. lia.
Qed.

(** A call other than [remove] returns, and leaves the tree as it was
    or as [insert] made it. *)
Lemma step_build (o : op V) t :
  wf ORDER t = true -> is_remove o = false ->
  exists t' r, step ORDER o t = Ok (t', r) /\
    (t' = t \/ exists key val, insert ORDER t key val = Ok t').
Proof.
  assert (ORDER_ge_3 : (3 <= ORDER)%nat) by lia.
  intros Hwf Ho. pose proof (wf_realizable ORDER t Hwf) as Hr.
  destruct o; cbn [step]; try done.
  - destruct (insert_spec ORDER ORDER_ge_3 t key val Hwf) as (t' & Ht' & _).
    rewrite Ht'. cbn [mbind outcome_bind]. eauto 8.
  - unfold find. destruct (doFind_total ORDER ORDER_ge_3 (height t + 1) t key) as [c ->]; [lia|done|].
    cbn [mbind outcome_bind]. eauto.
  - unfold getRank.
    destruct (getRank_from_total ORDER ORDER_ge_3 (height t + 1) t key 0) as [r ->]; [lia|done|].
    cbn [mbind outcome_bind]. eauto.
  - eauto.
  - unfold traverse.
    pose proof (doTraverse_checked ORDER (height t + 1) t 0 (-1) ltac:(lia) Hr) as Hc.
    destruct (doTraverse ORDER (height t + 1) t 0 (-1)) as [l|[| |e|]];
      cbn [mbind outcome_bind checked] in *; try done; eauto.
Qed.

Lemma run_build (ops : list (op V)) t :
  wf ORDER t = true -> keyed t = true -> min_fill ORDER t = true ->
  forallb (fun o => negb (is_remove o)) ops = true ->
  exists t' replies,
    run ORDER ops t = Ok (t', replies) /\
    wf ORDER t' = true /\ keyed t' = true /\ min_fill ORDER t' = true.
Proof.
  revert t. induction ops as [|o ops IH]; intros t Hwf Hroot Hmin Hops.
  { exists t, []. done. }
  cbn [forallb] in Hops. apply andb_true_iff in Hops as [Ho Hops].
  apply negb_true_iff in Ho.
  destruct (step_build o t Hwf Ho) as (t1 & r & Hstep & Hcase).
  assert (H1 : wf ORDER t1 = true /\ keyed t1 = true /\ min_fill ORDER t1 = true).
  { destruct Hcase as [->|(key & val & Hins)]; [done|].
    destruct (insert_keyed t key val Hwf Hroot) as (t2 & Ht2 & Hwf2 & Hroot2 & Hmin2).
    rewrite Hins in Ht2. injection Ht2 as <-. auto. }
  destruct H1 as (Hwf1 & Hroot1 & Hmin1).
  destruct (IH t1 Hwf1 Hroot1 Hmin1 Hops) as (t' & replies & Hrun & Hrest).
  exists t', (r :: replies). split; [|done].
  cbn [run]. rewrite Hstep. cbn [mbind outcome_bind fst snd]. by rewrite Hrun.
Qed.
End Built.

(** The destructor, [root.destruct()], on a tree the program can hold in
    memory.  It never deletes more nodes than the tree has, and it
    deletes every node exactly when no internal node of the tree has
    zero keys: [~BTreeNode] returns at once on [len == 0] and leaves the
    children of such a node allocated. *)
Theorem destructor_frees_keyed_trees {V : Type} (t : node V) :
  realizable t = true ->
  (destruct t <= nodes t)%nat /\
  (destruct t = nodes t <-> every keyed t = true).
Proof.
  intros Hr. split; [apply destruct_le|by apply destruct_all].
Qed.

Lemma destructor_frees_keyed_trees_witness :
  destruct (V:=Z) (BTreeNode [] 1 [BTreeLeaf [(27, 0)] 1])
  <> nodes (BTreeNode [] 1 [BTreeLeaf [(27, 0)] 1]).
Proof.
  destruct (destructor_frees_keyed_trees (V:=Z) (BTreeNode [] 1 [BTreeLeaf [(27, 0)] 1])
              eq_refl) as [_ Hiff].
  intros Heq. apply Hiff in Heq. discriminate Heq.
Defined.

(** With [ORDER >= 4], a sequence of calls without [remove] runs to the
    end from the empty tree, and the destructor then deletes every node
    of the tree that was built. *)
Theorem built_tree_is_freed {V : Type} (ORDER : nat) (ops : list (op V)) :
  (4 <= ORDER)%nat -> forallb (fun o => negb (is_remove o)) ops = true ->
  exists t replies,
    run ORDER ops empty = Ok (t, replies) /\ destruct t = nodes t.
Proof.
  intros HO Hops.
  destruct (run_build ORDER HO ops empty) as (t & replies & Hrun & Hwf & Hroot & Hmin);
    [apply wf_empty; lia|done|done|done|].
  exists t, replies. split; [done|].
  apply destruct_all; [by apply (wf_realizable ORDER)|].
  by apply (filled_keyed ORDER HO).
Qed.

Lemma built_tree_is_freed_witness :
  exists t replies,
    run (V:=Z) 4 [Insert 1 0; Insert 2 0; Insert 3 0; Find 2; Insert 4 0; Traverse false] empty
    = Ok (t, replies) /\ destruct t = nodes t.
Proof.
  apply (built_tree_is_freed (V:=Z) 4); [lia|reflexivity].
Defined.

(** ** find and getRank after an update *)

Section Occurrences.
Context {V : Type}.
Implicit Types (l : list (K * V)) (ks : list K).

Lemma occurs_iff (k : K) ks :
  (0 < length (filter (fun k' => k' = k) ks))%nat <-> k ∈ ks.
Proof.
  induction ks as [|x ks IH]; [cbn; split; [lia|by intros ?%not_elem_of_nil]|].
  rewrite filter_cons, elem_of_cons. destruct (decide (x = k)) as [->|Hne].
  - cbn [length]. split; [by left|lia].
  - rewrite IH. split; [by right|]. intros [->|H]; done.
Qed.

Lemma took_occurs (k : K) l l' :
  took k l l' ->
  length (filter (fun k' => k' = k) l.*1) = S (length (filter (fun k' => k' = k) l'.*1)).
Proof.
  intros (l1 & v & l2 & -> & ->).
  rewrite !fmap_app, fmap_cons, !filter_app, filter_cons. cbn [fst].
  rewrite decide_True by done. rewrite !length_app. cbn [length]. lia.
Qed.

Lemma took_others (k k' : K) l l' :
  took k l l' -> k' <> k -> k' ∈ l'.*1 <-> k' ∈ l.*1.
Proof.
  intros (l1 & v & l2 & -> & ->) Hne.
  rewrite !fmap_app, fmap_cons, !elem_of_app, elem_of_cons. cbn [fst]. tauto.
Qed.

Lemma count_less_put (k k' : K) (v : V) l1 l2 :
  Z.of_nat (length (filter (fun x => x < k') (l1 ++ (k, v) :: l2).*1))
  = Z.of_nat (length (filter (fun x => x < k') (l1 ++ l2).*1))
    + (if k <? k' then 1 else 0).
Proof.
  rewrite !fmap_app, fmap_cons, !filter_app, filter_cons, !length_app. cbn [fst].
  destruct (Z.ltb_spec k k').
  - rewrite decide_True by done. cbn [length]. lia.
  - rewrite decide_False by lia. lia.
Qed.

(** On a tree with pairwise distinct keys and fewer than 2^32 of them,
    the rank is the number of smaller keys. *)
Lemma rank_counts (t : node V) (key : K) :
  realizable t = true -> sized t = true -> StronglySorted slot_lt (inorder t) ->
  count t < 2 ^ 32 -> getRank t key = Ok (count_less t key).
Proof.
  intros Hr Hz Hs Hcount. unfold getRank.
  destruct (getRank_from_counts (height t + 1) t key 0 ltac:(lia) Hr Hz Hs)
    as (r & Hr0 & Hreq).
  rewrite Hr0. f_equal. apply getRank_from_range in Hr0.
  rewrite <- (wrap_small r Hr0). apply eqw_iff in Hreq. rewrite Hreq.
  apply wrap_small. unfold count_less, count, keys_of in *.
  pose proof (length_filter (fun k => k < key) (inorder t).*1) as Hle.
  rewrite length_fmap in Hle. lia.
Qed.
End Occurrences.

(** [find] after [remove(k)] on a search tree, when [remove] does not
    stop the program: for every other key [find] is valid exactly when
    it was before, and for [k] itself it is valid exactly when the tree
    held [k] twice or more, since [remove] takes one entry away. *)
Theorem remove_then_find {V : Type} (ORDER : nat) (t : node V) (k : K) :
  (3 <= ORDER)%nat -> search_tree ORDER t = true ->
  completes (remove ORDER t k) (fun r =>
    (exists c, find r.1 k = Ok c /\
       (valid c = true <->
        (2 <= length (filter (fun k' => k' = k) (keys_of t)))%nat)) /\
    (forall k', k' <> k ->
       exists c c', find t k' = Ok c /\ find r.1 k' = Ok c' /\ valid c' = valid c)).
Proof.
  intros HO Ht.
  eapply completes_impl; [by apply (remove_ordered ORDER HO)|].
  intros [t' b] _ (Hst' & Hb & Hwalk). cbn [fst snd] in *.
  assert (Hfind : forall k', exists c c',
             find t k' = Ok c /\ find t' k' = Ok c' /\
             (valid c = true <-> k' ∈ keys_of t) /\
             (valid c' = true <-> k' ∈ keys_of t')).
  { intros k'.
    destruct (find_answers ORDER t k' Ht) as (c & Hc & Hans).
    destruct (find_answers ORDER t' k' Hst') as (c' & Hc' & Hans').
    exists c, c'. split; [done|]. split; [done|].
    split; by apply answers_valid. }
  split.
  - destruct (Hfind k) as (c & c' & _ & Hc' & _ & Hv'). exists c'. split; [done|].
    rewrite Hv', <- (occurs_iff k (keys_of t')). destruct b.
    + unfold keys_of. rewrite (took_occurs k _ _ Hwalk). lia.
    + assert (Hnone : ~ (0 < length (filter (fun k' => k' = k) (keys_of t)))%nat).
      { rewrite occurs_iff, <- Hb. done. }
      unfold keys_of in *. rewrite Hwalk. lia.
  - intros k' Hne. destruct (Hfind k') as (c & c' & Hc & Hc' & Hv & Hv').
    exists c, c'. split; [done|]. split; [done|].
    apply Bool.eq_true_iff_eq. rewrite Hv, Hv'. destruct b.
    + by apply (took_others k).
    + unfold keys_of. by rewrite Hwalk.
Qed.

Lemma remove_then_find_witness :
  completes (remove (V:=Z) 4
               (BTreeNode [(5, 0)] 5 [BTreeLeaf [(1, 0); (5, 1)] 2; BTreeLeaf [(5, 2); (9, 0)] 2])
               5)
    (fun r => exists c, find r.1 5 = Ok c /\ valid c = true).
Proof.
  eapply completes_impl.
  - apply (remove_then_find (V:=Z) 4
             (BTreeNode [(5, 0)] 5 [BTreeLeaf [(1, 0); (5, 1)] 2; BTreeLeaf [(5, 2); (9, 0)] 2])
             5 ltac:(lia) ltac:(reflexivity)).
  - intros r _ [(c & Hc & Hv) _]. exists c. split; [exact Hc|].
    apply Hv. vm_compute. lia.
Defined.

(** [getRank] after an update of a tree with pairwise distinct keys and
    room below 2^32 entries.  After [insert] of a key that is not stored,
    the rank of every key greater than the new one is one more and every
    other rank is unchanged; after a [remove] that returns true, the rank
    of every key greater than the removed one is one less and every other
    rank is unchanged; a [remove] that returns false changes no rank. *)
Theorem rank_follows_updates {V : Type} (ORDER : nat) (t : node V) (k : K) (v : V) :
  (3 <= ORDER)%nat -> wf ORDER t = true -> strictly_sorted (keys_of t) = true ->
  count t + 1 < 2 ^ 32 ->
  (k ∉ keys_of t ->
   returns (insert ORDER t k v) (fun t' =>
     forall k', exists r,
       getRank t k' = Ok r /\ getRank t' k' = Ok (if k <? k' then r + 1 else r))) /\
  completes (remove ORDER t k) (fun r =>
    forall k', exists q,
      getRank t k' = Ok q /\
      getRank r.1 k' = Ok (if r.2 && (k <? k') then q - 1 else q)).
Proof.
  intros HO Hwf Hs Hcount. apply strictly_sorted_iff in Hs.
  pose proof (wf_realizable ORDER t Hwf) as Hr. pose proof (wf_sized ORDER t Hwf) as Hz.
  assert (Hrank : forall k', getRank t k' = Ok (count_less t k')).
  { intros k'. apply rank_counts; [done|done|done|lia]. }
  split.
  - intros Hfresh.
    destruct (insert_spec ORDER HO t k v Hwf)
      as (t' & Ht' & Hwf' & _ & _ & _ & l1 & l2 & Hl & Hl' & Hkeys).
    destruct (insert_fresh ORDER HO t k v Hwf Hs Hfresh) as (t2 & Ht2 & _ & Hs' & _).
    rewrite Ht' in Ht2. injection Ht2 as <-.
    exists t'. split; [done|]. intros k'. exists (count_less t k'). split; [done|].
    rewrite (rank_counts t' k'); [|by apply (wf_realizable ORDER)|by apply (wf_sized ORDER)
                                  |done|].
    + f_equal. unfold count_less, keys_of. rewrite Hl, Hl', count_less_put.
      destruct (k <? k'); lia.
    + unfold count in *. rewrite Hl', length_app. cbn [length].
      rewrite Hl, length_app in Hcount. lia.
  - eapply completes_impl; [by apply (remove_strict ORDER HO)|].
    assert (Hspec := remove_spec ORDER HO t k Hwf).
    intros [t' b] Hrun (Hwf' & Hs' & _ & _ & _ & Hsame). cbn [fst snd] in *.
    rewrite Hrun in Hspec. cbn [completes fst snd] in Hspec.
    destruct Hspec as [_ Hwalk]. specialize (Hwalk (sorted_lt_le _ Hs)).
    intros k'. exists (count_less t k'). split; [done|].
    destruct b; cbn [andb].
    + destruct Hwalk as (l1 & w & l2 & Hl & Hl').
      rewrite (rank_counts t' k'); [|by apply (wf_realizable ORDER)|by apply (wf_sized ORDER)
                                    |done|].
      * f_equal. unfold count_less, keys_of. rewrite Hl, Hl', count_less_put.
        destruct (k <? k'); lia.
      * unfold count in *. rewrite Hl', length_app.
        rewrite Hl, length_app in Hcount. cbn [length] in Hcount. lia.
    + destruct Hwalk as [_ Heq].
      rewrite (rank_counts t' k'); [|by apply (wf_realizable ORDER)|by apply (wf_sized ORDER)
                                    |done|].
      * f_equal. unfold count_less, keys_of. by rewrite Heq.
      * unfold count in *. rewrite Heq. lia.
Qed.

Lemma rank_follows_updates_witness :
  returns (insert (V:=Z) 4
             (BTreeNode [(2, 20)] 4 [BTreeLeaf [(1, 10)] 1; BTreeLeaf [(4, 40); (6, 60)] 2])
             3 30)
    (fun t' => getRank t' 6 = Ok 4).
Proof.
  destruct (rank_follows_updates (V:=Z) 4
              (BTreeNode [(2, 20)] 4 [BTreeLeaf [(1, 10)] 1; BTreeLeaf [(4, 40); (6, 60)] 2])
              3 30 ltac:(lia) ltac:(reflexivity) ltac:(reflexivity)
              ltac:(vm_compute; reflexivity)) as [Hins _].
  destruct Hins as (t' & Ht' & Hrank).
  { intros Hin. vm_compute in Hin.
    repeat (apply elem_of_cons in Hin as [Hin|Hin]; [discriminate Hin|]).
    by apply not_elem_of_nil in Hin. }
  exists t'. split; [exact Ht'|].
  destruct (Hrank 6) as (r & Hr & Hr'). vm_compute in Hr. injection Hr as <-.
  exact Hr'.
Defined.

(** ** Removal from an internal node; size() *)

(** [removeFromNonLeaf(node, idx)], the node being reached from the root
    along its parent chain, in a tree that satisfies the representation
    invariant.  When it does not stop the program, the new root
    satisfies the invariant; and when the keys below the node are in
    order, its in-order walk is the old one without one entry that has
    the key of slot [idx], everything outside the node's subtree staying
    as it was, and [size()] is one less. *)
Theorem removeFromNonLeaf_takes_key {V : Type} (ORDER : nat) (chain : list (node V * nat))
    (n : node V) (idx : nat) (k : K) (v : V) :
  (3 <= ORDER)%nat -> good_chain chain -> wf ORDER (plug chain n) = true ->
  isLeaf n = false -> slots n !! idx = Some (k, v) ->
  completes (removeFromNonLeaf ORDER (2 * height n) chain n idx) (fun root =>
    wf ORDER root = true /\
    (in_order (keys_of n) = true ->
     exists l',
       took k (inorder n) l' /\
       inorder (plug chain n) = before_chain chain ++ inorder n ++ after_chain chain /\
       inorder root = before_chain chain ++ l' ++ after_chain chain /\
       size root = wrap (size (plug chain n) - 1))).
Proof.
  intros HO Hg Hwf Hleaf Hslot.
  eapply completes_impl.
  - apply (proj2 (remove_mutual ORDER HO (2 * height n)) chain n idx k v); done || lia.
  - intros root _ [Hwr Hwalk]. cbn [fst snd] in *. split; [done|].
    intros Hs. apply in_order_iff in Hs.
    destruct (Hwalk Hs) as (l' & Htook & Hroot).
    exists l'. split; [done|].
    assert (Hold : inorder (plug chain n)
                   = before_chain chain ++ inorder n ++ after_chain chain)
      by (by apply (inorder_plug ORDER)).
    split; [done|]. split; [done|].
    rewrite (size_is_count ORDER root), (size_is_count ORDER (plug chain n)) by done.
    unfold count. rewrite Hroot, Hold, !length_app.
    destruct Htook as (l1 & w & l2 & -> & ->). rewrite !length_app. cbn [length].
    apply eqw_wrap_eq. rewrite wrap_eqw. apply eq_eqw. lia.
Qed.

Lemma removeFromNonLeaf_takes_key_witness :
  completes (removeFromNonLeaf (V:=Z) 4 2 []
               (BTreeNode [(5, 0)] 5 [BTreeLeaf [(1, 0); (2, 0)] 2; BTreeLeaf [(7, 0); (8, 0)] 2])
               0)
    (fun root => wf 4 root = true).
Proof.
  eapply completes_impl.
  - apply (removeFromNonLeaf_takes_key (V:=Z) 4 []
             (BTreeNode [(5, 0)] 5 [BTreeLeaf [(1, 0); (2, 0)] 2; BTreeLeaf [(7, 0); (8, 0)] 2])
             0 5 0 ltac:(lia)); [constructor|reflexivity|reflexivity|reflexivity].
  - intros root _ [Hwf _]. exact Hwf.
Defined.

(** [size()] is the number of stored entries, as an [unsigned]: on every
    tree with the representation invariant, and so on every tree built
    from the empty one, it is the length of the in-order walk modulo
    2^32, and the length itself when that is below 2^32. *)
Theorem size_counts_entries {V : Type} (ORDER : nat) (t : node V) :
  (3 <= ORDER)%nat -> wf ORDER t = true \/ reachable ORDER t ->
  size t = wrap (count t) /\ (count t < 2 ^ 32 -> size t = count t).
Proof.
  intros HO Ht.
  assert (Hwf : wf ORDER t = true).
  { destruct Ht as [Hwf|(ops & replies & Hrun)]; [done|].
    eapply (run_wf ORDER HO); [|exact Hrun]. by apply wf_empty. }
  pose proof (size_is_count ORDER t Hwf) as Hsize. split; [done|].
  intros Hlt. rewrite Hsize. apply wrap_small. unfold count in *. lia.
Qed.

Lemma size_counts_entries_witness :
  size (V:=Z) (BTreeNode [(2, 20)] 4 [BTreeLeaf [(1, 10)] 1; BTreeLeaf [(4, 40); (6, 60)] 2])
  = 4.
Proof.
  destruct (size_counts_entries (V:=Z) 4
              (BTreeNode [(2, 20)] 4 [BTreeLeaf [(1, 10)] 1; BTreeLeaf [(4, 40); (6, 60)] 2])
              ltac:(lia) (or_introl eq_refl)) as [_ Hsize].
  rewrite Hsize; [reflexivity|vm_compute; reflexivity].
Defined.
